(** * Beam ICB localiser: the geometry pipeline and the two chart renderers

    A shallow embedding of [app.js]: the Mercator projector, the bounds
    fitter, the geometry-to-path compiler, the region map renderer with its
    selection handle, and the grouped-bar and single-line chart renderers,
    followed by the properties of the design document that concern them.

    Modelling conventions.
    - Numbers.  A JavaScript number is a [num]: a finite value, [Infinity],
      [-Infinity] or [NaN].  Finite values are real numbers; overflow,
      underflow and the sign of zero are not modelled (a zero divisor is the
      positive zero, which is the only zero divisor the code produces).  The
      three special values are kept because the degenerate paths of the code
      produce them and comparisons, [Math.min] and [Math.max] treat them
      specially.
    - Rounding.  The arithmetic of the bounds fitter and of the projection
      it returns ([fitBounds], [project]) is rounded operation by operation
      to binary64: 53 significant bits, round to nearest, ties to even, the
      exponent range unbounded ([round64], the operators of the scope
      [fp]).  There the code subtracts nearly equal numbers and the
      rounding decides where a pixel lands.  Everywhere else, the Mercator
      projector included, the arithmetic is exact: the program differs from
      it in the last bits of a result only.
    - Data.  The contents of coordinate arrays and of series values are
      [value]s: [undefined], [null], a number, or an array of values.
      Strings, booleans and objects do not occur inside them; records are
      used for the objects whose fields the code reads by name.
    - Exceptions.  Code that can raise a [TypeError] returns a [result].
    - Loops whose bound is a number ([for (t = ..; t <= ..; t += step)]) take
      fuel and return [None] when it runs out.
    - The DOM.  An element is a tag, an ordered attribute list, a text and
      children.  [el] stringifies attribute values with [String(v)]; the
      model keeps the value as it was before that conversion.  A renderer
      returns the children of its svg in the order in which it appends
      them; the svg root, the container and the event listeners are left
      out.
    - [Number::toString] on a positive number that is not an integer below
      2^53 is taken from the host ([NumberToString]). *)

From Stdlib Require Import Reals Lra Lia ZArith List String Ascii Bool.
From Stdlib Require Import DecimalString.
Import ListNotations.

(** ** JavaScript numbers *)

Inductive num : Type :=
| Fin (r : R)
| PInf
| NInf
| NaN.

Definition Rltb (x y : R) : bool := if Rlt_dec x y then true else false.
Definition Rleb (x y : R) : bool := if Rle_dec x y then true else false.
Definition Reqb (x y : R) : bool := if Req_dec_T x y then true else false.

Module Num.

Local Open Scope R_scope.

Definition isFinite (a : num) : bool :=
  match a with Fin _ => true | _ => false end.

(** [-a] *)
Definition neg (a : num) : num :=
  match a with
  | Fin r => Fin (- r)
  | PInf => NInf
  | NInf => PInf
  | NaN => NaN
  end.

(** [a + b] *)
Definition add (a b : num) : num :=
  match a, b with
  | NaN, _ | _, NaN => NaN
  | Fin x, Fin y => Fin (x + y)
  | PInf, NInf | NInf, PInf => NaN
  | PInf, _ | _, PInf => PInf
  | NInf, _ | _, NInf => NInf
  end.

(** [a - b] *)
Definition sub (a b : num) : num := add a (neg b).

(** An infinity of the given sign times, or divided by, a finite [r]. *)
Definition signedInf (positive : bool) : num :=
  if positive then PInf else NInf.

Definition infTimes (positive : bool) (r : R) : num :=
  if Reqb r 0 then NaN
  else if Rltb 0 r then signedInf positive
  else signedInf (negb positive).

(** [a * b] *)
Definition mul (a b : num) : num :=
  match a, b with
  | NaN, _ | _, NaN => NaN
  | Fin x, Fin y => Fin (x * y)
  | PInf, Fin y | Fin y, PInf => infTimes true y
  | NInf, Fin y | Fin y, NInf => infTimes false y
  | PInf, PInf | NInf, NInf => PInf
  | PInf, NInf | NInf, PInf => NInf
  end.

(** [a / b]; a finite zero divisor is the positive zero. *)
Definition div (a b : num) : num :=
  match a, b with
  | NaN, _ | _, NaN => NaN
  | Fin x, Fin y =>
      if Reqb y 0 then
        if Reqb x 0 then NaN
        else if Rltb 0 x then PInf else NInf
      else Fin (x / y)
  | Fin _, PInf | Fin _, NInf => Fin 0
  | PInf, Fin y => signedInf (negb (Rltb y 0))
  | NInf, Fin y => signedInf (Rltb y 0)
  | _, _ => NaN
  end.

(** [a < b]; false as soon as one side is [NaN]. *)
Definition lt (a b : num) : bool :=
  match a, b with
  | NaN, _ | _, NaN => false
  | Fin x, Fin y => Rltb x y
  | NInf, NInf | PInf, _ => false
  | NInf, _ => true
  | Fin _, PInf => true
  | Fin _, NInf => false
  end.

(** [a <= b] *)
Definition le (a b : num) : bool :=
  match a, b with
  | NaN, _ | _, NaN => false
  | Fin x, Fin y => Rleb x y
  | NInf, _ | _, PInf => true
  | _, _ => false
  end.

(** [a > b] is [b < a]. *)
Definition gt (a b : num) : bool := lt b a.

(** [Math.min(a, b)] and [Math.max(a, b)]: [NaN] when an argument is. *)
Definition min (a b : num) : num :=
  match a, b with
  | NaN, _ | _, NaN => NaN
  | _, _ => if le a b then a else b
  end.

Definition max (a b : num) : num :=
  match a, b with
  | NaN, _ | _, NaN => NaN
  | _, _ => if le a b then b else a
  end.

(** [Math.max(...xs)]: [-Infinity] on no argument. *)
Definition maxList (xs : list num) : num := fold_left max xs NInf.

(** [Math.ceil(a)] *)
Definition ceil (a : num) : num :=
  match a with
  | Fin r => Fin (IZR (Zceil r))
  | _ => a
  end.

(** [Math.round(a)]: the nearest integer, ties towards [+Infinity]. *)
Definition round (a : num) : num :=
  match a with
  | Fin r => Fin (IZR (Zfloor (r + / 2)))
  | _ => a
  end.

(** [Math.tan(a)] *)
Definition tan (a : num) : num :=
  match a with
  | Fin r => Fin (Rtrigo1.tan r)
  | _ => NaN
  end.

(** [Math.log(a)] *)
Definition log (a : num) : num :=
  match a with
  | Fin r =>
      if Rltb 0 r then Fin (ln r)
      else if Reqb r 0 then NInf else NaN
  | PInf => PInf
  | NInf | NaN => NaN
  end.

(** [a % 1 === 0]: [a] is a finite integer. *)
Definition isInteger (a : num) : bool :=
  match a with
  | Fin r => Reqb r (IZR (Zfloor r))
  | _ => false
  end.

End Num.

Declare Scope num_scope.
Delimit Scope num_scope with num.
Bind Scope num_scope with num.
Infix "+" := Num.add : num_scope.
Infix "-" := Num.sub : num_scope.
Infix "*" := Num.mul : num_scope.
Infix "/" := Num.div : num_scope.
Notation "- x" := (Num.neg x) : num_scope.
Infix "<?" := Num.lt (at level 70) : num_scope.
Infix "<=?" := Num.le (at level 70) : num_scope.
Infix ">?" := Num.gt (at level 70) : num_scope.
Coercion Fin : R >-> num.

(** ** Rounding to binary64

    The arithmetic of the bounds fitter is the one place of the code where a
    difference of nearly equal numbers decides the result, so there every
    operation is rounded as the machine rounds it: to the nearest number with
    a significand of 53 bits, a tie going to the even significand. *)

Local Open Scope R_scope.

(** The integer nearest to [r], the even one of the two when [r] lies half
    way. *)
Definition nearestEven (r : R) : Z :=
  let f := Zfloor r in
  let d := r - IZR f in
  if Rltb d (/ 2) then f
  else if Rltb (/ 2) d then (f + 1)%Z
  else if Z.even f then f else (f + 1)%Z.

(** The binary exponent of a number other than 0: the [e] with
    [2^e <= |x| < 2^(e+1)]. *)
Definition exponent (x : R) : Z := Zfloor (ln (Rabs x) / ln 2).

(** The distance between neighbouring binary64 numbers around [x]. *)
Definition ulp (x : R) : R := powerRZ 2 (exponent x - 52).

(** The binary64 number nearest to [x]. *)
Definition round64 (x : R) : R :=
  if Reqb x 0 then 0 else IZR (nearestEven (x / ulp x)) * ulp x.

(** The unit roundoff. *)
Definition unit64 : R := powerRZ 2 (- 53).

Module Float.

(** The result of an operation, rounded. *)
Definition fl (a : num) : num :=
  match a with
  | Fin r => Fin (round64 r)
  | _ => a
  end.

Definition add (a b : num) : num := fl (a + b)%num.
Definition sub (a b : num) : num := fl (a - b)%num.
Definition mul (a b : num) : num := fl (a * b)%num.
Definition div (a b : num) : num := fl (a / b)%num.

End Float.

Declare Scope fp_scope.
Delimit Scope fp_scope with fp.
Arguments Float.add (a b)%_fp_scope.
Arguments Float.sub (a b)%_fp_scope.
Arguments Float.mul (a b)%_fp_scope.
Arguments Float.div (a b)%_fp_scope.
Infix "+" := Float.add : fp_scope.
Infix "-" := Float.sub : fp_scope.
Infix "*" := Float.mul : fp_scope.
Infix "/" := Float.div : fp_scope.
Notation "- x" := (Num.neg x) : fp_scope.

(** [a'] is [a] up to the relative error [e]. *)
Definition near (e a' a : R) : Prop := Rabs (a' - a) <= e * Rabs a.

Local Open Scope string_scope.
Local Open Scope R_scope.

(** ** Data and exceptions *)

(** What a coordinate array or a series field can hold. *)
#[local] Set Warnings "-register-all".
Inductive value : Type :=
| VUndef
| VNull
| VNum (n : num)
| VArr (items : list value).

(** [typeof v === 'number'] *)
Definition isNumber (v : value) : bool :=
  match v with VNum _ => true | _ => false end.

(** [!!v] *)
Definition truthy (v : value) : bool :=
  match v with
  | VUndef | VNull => false
  | VNum (Fin r) => negb (Reqb r 0)
  | VNum NaN => false
  | VNum _ => true
  | VArr _ => true
  end.

(** [ToNumber(v)], as the arithmetic operators apply it.  An array goes
    through its string: the empty array and an array holding one
    [undefined] or [null] give 0, an array holding one number gives that
    number, a longer array gives [NaN] (its string has a comma). *)
Fixpoint toNumber (v : value) : num :=
  match v with
  | VUndef => NaN
  | VNull => Fin 0
  | VNum n => n
  | VArr [] => Fin 0
  | VArr [x] =>
      match x with
      | VUndef | VNull => Fin 0
      | VNum n => n
      | VArr _ => toNumber x
      end
  | VArr _ => NaN
  end.

Inductive exn : Type := TypeError.

Inductive result (A : Type) : Type :=
| Ok (a : A)
| Throw (e : exn).

Arguments Ok {A} a.
Arguments Throw {A} e.

Definition bind {A B : Type} (m : result A) (k : A -> result B) : result B :=
  match m with
  | Ok a => k a
  | Throw e => Throw e
  end.

Notation "'let*' x ':=' m 'in' k" := (bind m (fun x => k))
  (at level 10, x pattern, m at level 100, k at level 200).

Definition throws {A : Type} (m : result A) : bool :=
  match m with Ok _ => false | Throw _ => true end.

(** A loop body run over the elements in order, threading the state; the
    first exception ends the loop. *)
Fixpoint foldM {A S : Type} (body : A -> S -> result S) (l : list A) (s : S)
  : result S :=
  match l with
  | [] => Ok s
  | x :: rest => let* s' := body x s in foldM body rest s'
  end.

Fixpoint mapM {A B : Type} (f : A -> result B) (l : list A) : result (list B) :=
  match l with
  | [] => Ok []
  | x :: rest =>
      let* y := f x in
      let* ys := mapM f rest in
      Ok (y :: ys)
  end.

(** [for (const x of v) body]: only an array is iterable here. *)
Definition forOf {S : Type} (v : value) (body : value -> S -> result S) (s : S)
  : result S :=
  match v with
  | VArr l => foldM body l s
  | _ => Throw TypeError
  end.

(** [v.map(f)]: a [TypeError] unless [v] is an array. *)
Definition arrayMap {B : Type} (v : value) (f : value -> result B)
  : result (list B) :=
  match v with
  | VArr l => mapM f l
  | _ => Throw TypeError
  end.

(** [const [a, b] = v] *)
Definition destructure2 (v : value) : result (value * value) :=
  match v with
  | VArr l => Ok (nth 0 l VUndef, nth 1 l VUndef)
  | _ => Throw TypeError
  end.

(** [strings.join('')] *)
Definition join (l : list string) : string := String.concat "" l.

(** ** Numbers as text *)

(** The decimal digits of a natural integer. *)
Definition decimal (n : Z) : string :=
  NilZero.string_of_uint (N.to_uint (Z.to_N n)).

Fixpoint zeros (k : nat) : string :=
  match k with
  | O => ""
  | S k' => String "0" (zeros k')
  end.

(** Steps 9 and 10 of [Number.prototype.toFixed] for the integer [n] that is
    nearest to [x * 10^f]: pad the digits to [f + 1] places and put the point
    before the last [f]. *)
Definition fixedDigits (f : nat) (n : Z) : string :=
  let m := decimal n in
  if Nat.eqb f 0 then m
  else
    let m := if Nat.leb (String.length m) f
             then zeros (f + 1 - String.length m) ++ m else m in
    let k := String.length m in
    substring 0 (k - f) m ++ "." ++ substring (k - f) f m.

Definition isDigit (c : ascii) : bool :=
  let n := nat_of_ascii c in Nat.leb 48 n && Nat.leb n 57.

Fixpoint allDigits (s : string) : bool :=
  match s with
  | EmptyString => true
  | String c rest => isDigit c && allDigits rest
  end.

(** A number written with exactly [f] decimals: an optional minus sign, at
    least one digit, a point, [f] digits. *)
Definition hasDecimals (f : nat) (s : string) : Prop :=
  exists sign int frac,
    s = sign ++ int ++ "." ++ frac /\
    (sign = "" \/ sign = "-") /\
    int <> "" /\ allDigits int = true /\
    String.length frac = f /\ allDigits frac = true.

(** [s.replace(/0+$/, '')] *)
Fixpoint dropZeros (rev_chars : list ascii) : list ascii :=
  match rev_chars with
  | "0"%char :: rest => dropZeros rest
  | _ => rev_chars
  end.

Definition stripTrailingZeros (s : string) : string :=
  string_of_list_ascii (rev (dropZeros (rev (list_ascii_of_string s)))).

(** [s.replace(/\.$/, '')] *)
Definition stripTrailingPoint (s : string) : string :=
  match rev (list_ascii_of_string s) with
  | "."%char :: rest => string_of_list_ascii (rev rest)
  | _ => s
  end.

(** What the model takes from the host: [Number::toString] where it has no
    digits for it, on a positive number that is not an integer below 2^53. *)
Class Host : Type := {
  NumberToString : R -> string
}.

Section Text.

Context {host : Host}.

(** [String(a)] for [a > 0] *)
Definition positiveToString (a : R) : string :=
  if Reqb a (IZR (Zfloor a)) && Rltb a (2 ^ 53)
  then decimal (Zfloor a)
  else NumberToString a.

(** [String(x)] *)
Definition numberToString (x : num) : string :=
  match x with
  | NaN => "NaN"
  | PInf => "Infinity"
  | NInf => "-Infinity"
  | Fin r =>
      if Reqb r 0 then "0"
      else if Rltb r 0 then "-" ++ positiveToString (- r)
      else positiveToString r
  end.

(** [x.toFixed(f)] *)
Definition toFixed (f : nat) (x : num) : string :=
  match x with
  | NaN => "NaN"
  | PInf => "Infinity"
  | NInf => "-Infinity"
  | Fin r =>
      let s := if Rltb r 0 then "-" else "" in
      let a := Rabs r in
      if Rleb 1e21 a then s ++ NumberToString a
      else s ++ fixedDigits f (Zfloor (a * 10 ^ f + / 2))
  end.

End Text.

(** ** Coordinate projector *)

(** [mercatorProject(lon, lat)], longitude and latitude in degrees. *)
Definition mercatorProject (lon lat : value) : num * num :=
  let lambda := (toNumber lon * PI / 180)%num in
  let phi := (toNumber lat * PI / 180)%num in
  let x := lambda in
  let y := Num.log (Num.tan (PI / 4 + phi / 2)%num) in
  (x, y).

(** ** Boundary data *)

Record Geometry : Type := {
  type : option string;
  coordinates : value
}.

Record Properties : Type := {
  icb23cd : option string;
  icb_name_short : option string;
  icb23nm : option string
}.

Record Feature : Type := {
  properties : option Properties;
  geometry : option Geometry
}.

Record FeatureCollection : Type := {
  features : list Feature
}.

(** [t === name] *)
Definition typeIs (t : option string) (name : string) : bool :=
  match t with
  | Some s => String.eqb s name
  | None => false
  end.

(** ** Walking the coordinates of a geometry *)

Section ForEachCoord.

Context {S : Type}.
Variable cb : value -> S -> result S.

(** The fallback walker for the other geometry types. *)
Fixpoint walk (arr : value) (s : S) : result S :=
  match arr with
  | VArr l =>
      if isNumber (nth 0 l VUndef) && isNumber (nth 1 l VUndef) then cb arr s
      else
        (fix each (items : list value) (s : S) : result S :=
           match items with
           | [] => Ok s
           | item :: rest => let* s' := walk item s in each rest s'
           end) l s
  | VNum _ | VUndef | VNull => Throw TypeError
  end.

Definition forEachCoord (geom : option Geometry) (s : S) : result S :=
  match geom with
  | None => Ok s
  | Some g =>
      let coords := coordinates g in
      if typeIs (type g) "Polygon" then
        forOf coords (fun ring => forOf ring cb) s
      else if typeIs (type g) "MultiPolygon" then
        forOf coords (fun poly => forOf poly (fun ring => forOf ring cb)) s
      else
        match coords with
        | VArr _ => walk coords s
        | _ => Ok s
        end
  end.

End ForEachCoord.

(** ** Bounds fitter *)

Record Bounds : Type := {
  minX : num; minY : num; maxX : num; maxY : num
}.

Definition noBounds : Bounds :=
  {| minX := PInf; minY := PInf; maxX := NInf; maxY := NInf |}.

(** The callback of the scan: project the point, widen the box. *)
Definition trackPoint (pt : value) (b : Bounds) : result Bounds :=
  let* (lon, lat) := destructure2 pt in
  let '(x, y) := mercatorProject lon lat in
  Ok {| minX := if (x <? minX b)%num then x else minX b;
        minY := if (y <? minY b)%num then y else minY b;
        maxX := if (x >? maxX b)%num then x else maxX b;
        maxY := if (y >? maxY b)%num then y else maxY b |}.

Definition scanBounds (geo : FeatureCollection) : result Bounds :=
  foldM (fun feat => forEachCoord trackPoint (geometry feat))
        (features geo) noBounds.

(** What the returned [project] closure captures. *)
Record Projection : Type := {
  scale : num; tx : num; ty : num
}.

(** [const pad = 0.96]: the binary64 number nearest to 0.96. *)
Definition pad : num := Float.fl (Fin 0.96).

(** The arithmetic of [buildGeoProjection] once the box is known, each
    operation rounded. *)
Definition fitBounds (b : Bounds) (W H : num) : Projection :=
  let dx := (maxX b - minX b)%fp in
  let dy := (maxY b - minY b)%fp in
  let scale := (pad * Num.min (W / dx)%fp (H / dy)%fp)%fp in
  let mapW := (dx * scale)%fp in
  let mapH := (dy * scale)%fp in
  let tx := ((W - mapW) / 2 - minX b * scale)%fp in
  let ty := ((H - mapH) / 2 + maxY b * scale)%fp in
  {| scale := scale; tx := tx; ty := ty |}.

Definition buildGeoProjection (geo : FeatureCollection) (W H : num)
  : result Projection :=
  let* b := scanBounds geo in
  Ok (fitBounds b W H).

(** [proj.project([lon, lat])], each operation rounded. *)
Definition project (p : Projection) (lon lat : value) : num * num :=
  let '(x, y) := mercatorProject lon lat in
  let px := (x * scale p + tx p)%fp in
  let py := ((- y) * scale p + ty p)%fp in
  (px, py).

(** ** Geometry-to-path compiler *)

Section RegionMap.

Context {host : Host}.

(** The body of the loop over [ring[i]], from index [i] on. *)
Fixpoint ringLoop (project : value -> value -> num * num)
    (pts : list value) (i : nat) (d : string) : result string :=
  match pts with
  | [] => Ok d
  | pt :: rest =>
      let* (lon, lat) := destructure2 pt in
      let '(x, y) := project lon lat in
      ringLoop project rest (S i)
        (d ++ (if Nat.eqb i 0 then "M" else "L")
           ++ toFixed 2 x ++ " " ++ toFixed 2 y)
  end.

Definition ringToPath (project : value -> value -> num * num) (ring : value)
  : result string :=
  if negb (truthy ring) then Ok ""
  else
    match ring with
    | VArr [] => Ok ""
    | VArr pts => let* d := ringLoop project pts 0 "" in Ok (d ++ "Z")
    | _ => Ok "Z"
    end.

Definition geomToPath (geom : option Geometry)
    (project : value -> value -> num * num) : result string :=
  match geom with
  | None => Ok ""
  | Some g =>
      let coords := coordinates g in
      if typeIs (type g) "Polygon" then
        let* parts := arrayMap coords (ringToPath project) in
        Ok (join parts)
      else if typeIs (type g) "MultiPolygon" then
        let* parts :=
          arrayMap coords (fun poly =>
            let* rings := arrayMap poly (ringToPath project) in
            Ok (join rings)) in
        Ok (join parts)
      else Ok ""
  end.

(** ** The drawing surface *)

Inductive attrValue : Type :=
| AStr (s : string)
| ANum (n : num).

#[local] Set Warnings "-register-all".
Inductive element : Type :=
| El (tag : string) (attrs : list (string * attrValue)) (text : string)
     (children : list element).

(** An insertion-ordered map with string keys: a new key goes last, a key
    already there keeps its place. *)
Fixpoint assocSet {V : Type} (k : string) (v : V) (m : list (string * V))
  : list (string * V) :=
  match m with
  | [] => [(k, v)]
  | (k', v') :: rest =>
      if String.eqb k' k then (k', v) :: rest
      else (k', v') :: assocSet k v rest
  end.

Fixpoint assocGet {V : Type} (k : string) (m : list (string * V)) : option V :=
  match m with
  | [] => None
  | (k', v') :: rest => if String.eqb k' k then Some v' else assocGet k rest
  end.

Definition tagOf (e : element) : string := let 'El t _ _ _ := e in t.
Definition attrsOf (e : element) : list (string * attrValue) :=
  let 'El _ a _ _ := e in a.

Definition setAttribute (name : string) (v : attrValue) (e : element)
  : element :=
  let 'El t a x c := e in El t (assocSet name v a) x c.

Definition getAttribute (name : string) (e : element) : option attrValue :=
  assocGet name (attrsOf e).

(** [node.textContent = s] on a node that has no children yet *)
Definition setTextContent (s : string) (e : element) : element :=
  let 'El t a _ c := e in El t a s c.

(** [el(tag, attrs, children)] *)
Definition el (tag : string) (attrs : list (string * attrValue))
    (children : list element) : element :=
  El tag (fold_left (fun acc kv => assocSet (fst kv) (snd kv) acc) attrs [])
     "" children.

Definition BRAND_BLUE : string := "#141B8C".
Definition REFERRALS_GREY : string := "#D1D5DB".
Definition STROKE_GREY : string := "#ffffff".

(** [n] as a number *)
Definition ofNat (n : nat) : num := Fin (INR n).

(** ** Region map renderer *)

(** Truthiness of a value that is a string or missing. *)
Definition given (s : option string) : bool :=
  match s with
  | Some x => negb (String.eqb x "")
  | None => false
  end.

(** [a || b] *)
Definition orElse (a b : option string) : option string :=
  if given a then a else b.

(** [s || fallback] as a string *)
Definition orText (s : option string) (fallback : string) : string :=
  match s with
  | Some x => if String.eqb x "" then fallback else x
  | None => fallback
  end.

(** [feat.properties?.icb23cd] and the like *)
Definition prop (field : Properties -> option string) (feat : Feature)
  : option string :=
  match properties feat with
  | Some p => field p
  | None => None
  end.

(** The svg of the map and the selection handle on it.  [shapes] are the
    children of the svg, one path per feature in order; [pathsByCd] maps a
    region code to the position of its path among them, standing for the
    reference the JavaScript [Map] holds.  The listeners of a path (a click,
    Enter or Space calls [onPick(cd)] when [cd] is given) are not part of
    the style state and are left out. *)
Record MapHandle : Type := {
  shapes : list element;
  pathsByCd : list (string * nat)
}.

(** One turn of the loop over the features. *)
Definition renderFeature (proj : Projection) (feat : Feature) (h : MapHandle)
  : result MapHandle :=
  let cd := prop icb23cd feat in
  let nm := orText (orElse (orElse (prop icb_name_short feat)
                                   (prop icb23nm feat)) cd) "ICB" in
  let* pathD := geomToPath (geometry feat) (project proj) in
  let path :=
    el "path" [ ("d", AStr pathD);
                ("fill", AStr "#c7cdd9");
                ("stroke", AStr STROKE_GREY);
                ("stroke-width", ANum 1);
                ("fill-rule", AStr "evenodd");
                ("tabindex", ANum 0);
                ("data-icb23cd", AStr (orText cd "")) ]
       [ setTextContent nm (el "title" [] []) ] in
  Ok {| shapes := (shapes h ++ [path])%list;
        pathsByCd := if given cd
                     then assocSet (orText cd "") (List.length (shapes h))
                                   (pathsByCd h)
                     else pathsByCd h |}.

(** [renderMap(container, geo, onPick)]: the container receives the svg. *)
Definition renderMap (geo : FeatureCollection) : result MapHandle :=
  let W := Fin 1000 in
  let H := Fin 680 in
  let* proj := buildGeoProjection geo W H in
  foldM (renderFeature proj) (features geo)
        {| shapes := []; pathsByCd := [] |}.

(** Replace the element at position [i]. *)
Fixpoint updateNth {A : Type} (i : nat) (f : A -> A) (l : list A) : list A :=
  match l, i with
  | [], _ => []
  | x :: rest, O => f x :: rest
  | x :: rest, S j => x :: updateNth j f rest
  end.

(** The two [setAttribute] calls of [setSelected] on one path. *)
Definition paint (selected : bool) (path : element) : element :=
  setAttribute "opacity" (AStr (if selected then "1" else "0.95"))
    (setAttribute "fill" (AStr (if selected then BRAND_BLUE else "#c7cdd9"))
       path).

(** [handle.setSelected(cd)] *)
Definition setSelected (h : MapHandle) (cd : string) : MapHandle :=
  {| shapes :=
       fold_left (fun paths entry =>
                    updateNth (snd entry) (paint (String.eqb (fst entry) cd))
                              paths)
                 (pathsByCd h) (shapes h);
     pathsByCd := pathsByCd h |}.

End RegionMap.

(** ** Series chart renderers *)

Record Margin : Type := {
  top : num; right : num; bottom : num; left : num
}.

(** The loop [for (let t = t0; t <= limit; t += step) body(t)], appending
    what each turn draws. *)
Fixpoint tickLoop (fuel : nat) (t limit step : num)
    (body : num -> list element) : option (list element) :=
  match fuel with
  | O => if (t <=? limit)%num then None else Some []
  | S fuel' =>
      if (t <=? limit)%num
      then option_map (app (body t))
             (tickLoop fuel' (t + step)%num limit step body)
      else Some []
  end.

(** The loop [for (let i = 0; i < items.length; i++) body(i, items[i])] *)
Fixpoint indexLoop {A B : Type} (body : nat -> A -> list B) (i : nat)
    (items : list A) : list B :=
  match items with
  | [] => []
  | x :: rest => (body i x ++ indexLoop body (S i) rest)%list
  end.

Module Referrals.

Section Chart.

Context {host : Host}.

(** One period of the input series. *)
Record row : Type := {
  year : string;
  referrals : value;
  accessed : value
}.

(** The same in millions. *)
Record rowM : Type := {
  yearM : string;
  referralsM : num;
  accessedM : num
}.

Definition margin : Margin :=
  {| top := Fin 70; right := Fin 30; bottom := Fin 70; left := Fin 80 |}.
Definition W : num := Fin 1000.
Definition H : num := Fin 680.
Definition innerW : num := (W - left margin - right margin)%num.
Definition innerH : num := (H - top margin - bottom margin)%num.

Definition dataM (series : list row) : list rowM :=
  map (fun d => {| yearM := year d;
                   referralsM := (toNumber (referrals d) / 1e6)%num;
                   accessedM := (toNumber (accessed d) / 1e6)%num |})
      series.

Definition maxVal (series : list row) : num :=
  Num.maxList
    (flat_map (fun d => [referralsM d; accessedM d; Fin 0]) (dataM series)).

Definition step (series : list row) : num :=
  let maxVal := maxVal series in
  if (maxVal <=? 0.2)%num then Fin 0.05
  else if (maxVal <=? 0.5)%num then Fin 0.1
  else if (maxVal <=? 1.0)%num then Fin 0.2
  else Fin 0.5.

Definition yMax (series : list row) : num :=
  let step := step series in
  Num.max step (Num.ceil ((maxVal series * 1.12) / step) * step)%num.

Definition yScale (series : list row) (v : num) : num :=
  (top margin + (1 - v / yMax series) * innerH)%num.

Definition xBand (series : list row) : num :=
  (innerW / ofNat (List.length (dataM series)))%num.

Definition y0 (series : list row) : num := yScale series (Fin 0).

Definition tickLabel (t : num) : string :=
  if Num.isInteger t then numberToString (Num.round t)
  else stripTrailingPoint (stripTrailingZeros (toFixed 2 t)).

(** Gridlines and y labels *)
Definition gridline (series : list row) (t : num) : list element :=
  let y := yScale series t in
  [ el "line" [ ("x1", ANum (left margin));
                ("x2", ANum (left margin + innerW)%num);
                ("y1", ANum y);
                ("y2", ANum y);
                ("stroke", AStr "#d1d5db");
                ("stroke-width", ANum 1) ] [];
    setTextContent (tickLabel t)
      (el "text" [ ("x", ANum (left margin - 10)%num);
                   ("y", ANum (y + 5)%num);
                   ("text-anchor", AStr "end");
                   ("font-size", ANum 16);
                   ("font-weight", ANum 600);
                   ("fill", AStr "#d1d5db") ] []) ].

Definition gridlines (fuel : nat) (series : list row)
  : option (list element) :=
  tickLoop fuel (Fin 0) (yMax series + 1e-9)%num (step series)
           (gridline series).

Definition axes (series : list row) : list element :=
  [ el "line" [ ("x1", ANum (left margin));
                ("x2", ANum (left margin));
                ("y1", ANum (top margin));
                ("y2", ANum (y0 series));
                ("stroke", AStr "#6b7280");
                ("stroke-width", ANum 1.5) ] [];
    el "line" [ ("x1", ANum (left margin));
                ("x2", ANum (left margin + innerW)%num);
                ("y1", ANum (y0 series));
                ("y2", ANum (y0 series));
                ("stroke", AStr "#6b7280");
                ("stroke-width", ANum 1.5) ] [] ].

Definition legendY : num := (top margin - 40)%num.
Definition legendX : num := (left margin + 260)%num.

Definition legendItem (x : num) (color label : string) : list element :=
  [ el "rect" [ ("x", ANum x);
                ("y", ANum (legendY - 10)%num);
                ("width", ANum 14);
                ("height", ANum 14);
                ("fill", AStr color) ] [];
    setTextContent label
      (el "text" [ ("x", ANum (x + 20)%num);
                   ("y", ANum (legendY + 2)%num);
                   ("text-anchor", AStr "start");
                   ("font-size", ANum 18);
                   ("font-weight", ANum 700);
                   ("fill", AStr "#d1d5db") ] []) ].

Definition legend : list element :=
  (legendItem legendX REFERRALS_GREY "Referrals (m)"
   ++ legendItem (legendX + 170)%num BRAND_BLUE "Accessed services (m)")%list.

(** The rectangle of one value of one period. *)
Definition bar (series : list row) (x barW v : num) (color : string)
  : element :=
  let y := yScale series v in
  el "rect" [ ("x", ANum x);
              ("y", ANum y);
              ("width", ANum barW);
              ("height", ANum (Num.max 0 (y0 series - y)%num));
              ("fill", AStr color) ] [].

(** One turn of the loop over the periods: two bars and the x label. *)
Definition group (series : list row) (i : nat) (d : rowM) : list element :=
  let xBand := xBand series in
  let groupX := (left margin + ofNat i * xBand)%num in
  let barTotal := (xBand * 0.62)%num in
  let barGap := (barTotal * 0.10)%num in
  let barW := ((barTotal - barGap) / 2)%num in
  let offset := ((xBand - barTotal) / 2)%num in
  let xRef := (groupX + offset)%num in
  let xAcc := (xRef + barW + barGap)%num in
  [ bar series xRef barW (referralsM d) REFERRALS_GREY;
    bar series xAcc barW (accessedM d) BRAND_BLUE;
    setTextContent (yearM d)
      (el "text" [ ("x", ANum (groupX + xBand / 2)%num);
                   ("y", ANum (y0 series + 46)%num);
                   ("text-anchor", AStr "middle");
                   ("font-size", ANum 18);
                   ("font-weight", ANum 700);
                   ("fill", AStr "#d1d5db") ] []) ].

Definition bars (series : list row) : list element :=
  indexLoop (group series) 0 (dataM series).

(** [renderReferralsChart(container, series)]: the children of the svg that
    the container receives, in the order they are appended. *)
Definition renderReferralsChart (fuel : nat) (series : list row)
  : option (list element) :=
  option_map (fun grid => grid ++ axes series ++ legend ++ bars series)%list
             (gridlines fuel series).

End Chart.

End Referrals.

Module Sessions.

Section Chart.

Context {host : Host}.

Record row : Type := {
  year : string;
  sessions : value
}.

Record point : Type := {
  yearS : string;
  sessionsN : num
}.

Definition margin : Margin :=
  {| top := Fin 40; right := Fin 30; bottom := Fin 70; left := Fin 80 |}.
Definition W : num := Fin 1000.
Definition H : num := Fin 680.
Definition innerW : num := (W - left margin - right margin)%num.
Definition innerH : num := (H - top margin - bottom margin)%num.

(** [(series || []).map(...)]; [None] is a missing series. *)
Definition data (series : option (list row)) : list point :=
  map (fun d => {| yearS := year d; sessionsN := toNumber (sessions d) |})
      (match series with Some s => s | None => [] end).

(** The axis range and ticks of the deck. *)
Definition yMin : num := Fin 7.6.
Definition yMax : num := Fin 8.5.
Definition yStep : num := Fin 0.1.

Definition yScale (v : num) : num :=
  (top margin + (1 - ((v - yMin) / (yMax - yMin))) * innerH)%num.

Definition xStep (data : list point) : num :=
  (innerW / Num.max 1 (ofNat (List.length data) - 1))%num.

Definition xScale (data : list point) (i : nat) : num :=
  (left margin + ofNat i * xStep data)%num.

Definition background : element :=
  el "rect" [ ("x", ANum 0); ("y", ANum 0);
              ("width", ANum W); ("height", ANum H);
              ("fill", AStr "#fafbfd") ] [].

Definition tickLabel (t : num) : string :=
  if Num.isInteger t then numberToString (Num.round t) else toFixed 1 t.

Definition gridline (t : num) : list element :=
  let y := yScale t in
  [ el "line" [ ("x1", ANum (left margin));
                ("x2", ANum (left margin + innerW)%num);
                ("y1", ANum y);
                ("y2", ANum y);
                ("stroke", AStr "#d1d5db");
                ("stroke-width", ANum 1) ] [];
    setTextContent (tickLabel t)
      (el "text" [ ("x", ANum (left margin - 10)%num);
                   ("y", ANum (y + 5)%num);
                   ("text-anchor", AStr "end");
                   ("font-size", ANum 18);
                   ("font-weight", ANum 600);
                   ("fill", AStr "#d1d5db") ] []) ].

Definition gridlines (fuel : nat) : option (list element) :=
  tickLoop fuel yMin (yMax + 1e-9)%num yStep gridline.

Definition y0 : num := yScale yMin.

Definition axes : list element :=
  [ el "line" [ ("x1", ANum (left margin));
                ("x2", ANum (left margin));
                ("y1", ANum (top margin));
                ("y2", ANum y0);
                ("stroke", AStr "#6b7280");
                ("stroke-width", ANum 1.5) ] [];
    el "line" [ ("x1", ANum (left margin));
                ("x2", ANum (left margin + innerW)%num);
                ("y1", ANum y0);
                ("y2", ANum y0);
                ("stroke", AStr "#6b7280");
                ("stroke-width", ANum 1.5) ] [] ].

Definition xLabels (data : list point) : list element :=
  indexLoop (fun i d =>
    [ setTextContent (yearS d)
        (el "text" [ ("x", ANum (xScale data i));
                     ("y", ANum (y0 + 46)%num);
                     ("text-anchor", AStr "middle");
                     ("font-size", ANum 18);
                     ("font-weight", ANum 700);
                     ("fill", AStr "#d1d5db") ] []) ]) 0 data.

(** The [d] attribute of the line, built point by point. *)
Definition linePath (data : list point) : string :=
  join (indexLoop (fun i d =>
    [ (if Nat.eqb i 0 then "M" else "L")
        ++ toFixed 2 (xScale data i) ++ " "
        ++ toFixed 2 (yScale (sessionsN d)) ]) 0 data).

Definition markers (data : list point) : list element :=
  indexLoop (fun i d =>
    [ el "circle" [ ("cx", ANum (xScale data i));
                    ("cy", ANum (yScale (sessionsN d)));
                    ("r", ANum 7);
                    ("fill", AStr BRAND_BLUE) ] [] ]) 0 data.

(** The line and its markers, drawn only when there is data. *)
Definition marks (data : list point) : list element :=
  match data with
  | [] => []
  | _ =>
      el "path" [ ("d", AStr (linePath data));
                  ("fill", AStr "none");
                  ("stroke", AStr BRAND_BLUE);
                  ("stroke-width", ANum 8);
                  ("stroke-linecap", AStr "round");
                  ("stroke-linejoin", AStr "round") ] []
      :: markers data
  end.

(** [renderSessionsChart(container, series)]: the children of the svg. *)
Definition renderSessionsChart (fuel : nat) (series : option (list row))
  : option (list element) :=
  let data := data series in
  option_map (fun grid =>
                background :: grid ++ axes ++ xLabels data ++ marks data)%list
             (gridlines fuel).

End Chart.

End Sessions.

(** ** The boundary collection of the data model

    A region's geometry is a polygon or a multi-polygon, a polygon is a
    list of rings, a ring a list of longitude and latitude pairs in
    degrees.  [collection] is such data as the code receives it. *)

Record LonLat : Type := {
  lon : R;
  lat : R
}.

Definition Ring : Type := list LonLat.

Inductive Shape : Type :=
| Polygon (rings : list Ring)
| MultiPolygon (polygons : list (list Ring)).

Record Region : Type := {
  identity : option Properties;
  shape : Shape
}.

Definition pointValue (p : LonLat) : value :=
  VArr [VNum (Fin (lon p)); VNum (Fin (lat p))].

Definition ringValue (r : Ring) : value := VArr (map pointValue r).

Definition polygonValue (rings : list Ring) : value :=
  VArr (map ringValue rings).

Definition shapeGeometry (s : Shape) : Geometry :=
  match s with
  | Polygon rings =>
      {| type := Some "Polygon"; coordinates := polygonValue rings |}
  | MultiPolygon polygons =>
      {| type := Some "MultiPolygon";
         coordinates := VArr (map polygonValue polygons) |}
  end.

Definition regionFeature (r : Region) : Feature :=
  {| properties := identity r; geometry := Some (shapeGeometry (shape r)) |}.

Definition collection (regions : list Region) : FeatureCollection :=
  {| features := map regionFeature regions |}.

(** Every coordinate of a shape, and of a collection, in order. *)
Definition shapePoints (s : Shape) : list LonLat :=
  match s with
  | Polygon rings => List.concat rings
  | MultiPolygon polygons => List.concat (map (@List.concat LonLat) polygons)
  end.

Definition allPoints (regions : list Region) : list LonLat :=
  flat_map (fun r => shapePoints (shape r)) regions.

(** The planar image of a point, as real numbers, for a latitude strictly
    between the poles. *)
Definition planarX (p : LonLat) : R := lon p * PI / 180.
Definition planarY (p : LonLat) : R :=
  ln (tan (PI / 4 + lat p * PI / 180 / 2)).

(** The box after one more point of the data model. *)
Definition widen (p : LonLat) (b : Bounds) : Bounds :=
  {| minX := if (Fin (planarX p) <? minX b)%num then Fin (planarX p) else minX b;
     minY := if (Fin (planarY p) <? minY b)%num then Fin (planarY p) else minY b;
     maxX := if (Fin (planarX p) >? maxX b)%num then Fin (planarX p) else maxX b;
     maxY := if (Fin (planarY p) >? maxY b)%num then Fin (planarY p) else maxY b |}.

Definition validPoints (pts : list LonLat) : Prop :=
  forall p, In p pts -> -90 < lat p < 90.

(** What the scan knows after the points [pts]: nothing, or a finite box
    that holds the planar image of each of them. *)
Inductive boxOf (pts : list LonLat) : Bounds -> Prop :=
| box_none : pts = [] -> boxOf pts noBounds
| box_some (x0 y0 x1 y1 : R) :
    pts <> [] ->
    (forall p, In p pts ->
       x0 <= planarX p <= x1 /\ y0 <= planarY p <= y1) ->
    boxOf pts {| minX := Fin x0; minY := Fin y0;
                 maxX := Fin x1; maxY := Fin y1 |}.

(** The extents of the box; the fitter divides by them once rounded. *)
Definition extentX (b : Bounds) : num := (maxX b - minX b)%num.
Definition extentY (b : Bounds) : num := (maxY b - minY b)%num.

(** How far the coordinates of a box side are from 0, in units of the
    extent of the box: 1 for a box that starts at 0, large for a small box
    far from 0. *)
Definition spread (lo hi : R) : R := Rmax (Rabs lo) (Rabs hi) / (hi - lo).

(** How far the rounding of the fit can move a pixel coordinate, for a
    canvas side of the length [side] and a box from [lo] to [hi] along it. *)
Definition slack (side lo hi : R) : R :=
  unit64 * side * (10 + 24 * spread lo hi).

(** ** The path of a shape, as the design document words it *)

Section PathText.

Context {host : Host}.
Variable project : value -> value -> num * num.

(** The two coordinates of a projected point, each with two decimals,
    separated by a space. *)
Definition pointText (p : LonLat) : string :=
  let '(x, y) := project (VNum (Fin (lon p))) (VNum (Fin (lat p))) in
  toFixed 2 x ++ " " ++ toFixed 2 y.

(** A move-to the first point, a line-to each subsequent point, and a
    close-path; nothing for a ring without points. *)
Definition ringText (r : Ring) : string :=
  match r with
  | [] => ""
  | first :: others =>
      "M" ++ pointText first
          ++ join (map (fun p => "L" ++ pointText p) others)
          ++ "Z"
  end.

(** The rings of a polygon in order. *)
Definition polygonText (rings : list Ring) : string :=
  join (map ringText rings).

(** A multi-polygon is the concatenation of its polygons. *)
Definition shapeText (s : Shape) : string :=
  match s with
  | Polygon rings => polygonText rings
  | MultiPolygon polygons => join (map polygonText polygons)
  end.

(** Every coordinate that the path of a shape holds. *)
Definition emitted (s : Shape) : list string :=
  flat_map (fun p =>
              let '(x, y) := project (VNum (Fin (lon p))) (VNum (Fin (lat p))) in
              [toFixed 2 x; toFixed 2 y])
           (shapePoints s).

End PathText.

(** A number that [toFixed] writes in fixed notation: finite, of magnitude
    below 1e21. *)
Definition fixedRange (x : num) : Prop :=
  exists r : R, x = Fin r /\ Rabs r < 1e21.

(** ** When the path compiler raises no exception *)

Definition isArray (v : value) : bool :=
  match v with VArr _ => true | _ => false end.

(** A ring: anything but an array that holds a point which is not one. *)
Definition ringCompiles (ring : value) : bool :=
  match ring with
  | VArr pts => forallb isArray pts
  | _ => true
  end.

(** The coordinates of a polygon: an array of such rings. *)
Definition polygonCompiles (coords : value) : bool :=
  match coords with
  | VArr rings => forallb ringCompiles rings
  | _ => false
  end.

Definition compiles (geom : option Geometry) : bool :=
  match geom with
  | None => true
  | Some g =>
      if typeIs (type g) "Polygon" then polygonCompiles (coordinates g)
      else if typeIs (type g) "MultiPolygon" then
        match coordinates g with
        | VArr polygons => forallb polygonCompiles polygons
        | _ => false
        end
      else true
  end.

(** ** Which path the selection handle keeps for a region code *)

(** [feat.properties?.icb23cd] *)
Definition codeOf (feat : Feature) : option string := prop icb23cd feat.

(** The feature at position [i] carries the code [k], and no later feature
    does: the [Map] holds the path at position [i] under [k]. *)
Definition keeps (feats : list Feature) (i : nat) (k : string) : Prop :=
  k <> ""%string
  /\ nth_error (map codeOf feats) i = Some (Some k)
  /\ forall j : nat, (i < j)%nat ->
       nth_error (map codeOf feats) j <> Some (Some k).

(** A path as [renderMap] leaves it: the default colour, no opacity. *)
Definition unpainted (path : element) : Prop :=
  getAttribute "fill" path = Some (AStr "#c7cdd9")
  /\ getAttribute "opacity" path = None.

(** What holds of the handle after the features [done]. *)
Record mapInv (done : list Feature) (h : MapHandle) : Prop := {
  inv_length : List.length (shapes h) = List.length done;
  inv_keys : NoDup (map fst (pathsByCd h));
  inv_kept : forall k i, In (k, i) (pathsByCd h) <-> keeps done i k;
  inv_fresh : Forall unpainted (shapes h)
}.

(** ** The numeric series of the data model *)

(** One period of the grouped-bar series: a label and two finite values. *)
Record Period : Type := {
  period : string;
  valueA : R;
  valueB : R
}.

Definition periodRow (p : Period) : Referrals.row :=
  {| Referrals.year := period p;
     Referrals.referrals := VNum (Fin (valueA p));
     Referrals.accessed := VNum (Fin (valueB p)) |}.

Definition series (s : list Period) : list Referrals.row := map periodRow s.

(** The observed values of both series, in millions. *)
Definition observed (s : list Period) : list R :=
  flat_map (fun p => [valueA p / 1e6; valueB p / 1e6]) s.

(** The values that the renderer takes the maximum of: the observed ones
    and a zero for each period. *)
Definition withZeros (s : list Period) : list R :=
  flat_map (fun p => [valueA p / 1e6; valueB p / 1e6; 0]) s.

(** The greatest element of a list that has one. *)
Definition listMax (l : list R) : R :=
  match l with
  | [] => 0
  | x :: rest => fold_left Rmax rest x
  end.

Definition observedMax (s : list Period) : R := listMax (observed s).

(** The gridline step by the threshold the maximum falls under. *)
Definition niceStep (m : R) : R :=
  if Rle_dec m 0.2 then 0.05
  else if Rle_dec m 0.5 then 0.1
  else if Rle_dec m 1.0 then 0.2
  else 0.5.

(** ** The single-line renderer as the design document words it: the axis
    range and the gridline step are arguments of the call. *)

Section SessionsWithRange.

Context {host : Host}.
Variables (yMin yMax yStep : num).

Definition yScaleWith (v : num) : num :=
  (top Sessions.margin
   + (1 - ((v - yMin) / (yMax - yMin))) * Sessions.innerH)%num.

Definition gridlineWith (t : num) : list element :=
  let y := yScaleWith t in
  [ el "line" [ ("x1", ANum (left Sessions.margin));
                ("x2", ANum (left Sessions.margin + Sessions.innerW)%num);
                ("y1", ANum y);
                ("y2", ANum y);
                ("stroke", AStr "#d1d5db");
                ("stroke-width", ANum 1) ] [];
    setTextContent (Sessions.tickLabel t)
      (el "text" [ ("x", ANum (left Sessions.margin - 10)%num);
                   ("y", ANum (y + 5)%num);
                   ("text-anchor", AStr "end");
                   ("font-size", ANum 18);
                   ("font-weight", ANum 600);
                   ("fill", AStr "#d1d5db") ] []) ].

(** The gridlines of a chart whose range the caller supplies. *)
Definition gridlinesWith (fuel : nat) : option (list element) :=
  tickLoop fuel yMin (yMax + 1e-9)%num yStep gridlineWith.

End SessionsWithRange.

(** The tick reached after [k] steps. *)
Fixpoint tickAt (k : nat) (t step : num) : num :=
  match k with
  | O => t
  | S k' => tickAt k' (t + step)%num step
  end.

(** The values at which a tick loop draws: [count] steps from [t]. *)
Fixpoint tickValues (count : nat) (t step : num) : list num :=
  match count with
  | O => []
  | S count' => t :: tickValues count' (t + step)%num step
  end.

(** ** Sample data for the examples *)

(** The host of the examples: none of them reaches a number whose digits
    the host would have to supply. *)
#[local] Instance plainHost : Host := {| NumberToString := fun _ => ""%string |}.

Definition cornerA : LonLat := {| lon := 0; lat := 0 |}.
Definition cornerB : LonLat := {| lon := 1; lat := 1 |}.

(** A polygon whose single ring goes from one corner to the other and
    back, and a collection of one region with that shape. *)
Definition cornerRing : Shape := Polygon [[cornerA; cornerB; cornerA]].

Definition twoCorners : list Region :=
  [ {| identity := None; shape := cornerRing |} ].

(** The empty collection. *)
Definition noRegions : FeatureCollection := {| features := [] |}.

(** One region reduced to a single point. *)
Definition onePoint : list Region :=
  [ {| identity := None; shape := Polygon [[cornerA]] |} ].

(** A projection for the examples: longitude and latitude as they are. *)
Definition plainProject (lon lat : value) : num * num :=
  (toNumber lon, toNumber lat).

(** A feature with a region code and no geometry, and one with neither. *)
Definition coded (cd : string) : Feature :=
  {| properties := Some {| icb23cd := Some cd; icb_name_short := None;
                           icb23nm := None |};
     geometry := None |}.

Definition uncoded : Feature := {| properties := None; geometry := None |}.

Definition mixedRegions : FeatureCollection :=
  {| features := [coded "E54000008"; uncoded] |}.

(** Two regions that carry the same code. *)
Definition twinRegions : FeatureCollection :=
  {| features := [coded "E54000008"; coded "E54000008"] |}.

(** The path that [renderMap] draws for a feature without geometry. *)
Definition drawnPath (cd nm : string) : element :=
  el "path" [ ("d", AStr ""); ("fill", AStr "#c7cdd9");
              ("stroke", AStr STROKE_GREY); ("stroke-width", ANum 1);
              ("fill-rule", AStr "evenodd"); ("tabindex", ANum 0);
              ("data-icb23cd", AStr cd) ]%string
     [ setTextContent nm (el "title" [] []) ].

Definition mixedHandle : MapHandle :=
  {| shapes := [drawnPath "E54000008" "E54000008"; drawnPath "" "ICB"];
     pathsByCd := [("E54000008"%string, 0%nat)] |}.

Definition twinHandle : MapHandle :=
  {| shapes := [drawnPath "E54000008" "E54000008";
                drawnPath "E54000008" "E54000008"];
     pathsByCd := [("E54000008"%string, 1%nat)] |}.

(** The series of the design document: one year, 100 referrals, 80
    accessed. *)
Definition oneYear : list Period :=
  [ {| period := "2021"; valueA := 100; valueB := 80 |} ].

(** A series whose greatest value is 0.43 million. *)
Definition peak043 : list Period :=
  [ {| period := "2023"; valueA := 430000; valueB := 380000 |} ].

(** A period whose referrals are zero and whose accessed count is [null]. *)
Definition zeroAndNull : list Referrals.row :=
  [ {| Referrals.year := "2021";
       Referrals.referrals := VNum (Fin 0);
       Referrals.accessed := VNull |} ].

(** A period whose referrals are infinite. *)
Definition infiniteReferrals : list Referrals.row :=
  [ {| Referrals.year := "2021";
       Referrals.referrals := VNum PInf;
       Referrals.accessed := VNum (Fin 80) |} ].

(** A period whose referrals are missing. *)
Definition missingReferrals : list Referrals.row :=
  [ {| Referrals.year := "2021";
       Referrals.referrals := VUndef;
       Referrals.accessed := VNum (Fin 80) |} ].

(** ** The rest of the application: clamping, the scenario model, the
    localised series and the slide navigation *)

(** [clamp(v, min, max)] *)
Definition clamp (v min max : num) : num := Num.max min (Num.min max v).

(** [a === b] on numbers *)
Definition sameNumber (a b : num) : bool :=
  match a, b with
  | Fin x, Fin y => Reqb x y
  | PInf, PInf | NInf, NInf => true
  | _, _ => false
  end.

(** [Number.isNaN(v)]: true on the number [NaN] only. *)
Definition isNaNValue (v : value) : bool :=
  match v with VNum NaN => true | _ => false end.

(** [v == null] *)
Definition isNullish (v : value) : bool :=
  match v with VUndef | VNull => true | _ => false end.

(** *** The tabular data *)

Module Icb.

(** One row of [data.icbs]. *)
Record t : Type := {
  icb_name : string;
  icb23cd : string;
  annualised_referrals : value;
  annualised_accessing_services : value;
  median_wait_access_days : value;
  recovery_rate : value;
  mean_sessions_per_course : value
}.

End Icb.

Module Model.

(** [data.defaults] with the current adoption. *)
Record t : Type := {
  beam_adoption : value;
  talking_therapies_cost_per_patient : value;
  beam_device_cost : value;
  avg_appointments_per_patient : value;
  clinical_hours_per_wte_per_year : value;
  wait_time_elasticity : value
}.

End Model.

(** *** [computeScenario] *)

Record Scenario : Type := {
  switched : num;
  baselineSpend : num;
  saving : num;
  appointmentsFreed : num;
  wteReleased : num;
  baselineWait : value;
  waitAfter : num;
  waitReduction : num
}.

Definition computeScenario (icb : Icb.t) (model : Model.t) : Scenario :=
  let referrals := Icb.annualised_referrals icb in
  let adoption := Model.beam_adoption model in
  let therapyCost := Model.talking_therapies_cost_per_patient model in
  let deviceCost := Model.beam_device_cost model in
  let apptsPerPatient := Model.avg_appointments_per_patient model in
  let hoursPerWte := Model.clinical_hours_per_wte_per_year model in
  let waitElasticity := Model.wait_time_elasticity model in
  let switched := (toNumber referrals * toNumber adoption)%num in
  let baselineSpend := (toNumber referrals * toNumber therapyCost)%num in
  let saving := (switched * (toNumber therapyCost - toNumber deviceCost))%num in
  let appointmentsFreed := (switched * toNumber apptsPerPatient)%num in
  let wteReleased := (appointmentsFreed / toNumber hoursPerWte)%num in
  let baselineWait := Icb.median_wait_access_days icb in
  let waitAfter :=
    (toNumber baselineWait
     * (1 - toNumber adoption * toNumber waitElasticity))%num in
  let waitAfterClamped := Num.max 0 waitAfter in
  let waitReduction := (toNumber baselineWait - waitAfterClamped)%num in
  {| switched := switched;
     baselineSpend := baselineSpend;
     saving := saving;
     appointmentsFreed := appointmentsFreed;
     wteReleased := wteReleased;
     baselineWait := baselineWait;
     waitAfter := waitAfterClamped;
     waitReduction := waitReduction |}.

(** The [model] that [updateSlide3] builds: the defaults of the data with
    the current adoption. *)
Definition scenarioModel (defaults : Model.t) (adoption : value) : Model.t :=
  {| Model.beam_adoption := adoption;
     Model.talking_therapies_cost_per_patient :=
       Model.talking_therapies_cost_per_patient defaults;
     Model.beam_device_cost := Model.beam_device_cost defaults;
     Model.avg_appointments_per_patient :=
       Model.avg_appointments_per_patient defaults;
     Model.clinical_hours_per_wte_per_year :=
       Model.clinical_hours_per_wte_per_year defaults;
     Model.wait_time_elasticity := Model.wait_time_elasticity defaults |}.

(** The scenario of [updateSlide3] at the adoption [x]. *)
Definition scenarioAt (icb : Icb.t) (defaults : Model.t) (x : R) : Scenario :=
  computeScenario icb (scenarioModel defaults (VNum (Fin x))).

(** *** [localiseSeries] *)

(** [nationalSeries[nationalSeries.length - 1]] *)
Definition lastRow (nationalSeries : list Referrals.row)
  : option Referrals.row :=
  nth_error nationalSeries (List.length nationalSeries - 1).

(** [(icbValue != null && lastValue) ? icbValue / lastValue : 0], where
    [icbValue] is [undefined] for a missing ICB and [lastValue] for an empty
    series. *)
Definition share (icbValue lastValue : value) : num :=
  if negb (isNullish icbValue) && truthy lastValue
  then (toNumber icbValue / toNumber lastValue)%num
  else Fin 0.

Definition fieldOf {A : Type} (field : A -> value) (o : option A) : value :=
  match o with
  | Some x => field x
  | None => VUndef
  end.

Definition localiseSeries (nationalSeries : list Referrals.row)
    (icb : option Icb.t) : list Referrals.row :=
  let last := lastRow nationalSeries in
  let shareRef :=
    share (fieldOf Icb.annualised_referrals icb)
          (fieldOf Referrals.referrals last) in
  let shareAcc :=
    share (fieldOf Icb.annualised_accessing_services icb)
          (fieldOf Referrals.accessed last) in
  map (fun d =>
         {| Referrals.year := Referrals.year d;
            Referrals.referrals :=
              VNum (toNumber (Referrals.referrals d) * shareRef)%num;
            Referrals.accessed :=
              VNum (toNumber (Referrals.accessed d) * shareAcc)%num |})
      nationalSeries.

(** A figure of the data that is a finite number, or is missing. *)
Definition figure (v : value) : Prop :=
  v = VNull \/ v = VUndef \/ exists r : R, v = VNum (Fin r).

(** A period of the data model with its two values multiplied. *)
Definition scalePeriod (f g : R) (p : Period) : Period :=
  {| period := period p; valueA := valueA p * f; valueB := valueB p * g |}.

(** *** The local sessions trend of [updateSlide6] *)





(** *** Slide navigation *)

Definition slideCount : nat := 16.

(** [x || 1] on a number *)
Definition orOne (x : num) : num :=
  match x with
  | Fin r => if Reqb r 0 then Fin 1 else x
  | NaN => Fin 1
  | _ => x
  end.

(** What [setActiveSlide] leaves: [state.activeSlide] and, for each of the
    slides 1 to [slideCount] (all present in the page), whether it carries
    the class [hidden]. *)
Record SlideView : Type := {
  activeSlide : num;
  hiddenSlides : list bool
}.

(** [setActiveSlide(n)]; [n] stands for the number that [Number(n)]
    gives. *)
Definition setActiveSlide (n : num) : SlideView :=
  let idx := clamp (orOne n) (Fin 1) (ofNat slideCount) in
  {| activeSlide := idx;
     hiddenSlides :=
       map (fun i => negb (sameNumber (ofNat i) idx)) (seq 1 slideCount) |}.

(** *** The adoption setting *)

(** A share between 0 and 1, as a number. *)
Definition isFraction (v : value) : Prop :=
  exists r : R, v = VNum (Fin r) /\ 0 <= r <= 1.

(** The [state.adoption] that [boot] starts from.  [stored] is the number
    that [Number(storedAdoption)] gives, [None] when nothing is stored;
    [default] is [data.defaults.beam_adoption]. *)
Definition bootAdoption (stored : option num) (default : value) : value :=
  match stored with
  | Some NaN | None => default
  | Some n => VNum (clamp n 0 1)
  end.

(** The [onChange] handler of the adoption input: the new
    [state.adoption], from the number [raw] that [Number(input.value)] gives
    and the adoption so far. *)
Definition onChange (raw : num) (adoption : value) : value :=
  match raw with
  | NaN => adoption
  | _ => VNum (clamp raw 0 100 / 100)%num
  end.

Section AppText.

Context {host : Host}.

(** The text that the handler writes back into the input when [raw] is a
    number. *)
Definition adoptionText (raw : num) : string :=
  numberToString (Num.round (clamp raw 0 100)).

(** [formatPercent(p)] *)
Definition formatPercent (p : value) : string :=
  if isNullish p || isNaNValue p then "—"
  else numberToString (Num.round (toNumber p * 100)%num) ++ "%".

End AppText.

(** *** Reading a drawing *)

(** A rectangle with its corner at [(x, y)], its size and its colour. *)
Definition isRect (e : element) (x y w h : R) (color : string) : Prop :=
  tagOf e = "rect"
  /\ getAttribute "x" e = Some (ANum (Fin x))
  /\ getAttribute "y" e = Some (ANum (Fin y))
  /\ getAttribute "width" e = Some (ANum (Fin w))
  /\ getAttribute "height" e = Some (ANum (Fin h))
  /\ getAttribute "fill" e = Some (AStr color).

(** ** When the bounds scan raises no exception *)

(** A ring that the scan can go through: an array of points that are
    arrays. *)
Definition ringScans (ring : value) : bool :=
  match ring with
  | VArr pts => forallb isArray pts
  | _ => false
  end.

Definition polygonScans (coords : value) : bool :=
  match coords with
  | VArr rings => forallb ringScans rings
  | _ => false
  end.

(** The fallback walker: an array that starts with two numbers is a
    position, any other array is walked item by item. *)
Fixpoint walks (arr : value) : bool :=
  match arr with
  | VArr l =>
      if isNumber (nth 0 l VUndef) && isNumber (nth 1 l VUndef) then true
      else forallb walks l
  | _ => false
  end.

Definition scans (geom : option Geometry) : bool :=
  match geom with
  | None => true
  | Some g =>
      if typeIs (type g) "Polygon" then polygonScans (coordinates g)
      else if typeIs (type g) "MultiPolygon" then
        match coordinates g with
        | VArr polygons => forallb polygonScans polygons
        | _ => false
        end
      else
        match coordinates g with
        | VArr _ => walks (coordinates g)
        | _ => true
        end
  end.

(** The tooltip of a path: the text of its [title] child. *)
Definition textOf (e : element) : string := let 'El _ _ x _ := e in x.
Definition childrenOf (e : element) : list element :=
  let 'El _ _ _ c := e in c.

Definition tooltip (path : element) : list string :=
  map textOf (childrenOf path).

(** The name that [renderMap] shows for a feature:
    [icb_name_short || icb23nm || cd || 'ICB']. *)
Definition nameOf (feat : Feature) : string :=
  orText (orElse (orElse (prop icb_name_short feat) (prop icb23nm feat))
                 (prop icb23cd feat)) "ICB".


(** ** Geometries of the other types

    The coordinates of a point, a line or a collection of them: positions
    nested in arrays to any depth. *)
#[local] Set Warnings "-register-all".
Inductive Nest : Type :=
| Position (p : LonLat)
| Nested (items : list Nest).

Fixpoint nestValue (n : Nest) : value :=
  match n with
  | Position p => pointValue p
  | Nested items => VArr (map nestValue items)
  end.

(** The positions of a nest, in order. *)
Fixpoint positions (n : Nest) : list LonLat :=
  match n with
  | Position p => [p]
  | Nested items => flat_map positions items
  end.

(** ** Selecting an ICB *)

(** [getIcbByName(name)] and [getIcbByCd(cd)] over [state.data.icbs] *)
Definition getIcbByName (icbs : list Icb.t) (name : string) : option Icb.t :=
  find (fun i => String.eqb (Icb.icb_name i) name) icbs.

Definition getIcbByCd (icbs : list Icb.t) (cd : string) : option Icb.t :=
  find (fun i => String.eqb (Icb.icb23cd i) cd) icbs.

(** The part of [state] that a selection touches. *)
Record Selection : Type := {
  selectedIcbName : string;
  mapApi : MapHandle
}.

(** What [updateAll] does to the selection state.  It returns at once
    when no ICB has the selected name.  Between finding the ICB and
    highlighting it on the map it updates the slides, which touch neither
    the selected name nor the map but can end the call early (a figure that
    is not a number has no [toFixed]); [slidesReturn icb] tells whether they
    return for that ICB. *)
Definition updateAll (slidesReturn : Icb.t -> bool) (icbs : list Icb.t)
    (st : Selection) : Selection :=
  match getIcbByName icbs (selectedIcbName st) with
  | Some icb =>
      if slidesReturn icb
      then {| selectedIcbName := selectedIcbName st;
              mapApi := setSelected (mapApi st) (Icb.icb23cd icb) |}
      else st
  | None => st
  end.

(** The [onPick] callback that [initMap] gives to [renderMap]. *)
Definition onPick (slidesReturn : Icb.t -> bool) (icbs : list Icb.t)
    (st : Selection) (cd : string) : Selection :=
  match getIcbByCd icbs cd with
  | Some icb =>
      updateAll slidesReturn icbs
        {| selectedIcbName := Icb.icb_name icb; mapApi := mapApi st |}
  | None => st
  end.

(** A click on the path at position [i] of the map: the path calls
    [onPick] with the code of its feature when it has one. *)
Definition pick (slidesReturn : Icb.t -> bool) (icbs : list Icb.t)
    (geo : FeatureCollection) (st : Selection) (i : nat) : Selection :=
  match nth_error (features geo) i with
  | Some feat =>
      if given (codeOf feat)
      then onPick slidesReturn icbs st (orText (codeOf feat) "")
      else st
  | None => st
  end.

(** The selections made one after the other on a handle. *)
Definition selectEach (h : MapHandle) (cds : list string) : MapHandle :=
  fold_left setSelected cds h.

(** The selection state once the map is drawn and the selections [cds]
    were made on it. *)
Definition selectionAfter (name : string) (h : MapHandle) (cds : list string)
  : Selection :=
  {| selectedIcbName := name; mapApi := selectEach h cds |}.

(** ** More sample data for the examples *)

(** An ICB with every figure given. *)
Definition sampleIcb : Icb.t :=
  {| Icb.icb_name := "NHS Greater Manchester ICB";
     Icb.icb23cd := "E54000008";
     Icb.annualised_referrals := VNum (Fin 100000);
     Icb.annualised_accessing_services := VNum (Fin 70000);
     Icb.median_wait_access_days := VNum (Fin 20);
     Icb.recovery_rate := VNum (Fin 0.5);
     Icb.mean_sessions_per_course := VNum (Fin 9) |}.

(** Defaults of the model, with an adoption of 20 percent. *)
Definition sampleDefaults : Model.t :=
  {| Model.beam_adoption := VNum (Fin 0.2);
     Model.talking_therapies_cost_per_patient := VNum (Fin 1000);
     Model.beam_device_cost := VNum (Fin 200);
     Model.avg_appointments_per_patient := VNum (Fin 8);
     Model.clinical_hours_per_wte_per_year := VNum (Fin 1500);
     Model.wait_time_elasticity := VNum (Fin 0.5) |}.

(** A national series of two years. *)
Definition year2022 : Period :=
  {| period := "2022/23"; valueA := 1000000; valueB := 800000 |}.
Definition year2023 : Period :=
  {| period := "2023/24"; valueA := 2000000; valueB := 1000000 |}.

(** A point beyond the north pole, and a line from one corner to the
    other. *)
Definition beyondPole : LonLat := {| lon := 0; lat := 100 |}.
Definition cornerLine : Nest := Nested [Position cornerA; Position cornerB].

(** The projection that changes nothing. *)
Definition unitProjection : Projection :=
  {| scale := Fin 1; tx := Fin 0; ty := Fin 0 |}.


(** Two points far east and a fraction of a nanometre apart, and the ring
    that goes from one to the other and back. *)
Definition nearA : LonLat := {| lon := 170; lat := 0 |}.
Definition nearB : LonLat :=
  {| lon := 170.00000000000026; lat := 0.0000000000000127 |}.
Definition tinyRing : list Region :=
  [ {| identity := None; shape := Polygon [[nearA; nearB; nearA]] |} ].
(** * Properties *)

(** ** Deciding comparisons of reals *)

Lemma Rltb_true (x y : R) : x < y -> Rltb x y = true.
Proof. intros H. unfold Rltb. destruct (Rlt_dec x y); [reflexivity | contradiction]. Qed.

Lemma Rltb_false (x y : R) : y <= x -> Rltb x y = false.
Proof. intros H. unfold Rltb. destruct (Rlt_dec x y); [lra | reflexivity]. Qed.

Lemma Rleb_true (x y : R) : x <= y -> Rleb x y = true.
Proof. intros H. unfold Rleb. destruct (Rle_dec x y); [reflexivity | contradiction]. Qed.

Lemma Rleb_false (x y : R) : y < x -> Rleb x y = false.
Proof. intros H. unfold Rleb. destruct (Rle_dec x y); [lra | reflexivity]. Qed.

Lemma Reqb_true (x y : R) : x = y -> Reqb x y = true.
Proof. intros H. unfold Reqb. destruct (Req_dec_T x y); [reflexivity | contradiction]. Qed.

Lemma Reqb_false (x y : R) : x <> y -> Reqb x y = false.
Proof. intros H. unfold Reqb. destruct (Req_dec_T x y); [contradiction | reflexivity]. Qed.

Lemma Rltb_spec (x y : R) : Rltb x y = true <-> x < y.
Proof. unfold Rltb. destruct (Rlt_dec x y); split; intros; try easy. Qed.

Lemma Rleb_spec (x y : R) : Rleb x y = true <-> x <= y.
Proof. unfold Rleb. destruct (Rle_dec x y); split; intros; try easy. Qed.

Lemma Reqb_spec (x y : R) : Reqb x y = true <-> x = y.
Proof. unfold Reqb. destruct (Req_dec_T x y); split; intros; try easy. Qed.

(** Settle the comparisons of the goal whose outcome [lra] can decide. *)
Ltac decide_R :=
  repeat match goal with
  | |- context [Rltb ?x ?y] =>
      first [ rewrite (@Rltb_true x y) by lra | rewrite (@Rltb_false x y) by lra ]
  | |- context [Rleb ?x ?y] =>
      first [ rewrite (@Rleb_true x y) by lra | rewrite (@Rleb_false x y) by lra ]
  | |- context [Reqb ?x ?y] =>
      first [ rewrite (@Reqb_true x y) by lra | rewrite (@Reqb_false x y) by lra ]
  end.

(** Split on the comparisons that remain. *)
Ltac split_R :=
  repeat match goal with
  | |- context [Rltb ?x ?y] =>
      let H := fresh "H" in
      destruct (Rlt_dec x y) as [H | H];
      [ rewrite (@Rltb_true x y H) | rewrite (@Rltb_false x y) by lra ]
  | |- context [Rleb ?x ?y] =>
      let H := fresh "H" in
      destruct (Rle_dec x y) as [H | H];
      [ rewrite (@Rleb_true x y H) | rewrite (@Rleb_false x y) by lra ]
  | |- context [Reqb ?x ?y] =>
      let H := fresh "H" in
      destruct (Req_dec_T x y) as [H | H];
      [ rewrite (@Reqb_true x y H) | rewrite (@Reqb_false x y H) ]
  end.

(** Evaluate the arithmetic of the goal as far as its operands are known. *)
Ltac num_eval :=
  repeat progress
    (cbn [Num.add Num.sub Num.neg Num.mul Num.div Num.min Num.max Num.le
          Num.lt Num.gt Num.tan Num.log Num.ceil Num.signedInf Num.infTimes
          Num.isFinite negb toNumber];
     unfold Num.infTimes;
     decide_R).

(** ** Coordinate projector *)

(** The angle whose tangent the projector takes stays inside the first
    quadrant for a latitude strictly between the poles. *)
Lemma mercator_angle (lat : R) :
  -90 < lat < 90 ->
  0 < PI / 4 + lat * PI / 180 / 2 < PI / 2.
Proof.
  intros [Hlo Hhi]. pose proof PI_RGT_0 as Hpi. split; nra.
Qed.

Lemma mercator_tan_pos (lat : R) :
  -90 < lat < 90 -> 0 < tan (PI / 4 + lat * PI / 180 / 2).
Proof.
  intros H. destruct (mercator_angle lat H) as [H1 H2]. now apply tan_gt_0.
Qed.

Lemma mercatorProject_value (lon lat : R) :
  -90 < lat < 90 ->
  mercatorProject (VNum (Fin lon)) (VNum (Fin lat))
  = (Fin (lon * PI / 180), Fin (ln (tan (PI / 4 + lat * PI / 180 / 2)))).
Proof.
  intros Hlat. pose proof (mercator_tan_pos lat Hlat) as Htan.
  unfold mercatorProject. num_eval. reflexivity.
Qed.

(** C3: for a longitude and a latitude in degrees, the latitude strictly
    between -90 and 90, [mercatorProject] returns the longitude in radians
    and the logarithm of the tangent of pi/4 plus half the latitude in
    radians; both are finite.  (The projector is a function of its two
    arguments: it reads and writes nothing else.) *)
Theorem mercatorProject_formula (lon lat : R) :
  -90 < lat < 90 ->
  mercatorProject (VNum (Fin lon)) (VNum (Fin lat))
  = (Fin (lon * PI / 180), Fin (ln (tan (PI / 4 + lat * PI / 180 / 2))))
  /\ Num.isFinite (fst (mercatorProject (VNum (Fin lon)) (VNum (Fin lat)))) = true
  /\ Num.isFinite (snd (mercatorProject (VNum (Fin lon)) (VNum (Fin lat)))) = true.
Proof.
  intros Hlat. rewrite (mercatorProject_value lon lat Hlat). cbn. auto.
Qed.

(** ** Rounding *)

Lemma Rabs_le_inv (x y : R) : Rabs x <= y -> - y <= x <= y.
Proof.
  intros H. pose proof (Rle_abs x). pose proof (Rle_abs (- x)) as Hn.
  rewrite Rabs_Ropp in Hn. lra.
Qed.

Lemma nearestEven_error (r : R) : Rabs (IZR (nearestEven r) - r) <= / 2.
Proof.
  unfold nearestEven. pose proof (Zfloor_bound r) as [Hlo Hhi].
  set (f := Zfloor r) in *.
  destruct (Rlt_dec (r - IZR f) (/ 2)) as [Hd | Hd].
  - rewrite (Rltb_true _ _ Hd). apply Rabs_le. lra.
  - rewrite Rltb_false by lra.
    destruct (Rlt_dec (/ 2) (r - IZR f)) as [Hu | Hu].
    + rewrite (Rltb_true _ _ Hu). rewrite plus_IZR. apply Rabs_le. lra.
    + rewrite Rltb_false by lra.
      destruct (Z.even f); [| rewrite plus_IZR]; apply Rabs_le; lra.
Qed.

(** A number less than half a unit away from an integer rounds to it. *)
Lemma nearestEven_near (n : Z) (d : R) :
  - / 2 < d < / 2 -> nearestEven (IZR n + d) = n.
Proof.
  intros Hd. unfold nearestEven.
  destruct (Rle_dec 0 d) as [Hpos | Hneg].
  - assert (Ef : Zfloor (IZR n + d) = n) by (apply Zfloor_eq; lra).
    rewrite Ef. rewrite Rltb_true by lra. reflexivity.
  - assert (Ef : Zfloor (IZR n + d) = (n - 1)%Z).
    { apply Zfloor_eq. rewrite minus_IZR. lra. }
    rewrite Ef, minus_IZR. rewrite Rltb_false by lra.
    rewrite Rltb_true by lra. lia.
Qed.

Lemma nearestEven_opp (r : R) : nearestEven (- r) = (- nearestEven r)%Z.
Proof.
  pose proof (Zfloor_bound r) as [Hlo Hhi].
  destruct (Req_dec_T r (IZR (Zfloor r))) as [Hint | Hfrac].
  - rewrite Hint, <- opp_IZR.
    replace (IZR (- Zfloor r)) with (IZR (- Zfloor r) + 0) by ring.
    rewrite nearestEven_near by lra.
    replace (IZR (Zfloor r)) with (IZR (Zfloor r) + 0) by ring.
    rewrite nearestEven_near by lra. reflexivity.
  - assert (Ef : Zfloor (- r) = (- Zfloor r - 1)%Z).
    { apply Zfloor_eq. rewrite minus_IZR, opp_IZR. lra. }
    unfold nearestEven. rewrite Ef, minus_IZR, opp_IZR.
    set (f := Zfloor r) in *.
    destruct (Rlt_dec (r - IZR f) (/ 2)) as [Hd | Hd].
    + rewrite (Rltb_true (r - IZR f)) by exact Hd.
      rewrite (Rltb_false (- r - (- IZR f - 1))) by lra.
      rewrite Rltb_true by lra. lia.
    + rewrite (Rltb_false (r - IZR f)) by lra.
      destruct (Rlt_dec (/ 2) (r - IZR f)) as [Hu | Hu].
      * rewrite (Rltb_true _ (r - IZR f)) by exact Hu.
        rewrite Rltb_true by lra. lia.
      * rewrite (Rltb_false _ (r - IZR f)) by lra.
        rewrite (Rltb_false (- r - (- IZR f - 1))) by lra.
        rewrite Rltb_false by lra.
        replace (- f - 1)%Z with (- (f + 1))%Z by lia.
        rewrite Z.even_opp, Z.even_add. cbn [Z.even].
        destruct (Z.even f); cbn; lia.
Qed.

Lemma ln_2_pos : 0 < ln 2.
Proof. pose proof ln_lt_2. lra. Qed.

Lemma pow2_pos (k : Z) : 0 < powerRZ 2 k.
Proof. apply powerRZ_lt. lra. Qed.

Lemma pow2_exp (k : Z) : powerRZ 2 k = exp (IZR k * ln 2).
Proof. rewrite powerRZ_Rpower by lra. reflexivity. Qed.

Lemma pow2_succ (k : Z) : powerRZ 2 (k + 1) = 2 * powerRZ 2 k.
Proof. rewrite powerRZ_add by lra. rewrite powerRZ_1. ring. Qed.

Lemma pow2_le (j k : Z) : (j <= k)%Z -> powerRZ 2 j <= powerRZ 2 k.
Proof.
  intros H. rewrite !pow2_exp.
  destruct (Z.eq_dec j k) as [-> | Hne]; [lra |].
  left. apply exp_increasing. pose proof ln_2_pos.
  assert (IZR j < IZR k) by (apply IZR_lt; lia). nra.
Qed.

(** A number other than 0 lies in the binade of its exponent. *)
Lemma exponent_bounds (x : R) :
  x <> 0 ->
  powerRZ 2 (exponent x) <= Rabs x < powerRZ 2 (exponent x + 1).
Proof.
  intros Hx. assert (Ha : 0 < Rabs x) by now apply Rabs_pos_lt.
  unfold exponent. pose proof ln_2_pos as H2.
  pose proof (Zfloor_bound (ln (Rabs x) / ln 2)) as [Hlo Hhi].
  set (e := Zfloor (ln (Rabs x) / ln 2)) in *.
  assert (El : ln (Rabs x) / ln 2 * ln 2 = ln (Rabs x)) by (field; lra).
  rewrite !pow2_exp, plus_IZR. pose proof (exp_ln (Rabs x) Ha) as Ex.
  split.
  - rewrite <- Ex at 1.
    destruct (Req_dec_T (IZR e * ln 2) (ln (Rabs x))) as [-> | Hne]; [lra |].
    left. apply exp_increasing. nra.
  - rewrite <- Ex at 1. apply exp_increasing. nra.
Qed.

Lemma exponent_unique (x : R) (k : Z) :
  powerRZ 2 k <= Rabs x < powerRZ 2 (k + 1) -> exponent x = k.
Proof.
  intros [Hlo Hhi]. pose proof (pow2_pos k) as Hk.
  assert (Hx : x <> 0).
  { intros ->. rewrite Rabs_R0 in Hlo. lra. }
  destruct (exponent_bounds x Hx) as [Hlo' Hhi'].
  destruct (Z_lt_le_dec (exponent x) k) as [Hlt | Hge].
  - pose proof (pow2_le (exponent x + 1) k ltac:(lia)). lra.
  - destruct (Z_lt_le_dec k (exponent x)) as [Hgt | Hle]; [| lia].
    pose proof (pow2_le (k + 1) (exponent x) ltac:(lia)). lra.
Qed.

Lemma exponent_opp (x : R) : exponent (- x) = exponent x.
Proof. unfold exponent. now rewrite Rabs_Ropp. Qed.

Lemma ulp_pos (x : R) : 0 < ulp x.
Proof. apply pow2_pos. Qed.

Lemma round64_0 : round64 0 = 0.
Proof. unfold round64. now rewrite Reqb_true. Qed.

Lemma round64_opp (x : R) : round64 (- x) = - round64 x.
Proof.
  unfold round64. destruct (Req_dec_T x 0) as [-> | Hx].
  - rewrite Ropp_0, Reqb_true by reflexivity. ring.
  - rewrite !Reqb_false by lra. unfold ulp. rewrite exponent_opp.
    replace (- x / powerRZ 2 (exponent x - 52))
      with (- (x / powerRZ 2 (exponent x - 52))) by (unfold Rdiv; ring).
    rewrite nearestEven_opp, opp_IZR. ring.
Qed.

(** In the binade of [2^k] the binary64 numbers are the multiples of
    [2^(k - 52)]. *)
Lemma round64_binade (x : R) (k : Z) :
  powerRZ 2 k <= Rabs x < powerRZ 2 (k + 1) ->
  round64 x
  = IZR (nearestEven (x / powerRZ 2 (k - 52))) * powerRZ 2 (k - 52).
Proof.
  intros Hb. pose proof (pow2_pos k) as Hk.
  unfold round64, ulp. rewrite (exponent_unique x k Hb).
  rewrite Reqb_false; [reflexivity |].
  intros ->. rewrite Rabs_R0 in Hb. lra.
Qed.

Lemma unit64_value : unit64 = / 9007199254740992.
Proof.
  unfold unit64, powerRZ. f_equal. rewrite pow_IZR. f_equal.
Qed.

Lemma unit64_small : 0 < unit64 <= / 1000000000000000.
Proof.
  rewrite unit64_value. split.
  - apply Rinv_0_lt_compat. lra.
  - apply Rinv_le_contravar; lra.
Qed.

(** The relative error of one rounding is at most the unit roundoff. *)
Lemma round64_error (x : R) : Rabs (round64 x - x) <= unit64 * Rabs x.
Proof.
  destruct (Req_dec_T x 0) as [-> | Hx].
  - rewrite round64_0, Rminus_0_r, Rabs_R0. lra.
  - destruct (exponent_bounds x Hx) as [Hlo _].
    unfold round64. rewrite Reqb_false by exact Hx.
    pose proof (ulp_pos x) as Hq.
    pose proof (nearestEven_error (x / ulp x)) as Hn.
    replace (IZR (nearestEven (x / ulp x)) * ulp x - x)
      with ((IZR (nearestEven (x / ulp x)) - x / ulp x) * ulp x)
      by (field; lra).
    rewrite Rabs_mult, (Rabs_pos_eq (ulp x)) by lra.
    assert (Eu : ulp x = 2 * unit64 * powerRZ 2 (exponent x)).
    { unfold ulp, unit64.
      replace (exponent x - 52)%Z with ((- 53 + exponent x) + 1)%Z by lia.
      rewrite pow2_succ, powerRZ_add by lra. ring. }
    pose proof (proj1 unit64_small) as Hu.
    pose proof (pow2_pos (exponent x)) as Hp.
    set (d := Rabs (IZR (nearestEven (x / ulp x)) - x / ulp x)) in *.
    rewrite Eu.
    apply Rle_trans with (/ 2 * (2 * unit64 * powerRZ 2 (exponent x))).
    + apply Rmult_le_compat_r; [nra | exact Hn].
    + nra.
Qed.

Lemma round64_within (x B : R) :
  Rabs x <= B -> Rabs (round64 x - x) <= unit64 * B.
Proof.
  intros HB. pose proof (round64_error x) as He.
  pose proof (proj1 unit64_small) as Hu. nra.
Qed.

(** Rounding keeps the sign. *)
Lemma round64_pos (x : R) : 0 < x -> 0 < round64 x.
Proof.
  intros Hx. pose proof (round64_error x) as He.
  rewrite (Rabs_pos_eq x) in He by lra.
  apply Rabs_le_inv in He. pose proof unit64_small as [Hu Hu']. nra.
Qed.

(** *** Relative errors *)

Lemma near_round64 (a : R) : near unit64 (round64 a) a.
Proof. apply round64_error. Qed.

Lemma near_weaken (e e' a' a : R) : near e a' a -> e <= e' -> near e' a' a.
Proof.
  unfold near. intros H He. pose proof (Rabs_pos a).
  apply Rle_trans with (e * Rabs a); [exact H | nra].
Qed.

Lemma near_abs (e a' a : R) : near e a' a -> Rabs a' <= (1 + e) * Rabs a.
Proof.
  unfold near. intros H.
  replace a' with ((a' - a) + a) by ring.
  eapply Rle_trans; [apply Rabs_triang |]. lra.
Qed.

Lemma near_round (e a' a : R) :
  0 <= e -> near e a' a -> near (e + unit64 * (1 + e)) (round64 a') a.
Proof.
  intros He H. pose proof (near_abs _ _ _ H) as Ha. unfold near in *.
  pose proof (round64_within a' _ Ha) as Hr.
  replace (round64 a' - a) with ((round64 a' - a') + (a' - a)) by ring.
  eapply Rle_trans; [apply Rabs_triang |]. lra.
Qed.

Lemma near_mul (e1 e2 a' a b' b : R) :
  near e1 a' a -> near e2 b' b ->
  near (e1 + e2 + e1 * e2) (a' * b') (a * b).
Proof.
  unfold near. intros Ha Hb.
  replace (a' * b' - a * b)
    with ((a' - a) * b + a * (b' - b) + (a' - a) * (b' - b)) by ring.
  eapply Rle_trans; [apply Rabs_triang |].
  eapply Rle_trans; [apply Rplus_le_compat_r; apply Rabs_triang |].
  rewrite !Rabs_mult.
  pose proof (Rabs_pos a). pose proof (Rabs_pos b).
  pose proof (Rabs_pos (a' - a)). pose proof (Rabs_pos (b' - b)).
  assert (Rabs (a' - a) * Rabs (b' - b) <= e1 * Rabs a * (e2 * Rabs b))
    by (apply Rmult_le_compat; assumption).
  assert (Rabs (a' - a) * Rabs b <= e1 * Rabs a * Rabs b)
    by (apply Rmult_le_compat_r; assumption).
  assert (Rabs a * Rabs (b' - b) <= Rabs a * (e2 * Rabs b))
    by (apply Rmult_le_compat_l; assumption).
  lra.
Qed.

(** A quotient by a divisor that is known up to [e]. *)
Lemma near_div (e w b' b : R) :
  0 < b -> 0 <= e <= / 2 -> near e b' b ->
  near (2 * e) (w / b') (w / b).
Proof.
  unfold near. intros Hb He H. rewrite (Rabs_pos_eq b) in H by lra.
  apply Rabs_le_inv in H.
  assert (Hb' : b / 2 <= b') by nra.
  assert (Hb'pos : 0 < b') by lra.
  replace (w / b' - w / b) with (w / b * ((b - b') / b')) by (field; lra).
  rewrite Rabs_mult, Rmult_comm. apply Rmult_le_compat_r; [apply Rabs_pos |].
  unfold Rdiv. rewrite Rabs_mult, (Rabs_pos_eq (/ b'))
    by (left; now apply Rinv_0_lt_compat).
  assert (Hd : Rabs (b - b') <= e * b) by (apply Rabs_le; lra).
  apply Rmult_le_reg_r with b'; [exact Hb'pos |].
  rewrite Rmult_assoc, Rinv_l by lra. nra.
Qed.

Lemma near_min (e a' a b' b : R) :
  0 < a -> 0 < b -> 0 <= e <= 1 ->
  near e a' a -> near e b' b -> near e (Rmin a' b') (Rmin a b).
Proof.
  unfold near. intros Ha Hb He Ha' Hb'.
  rewrite (Rabs_pos_eq a) in Ha' by lra. rewrite (Rabs_pos_eq b) in Hb' by lra.
  apply Rabs_le_inv in Ha'. apply Rabs_le_inv in Hb'.
  assert (Hm : 0 < Rmin a b) by (apply Rmin_glb_lt; assumption).
  rewrite (Rabs_pos_eq (Rmin a b)) by lra. apply Rabs_le.
  unfold Rmin in *.
  destruct (Rle_dec a' b'), (Rle_dec a b); nra.
Qed.

(** Evaluate rounded arithmetic as far as its operands are known. *)
Ltac fp_eval :=
  unfold Float.add, Float.sub, Float.mul, Float.div;
  repeat progress
    (num_eval; cbn [Float.fl];
     rewrite ?round64_0, ?Rmult_0_r, ?Rmult_0_l).

(** ** Bounds fitter *)

Lemma mercatorProject_point (p : LonLat) :
  -90 < lat p < 90 ->
  mercatorProject (VNum (Fin (lon p))) (VNum (Fin (lat p)))
  = (Fin (planarX p), Fin (planarY p)).
Proof. intros H. exact (mercatorProject_value (lon p) (lat p) H). Qed.

Lemma trackPoint_point (p : LonLat) (b : Bounds) :
  -90 < lat p < 90 -> trackPoint (pointValue p) b = Ok (widen p b).
Proof.
  intros H. unfold trackPoint, pointValue, destructure2, bind.
  cbn [nth]. rewrite (mercatorProject_point p H). reflexivity.
Qed.

Lemma validPoints_cons (p : LonLat) (pts : list LonLat) :
  validPoints (p :: pts) -> -90 < lat p < 90 /\ validPoints pts.
Proof.
  intros H. split; [apply H; now left | intros q Hq; apply H; now right].
Qed.

Lemma validPoints_app (l1 l2 : list LonLat) :
  validPoints (l1 ++ l2) -> validPoints l1 /\ validPoints l2.
Proof.
  intros H. split; intros q Hq; apply H; apply in_or_app; auto.
Qed.

Lemma scan_ring (r : Ring) (b : Bounds) :
  validPoints r ->
  forOf (ringValue r) trackPoint b = Ok (fold_left (fun b p => widen p b) r b).
Proof.
  unfold ringValue, forOf. revert b.
  induction r as [|p r IH]; intros b Hv; cbn [map foldM fold_left].
  - reflexivity.
  - destruct (validPoints_cons _ _ Hv) as [Hp Hr].
    rewrite (trackPoint_point p b Hp). cbn [bind]. now apply IH.
Qed.

Lemma scan_polygon (rings : list Ring) (b : Bounds) :
  validPoints (List.concat rings) ->
  forOf (polygonValue rings) (fun ring => forOf ring trackPoint) b
  = Ok (fold_left (fun b p => widen p b) (List.concat rings) b).
Proof.
  unfold polygonValue, forOf at 1. revert b.
  induction rings as [|r rings IH]; intros b Hv; cbn [map foldM List.concat].
  - reflexivity.
  - destruct (validPoints_app _ _ Hv) as [Hr Hrest].
    rewrite (scan_ring r b Hr). cbn [bind].
    rewrite fold_left_app. now apply IH.
Qed.

Lemma scan_shape (s : Shape) (b : Bounds) :
  validPoints (shapePoints s) ->
  forEachCoord trackPoint (Some (shapeGeometry s)) b
  = Ok (fold_left (fun b p => widen p b) (shapePoints s) b).
Proof.
  destruct s as [rings | polygons]; intros Hv; cbn.
  - now apply scan_polygon.
  - revert b Hv. induction polygons as [|poly polygons IH]; intros b Hv.
    + reflexivity.
    + cbn [map foldM List.concat] in *.
      destruct (validPoints_app _ _ Hv) as [Hp Hrest].
      rewrite (scan_polygon poly b Hp). cbn [bind].
      rewrite fold_left_app. now apply IH.
Qed.

Lemma scan_regions (regions : list Region) (b : Bounds) :
  validPoints (allPoints regions) ->
  foldM (fun feat => forEachCoord trackPoint (geometry feat))
        (map regionFeature regions) b
  = Ok (fold_left (fun b p => widen p b) (allPoints regions) b).
Proof.
  revert b. induction regions as [|r regions IH]; intros b Hv.
  - reflexivity.
  - cbn [map foldM allPoints flat_map] in *.
    destruct (validPoints_app _ _ Hv) as [Hr Hrest].
    cbn [regionFeature geometry]. rewrite (scan_shape (shape r) b Hr).
    cbn [bind]. rewrite fold_left_app. now apply IH.
Qed.

(** The scan of a well-formed collection never throws. *)
Lemma scanBounds_collection (regions : list Region) :
  validPoints (allPoints regions) ->
  scanBounds (collection regions)
  = Ok (fold_left (fun b p => widen p b) (allPoints regions) noBounds).
Proof. intros Hv. unfold scanBounds, collection. cbn [features]. now apply scan_regions. Qed.

Lemma widen_box (p : LonLat) (pts : list LonLat) (b : Bounds) :
  boxOf pts b -> boxOf (p :: pts) (widen p b).
Proof.
  intros [-> | x0 y0 x1 y1 Hne Hin].
  - unfold widen, noBounds. cbn [minX minY maxX maxY Num.lt Num.gt].
    apply box_some; [discriminate |].
    intros q [<- | []]. lra.
  - unfold widen. cbn [minX minY maxX maxY Num.lt Num.gt].
    assert (Hq : forall mnx mny mxx mxy : R,
               mnx <= x0 -> mny <= y0 -> x1 <= mxx -> y1 <= mxy ->
               mnx <= planarX p <= mxx -> mny <= planarY p <= mxy ->
               boxOf (p :: pts)
                 {| minX := Fin mnx; minY := Fin mny;
                    maxX := Fin mxx; maxY := Fin mxy |}).
    { intros mnx mny mxx mxy H1 H2 H3 H4 H5 H6.
      apply box_some; [discriminate |].
      intros q [<- | Hq]; [lra |]. specialize (Hin q Hq). lra. }
    split_R; apply Hq; lra.
Qed.

Lemma fold_box (l seen : list LonLat) (b : Bounds) :
  boxOf seen b ->
  boxOf (rev l ++ seen) (fold_left (fun b p => widen p b) l b).
Proof.
  revert seen b. induction l as [|p l IH]; intros seen b Hb; cbn [fold_left rev].
  - exact Hb.
  - rewrite <- app_assoc. cbn [app]. apply IH. now apply widen_box.
Qed.

Lemma scan_box (pts : list LonLat) :
  boxOf pts (fold_left (fun b p => widen p b) pts noBounds).
Proof.
  pose proof (fold_box pts [] noBounds (box_none [] eq_refl)) as H.
  rewrite app_nil_r in H.
  destruct H as [Hnil | x0 y0 x1 y1 Hne Hin].
  - apply box_none. destruct pts as [|p pts]; [reflexivity |].
    cbn [rev] in Hnil. now destruct (rev pts).
  - apply box_some.
    + intros ->. now apply Hne.
    + intros p Hp. apply Hin. now apply -> in_rev.
Qed.

(** *** The rounding of the fit *)

(** Half of what the padded box leaves of the side [W]. *)
Lemma half_close (W Dx S s D : R) :
  0 < W -> 0 < Dx -> 0 < S -> Dx * S <= 0.96 * W ->
  near (8 * unit64) s S -> near unit64 D Dx ->
  Rabs (round64 (round64 (W - round64 (D * s)) / 2) - (W - Dx * S) / 2)
  <= 8 * (unit64 * W).
Proof.
  intros HW HDx HS HP Hs HD. pose proof unit64_small as [Hu Hu'].
  assert (HUW : 0 < unit64 * W) by nra.
  assert (HUW' : unit64 * W <= W / 1000) by nra.
  set (P := Dx * S) in *. assert (HP0 : 0 < P) by (unfold P; nra).
  pose proof (near_mul _ _ _ _ _ _ HD Hs) as Hds.
  apply (near_weaken _ (10 * unit64)) in Hds; [| nra].
  unfold near in Hds. fold P in Hds. rewrite (Rabs_pos_eq P) in Hds by lra.
  assert (Hds' : Rabs (D * s - P) <= 10 * (unit64 * W)) by nra.
  apply Rabs_le_inv in Hds'. set (ds := D * s) in *.
  assert (H1 : Rabs ds <= 2 * W) by (apply Rabs_le; lra).
  apply round64_within in H1. apply Rabs_le_inv in H1.
  set (mw := round64 ds) in *.
  assert (H2 : Rabs (W - mw) <= 2 * W) by (apply Rabs_le; lra).
  apply round64_within in H2. apply Rabs_le_inv in H2.
  set (w := round64 (W - mw)) in *.
  assert (H3 : Rabs (w / 2) <= W) by (apply Rabs_le; lra).
  apply round64_within in H3. apply Rabs_le_inv in H3.
  apply Rabs_le. lra.
Qed.

(** A coordinate times the scale. *)
Lemma scaled_close (M S s c : R) :
  0 < S -> near (8 * unit64) s S -> Rabs c <= M ->
  Rabs (round64 (c * s) - c * S) <= 10 * (unit64 * (M * S)).
Proof.
  intros HS Hs Hc. pose proof unit64_small as [Hu Hu'].
  pose proof (Rabs_pos c) as Hc0.
  assert (HA : 0 <= M * S) by nra.
  assert (HUA : 0 <= unit64 * (M * S)) by nra.
  assert (HUA' : unit64 * (M * S) <= M * S / 1000) by nra.
  unfold near in Hs. rewrite (Rabs_pos_eq S) in Hs by lra.
  assert (H1 : Rabs (c * s - c * S) <= 8 * (unit64 * (M * S))).
  { replace (c * s - c * S) with (c * (s - S)) by ring. rewrite Rabs_mult.
    apply Rle_trans with (M * (8 * unit64 * S)); [| lra].
    apply Rmult_le_compat; [assumption | apply Rabs_pos | assumption ..]. }
  assert (H2 : Rabs (c * S) <= M * S).
  { rewrite Rabs_mult, (Rabs_pos_eq S) by lra. nra. }
  apply Rabs_le_inv in H1. apply Rabs_le_inv in H2.
  assert (H3 : Rabs (c * s) <= 2 * (M * S)) by (apply Rabs_le; lra).
  apply round64_within in H3. apply Rabs_le_inv in H3.
  apply Rabs_le. lra.
Qed.

(** The pixel coordinate, from its three rounded parts. *)
Lemma pixel_close (W A T2 t2 P r k K : R) :
  0 < W -> 0 <= A -> 0 <= T2 <= W / 2 ->
  Rabs (t2 - T2) <= 8 * (unit64 * W) ->
  Rabs P <= A -> Rabs (r - P) <= 10 * (unit64 * A) ->
  Rabs K <= A -> Rabs (k - K) <= 10 * (unit64 * A) ->
  Rabs (round64 (r + round64 (t2 + k)) - (P + T2 + K))
  <= unit64 * (10 * W + 25 * A).
Proof.
  intros HW HA HT2 Ht2 HP Hr HK Hk. pose proof unit64_small as [Hu Hu'].
  assert (HUW : 0 < unit64 * W) by nra.
  assert (HUW' : unit64 * W <= W / 1000) by nra.
  assert (HUA : 0 <= unit64 * A) by nra.
  assert (HUA' : unit64 * A <= A / 1000) by nra.
  apply Rabs_le_inv in Ht2, HP, Hr, HK, Hk.
  assert (H1 : Rabs (t2 + k) <= W + 2 * A) by (apply Rabs_le; lra).
  apply round64_within in H1. apply Rabs_le_inv in H1.
  set (t := round64 (t2 + k)) in *.
  assert (H2 : Rabs (r + t) <= W + 3 * A) by (apply Rabs_le; lra).
  apply round64_within in H2. apply Rabs_le_inv in H2.
  apply Rabs_le. lra.
Qed.

(** The fit of a finite box of positive width and height into a canvas of
    width [W] and height [H]. *)
Section Fit.

Variables (W H x0 y0 x1 y1 : R).
Hypothesis HW : 0 < W.
Hypothesis HH : 0 < H.
Hypothesis Hdx : 0 < x1 - x0.
Hypothesis Hdy : 0 < y1 - y0.

Let box : Bounds :=
  {| minX := Fin x0; minY := Fin y0; maxX := Fin x1; maxY := Fin y1 |}.

(** The uniform scale before padding, and the scale, were nothing rounded. *)
Let ratio : R := Rmin (W / (x1 - x0)) (H / (y1 - y0)).
Let S : R := 0.96 * ratio.

(** What the fitter computes. *)
Let dx : R := round64 (x1 - x0).
Let dy : R := round64 (y1 - y0).
Let s : R :=
  round64 (round64 0.96 * Rmin (round64 (W / dx)) (round64 (H / dy))).
Let halfX : R := round64 (round64 (W - round64 (dx * s)) / 2).
Let halfY : R := round64 (round64 (H - round64 (dy * s)) / 2).

Lemma fit_ratio :
  0 < ratio /\ ratio * (x1 - x0) <= W /\ ratio * (y1 - y0) <= H
  /\ (ratio * (x1 - x0) = W \/ ratio * (y1 - y0) = H).
Proof.
  assert (Ha : W / (x1 - x0) * (x1 - x0) = W) by (field; lra).
  assert (Hc : H / (y1 - y0) * (y1 - y0) = H) by (field; lra).
  assert (Hap : 0 < W / (x1 - x0)) by (apply Rdiv_lt_0_compat; lra).
  assert (Hcp : 0 < H / (y1 - y0)) by (apply Rdiv_lt_0_compat; lra).
  unfold ratio, Rmin. destruct (Rle_dec _ _) as [Hle | Hgt].
  - split; [lra |]. split; [lra |]. split; [| left; lra].
    rewrite <- Hc. apply Rmult_le_compat_r; lra.
  - split; [lra |]. split; [| split; [lra | right; lra]].
    rewrite <- Ha. apply Rmult_le_compat_r; lra.
Qed.

Lemma fitBounds_finite :
  fitBounds box (Fin W) (Fin H)
  = {| scale := Fin s;
       tx := Fin (round64 (halfX + - round64 (x0 * s)));
       ty := Fin (round64 (halfY + round64 (y1 * s))) |}.
Proof.
  assert (Hdx0 : dx <> 0).
  { unfold dx. pose proof (round64_pos _ Hdx). lra. }
  assert (Hdy0 : dy <> 0).
  { unfold dy. pose proof (round64_pos _ Hdy). lra. }
  unfold fitBounds, box, pad, Float.add, Float.sub, Float.mul, Float.div.
  cbn [minX minY maxX maxY Num.sub Num.neg Num.add Float.fl].
  change (x1 + - x0) with (x1 - x0). change (y1 + - y0) with (y1 - y0).
  fold dx dy. cbn [Num.div]. rewrite (Reqb_false dx 0), (Reqb_false dy 0)
    by assumption.
  cbn [Float.fl Num.min Num.le].
  assert (Emin : (if Rleb (round64 (W / dx)) (round64 (H / dy))
                  then Fin (round64 (W / dx)) else Fin (round64 (H / dy)))
                 = Fin (Rmin (round64 (W / dx)) (round64 (H / dy)))).
  { unfold Rleb, Rmin. now destruct (Rle_dec _ _). }
  rewrite Emin. cbn [Num.mul Float.fl]. fold s.
  cbn [Num.add Num.neg Num.div Float.fl]. rewrite (Reqb_false 2 0) by lra.
  cbn [Float.fl Num.add Num.neg]. reflexivity.
Qed.

Lemma extent_near : near unit64 dx (x1 - x0) /\ near unit64 dy (y1 - y0).
Proof.
  split; apply near_round64.
Qed.

Lemma scale_near : 0 < S /\ near (8 * unit64) s S.
Proof.
  pose proof unit64_small as [Hu Hu'].
  destruct fit_ratio as (Hr & _). destruct extent_near as [Hx Hy].
  split; [unfold S; lra |].
  assert (Hq : forall side d' d : R,
             0 < side -> 0 < d -> near unit64 d' d ->
             near (4 * unit64) (round64 (side / d')) (side / d)).
  { intros side d' d Hside Hd Hd'.
    eapply near_weaken;
      [apply (near_round (2 * unit64));
       [lra | apply (near_div unit64); [exact Hd | lra | exact Hd']]
      | nra]. }
  assert (Hm : near (4 * unit64)
                 (Rmin (round64 (W / dx)) (round64 (H / dy))) ratio).
  { unfold ratio. apply near_min.
    - apply Rdiv_lt_0_compat; lra.
    - apply Rdiv_lt_0_compat; lra.
    - lra.
    - now apply Hq.
    - now apply Hq. }
  assert (Hp : near unit64 (round64 0.96) 0.96).
  { apply near_round64. }
  unfold s, S.
  eapply near_weaken;
    [apply (near_round (unit64 + 4 * unit64 + unit64 * (4 * unit64)));
     [nra | exact (near_mul _ _ _ _ _ _ Hp Hm)]
    | nra].
Qed.

(** The pixel image of a point of the box is the image that exact
    arithmetic gives, up to the slack of the rounding. *)
Lemma project_close (p : LonLat) :
  -90 < lat p < 90 ->
  x0 <= planarX p <= x1 -> y0 <= planarY p <= y1 ->
  exists px py : R,
    project (fitBounds box (Fin W) (Fin H))
            (VNum (Fin (lon p))) (VNum (Fin (lat p))) = (Fin px, Fin py)
    /\ Rabs (px - ((W - (x1 - x0) * S) / 2 + (planarX p - x0) * S))
       <= slack W x0 x1
    /\ Rabs (py - ((H - (y1 - y0) * S) / 2 + (y1 - planarY p) * S))
       <= slack H y0 y1.
Proof.
  intros Hlat Hx Hy.
  rewrite fitBounds_finite. unfold project.
  rewrite (mercatorProject_point p Hlat). cbn [scale tx ty].
  unfold Float.add, Float.mul. cbn [Num.mul Num.neg Num.add Float.fl].
  eexists. eexists. split; [reflexivity |].
  pose proof unit64_small as [Hu Hu'].
  destruct fit_ratio as (Hr & Hrx & Hry & _).
  destruct scale_near as [HS Hs]. destruct extent_near as [Hnx Hny].
  assert (HSx : (x1 - x0) * S <= 0.96 * W) by (unfold S; nra).
  assert (HSy : (y1 - y0) * S <= 0.96 * H) by (unfold S; nra).
  assert (HPx : 0 <= (x1 - x0) * S) by nra.
  assert (HPy : 0 <= (y1 - y0) * S) by nra.
  assert (Hside : forall side lo hi c c0 : R,
            0 < side -> 0 < hi - lo -> (hi - lo) * S <= 0.96 * side ->
            lo <= c <= hi -> lo <= c0 <= hi ->
            forall A, A = Rmax (Rabs lo) (Rabs hi) * S ->
            0 <= A
            /\ Rabs (c * S) <= A
            /\ Rabs (round64 (c * s) - c * S) <= 10 * (unit64 * A)
            /\ Rabs (round64 (c0 * s) - c0 * S) <= 10 * (unit64 * A)
            /\ Rabs (c0 * S) <= A
            /\ unit64 * (10 * side + 25 * A) <= slack side lo hi).
  { intros side lo hi c c0 Hs0 Hd HdS Hc Hc0 A ->.
    set (M := Rmax (Rabs lo) (Rabs hi)).
    assert (HM : forall z, lo <= z <= hi -> Rabs z <= M).
    { intros z Hz. unfold M. apply Rabs_le.
      pose proof (Rmax_l (Rabs lo) (Rabs hi)).
      pose proof (Rmax_r (Rabs lo) (Rabs hi)).
      pose proof (Rle_abs hi). pose proof (Rle_abs (- lo)) as Hlo.
      rewrite Rabs_Ropp in Hlo. lra. }
    assert (HM0 : 0 <= M).
    { pose proof (HM c Hc). pose proof (Rabs_pos c). lra. }
    assert (Habs : forall z, lo <= z <= hi -> Rabs (z * S) <= M * S).
    { intros z Hz. rewrite Rabs_mult, (Rabs_pos_eq S) by lra.
      apply Rmult_le_compat_r; [lra | now apply HM]. }
    split; [nra |]. split; [now apply Habs |].
    split; [apply scaled_close; [exact HS | exact Hs | now apply HM] |].
    split; [apply scaled_close; [exact HS | exact Hs | now apply HM] |].
    split; [now apply Habs |].
    unfold slack, spread. fold M.
    assert (HSd : S <= 0.96 * side / (hi - lo)).
    { apply Rmult_le_reg_r with (hi - lo); [exact Hd |].
      replace (0.96 * side / (hi - lo) * (hi - lo)) with (0.96 * side)
        by (field; lra). lra. }
    assert (HMS : 25 * (M * S) <= 24 * side * (M / (hi - lo))).
    { apply Rle_trans with (25 * (M * (0.96 * side / (hi - lo)))).
      - apply Rmult_le_compat_l; [lra |].
        apply Rmult_le_compat_l; [exact HM0 | exact HSd].
      - replace (M * (0.96 * side / (hi - lo)))
          with (0.96 * (side * (M / (hi - lo)))) by (unfold Rdiv; ring).
        assert (0 <= side * (M / (hi - lo))).
        { apply Rmult_le_pos; [lra |]. apply Rmult_le_pos; [exact HM0 |].
          left. now apply Rinv_0_lt_compat. }
        lra. }
    replace (unit64 * side * (10 + 24 * (M / (hi - lo))))
      with (unit64 * (10 * side + 24 * side * (M / (hi - lo)))) by ring.
    apply Rmult_le_compat_l; lra. }
  split.
  - destruct (Hside W x0 x1 (planarX p) x0 HW Hdx HSx Hx ltac:(lra) _ eq_refl)
      as (HA & HP & Hr1 & Hr0 & HK & Hslack).
    eapply Rle_trans; [| exact Hslack].
    replace ((W - (x1 - x0) * S) / 2 + (planarX p - x0) * S)
      with (planarX p * S + (W - (x1 - x0) * S) / 2 + - (x0 * S)) by field.
    apply pixel_close; try assumption.
    + lra.
    + apply (half_close W (x1 - x0) S s dx); assumption.
    + now rewrite Rabs_Ropp.
    + replace (- round64 (x0 * s) - - (x0 * S))
        with (- (round64 (x0 * s) - x0 * S)) by ring.
      now rewrite Rabs_Ropp.
  - destruct (Hside H y0 y1 (planarY p) y1 HH Hdy HSy Hy ltac:(lra) _ eq_refl)
      as (HA & HP & Hr1 & Hr0 & HK & Hslack).
    eapply Rle_trans; [| exact Hslack].
    replace ((H - (y1 - y0) * S) / 2 + (y1 - planarY p) * S)
      with (- planarY p * S + (H - (y1 - y0) * S) / 2 + y1 * S) by field.
    apply pixel_close; try assumption.
    + lra.
    + apply (half_close H (y1 - y0) S s dy); assumption.
    + replace (- planarY p * S) with (- (planarY p * S)) by ring.
      now rewrite Rabs_Ropp.
    + replace (- planarY p * s) with (- (planarY p * s)) by ring.
      rewrite round64_opp.
      replace (- round64 (planarY p * s) - - planarY p * S)
        with (- (round64 (planarY p * s) - planarY p * S)) by ring.
      now rewrite Rabs_Ropp.
Qed.

(** The image that exact arithmetic gives is inside the canvas, the padding
    margin away from each edge. *)
Lemma ideal_in_canvas (X Y : R) :
  x0 <= X <= x1 -> y0 <= Y <= y1 ->
  (1 - 0.96) / 2 * W <= (W - (x1 - x0) * S) / 2 + (X - x0) * S
                     <= W - (1 - 0.96) / 2 * W
  /\ (1 - 0.96) / 2 * H <= (H - (y1 - y0) * S) / 2 + (y1 - Y) * S
                        <= H - (1 - 0.96) / 2 * H.
Proof.
  intros Hx Hy. destruct fit_ratio as (Hr & Hrx & Hry & _).
  assert (Hs : 0 < S) by (unfold S; lra).
  assert (Hsx : (x1 - x0) * S <= 0.96 * W) by (unfold S; nra).
  assert (Hsy : (y1 - y0) * S <= 0.96 * H) by (unfold S; nra).
  assert (Hpx : 0 <= (X - x0) * S <= (x1 - x0) * S) by nra.
  assert (Hpy : 0 <= (y1 - Y) * S <= (y1 - y0) * S) by nra.
  split; lra.
Qed.

End Fit.

Lemma slack_small (side lo hi : R) :
  0 < side <= 1000 -> lo < hi -> spread lo hi <= 1000000 ->
  slack side lo hi <= / 100000.
Proof.
  intros Hside Hlo Hsp. unfold slack.
  assert (0 <= spread lo hi).
  { unfold spread. apply Rmult_le_pos.
    - eapply Rle_trans; [apply Rabs_pos | apply Rmax_l].
    - left. apply Rinv_0_lt_compat. lra. }
  rewrite unit64_value.
  apply Rle_trans with (/ 9007199254740992 * 1000 * (10 + 24 * 1000000));
    [| lra].
  apply Rmult_le_compat; lra.
Qed.

(** C1, as the code has it: for a boundary collection of the data model,
    latitudes strictly between the poles, whose projected bounding box has
    positive width and height, the bounds fitter returns a projection for
    the canvas W = 1000, H = 680 with the fill ratio 0.96, and that
    projection sends every coordinate of every feature to a finite pixel
    that misses the padded area (20 to 980 across, 13.6 to 666.4 down) by
    no more than the slack of the rounding: the unit roundoff 2^-53 times
    the side of the canvas times [10 + 24 m / d], with [d] the extent of the
    box in that direction and [m] the greatest magnitude of its two sides.
    While the box is no smaller than a millionth of its distance from the
    origin the slack is below 0.00001 and the pixel is inside the canvas.
    Without such a condition it need not be: the slack grows as the box
    shrinks. *)
Theorem fitted_projection_inside_canvas (regions : list Region) (b : Bounds) :
  validPoints (allPoints regions) ->
  scanBounds (collection regions) = Ok b ->
  (Fin 0 <? extentX b)%num = true ->
  (Fin 0 <? extentY b)%num = true ->
  exists (proj : Projection) (x0 y0 x1 y1 : R),
    buildGeoProjection (collection regions) (Fin 1000) (Fin 680) = Ok proj
    /\ b = {| minX := Fin x0; minY := Fin y0; maxX := Fin x1; maxY := Fin y1 |}
    /\ x0 < x1 /\ y0 < y1
    /\ forall p, In p (allPoints regions) ->
         exists px py : R,
           project proj (VNum (Fin (lon p))) (VNum (Fin (lat p)))
           = (Fin px, Fin py)
           /\ 20 - slack 1000 x0 x1 <= px <= 980 + slack 1000 x0 x1
           /\ 13.6 - slack 680 y0 y1 <= py <= 666.4 + slack 680 y0 y1
           /\ (spread x0 x1 <= 1000000 ->
               0 <= 19.99999 <= px /\ px <= 980.00001 <= 1000)
           /\ (spread y0 y1 <= 1000000 ->
               0 <= 13.59999 <= py /\ py <= 666.40001 <= 680).
Proof.
  intros Hv Hscan Hdx Hdy.
  rewrite (scanBounds_collection regions Hv) in Hscan.
  injection Hscan as <-.
  unfold buildGeoProjection.
  rewrite (scanBounds_collection regions Hv). cbn [bind].
  destruct (scan_box (allPoints regions)) as [Hnil | x0 y0 x1 y1 Hne Hin].
  - cbn in Hdx. discriminate.
  - unfold extentX, extentY in Hdx, Hdy.
    cbn [minX minY maxX maxY Num.sub Num.neg Num.add Num.lt] in Hdx, Hdy.
    apply Rltb_spec in Hdx. apply Rltb_spec in Hdy.
    eexists. exists x0, y0, x1, y1.
    split; [reflexivity |]. split; [reflexivity |].
    split; [lra |]. split; [lra |].
    intros p Hp. destruct (Hin p Hp) as [Hx Hy].
    destruct (project_close 1000 680 x0 y0 x1 y1
                ltac:(lra) ltac:(lra) ltac:(lra) ltac:(lra)
                p (Hv p Hp) Hx Hy) as (px & py & E & Hpx & Hpy).
    destruct (ideal_in_canvas 1000 680 x0 y0 x1 y1
                ltac:(lra) ltac:(lra) ltac:(lra) ltac:(lra)
                (planarX p) (planarY p) Hx Hy) as [Hix Hiy].
    apply Rabs_le_inv in Hpx. apply Rabs_le_inv in Hpy.
    exists px, py. split; [exact E |].
    split; [lra |]. split; [lra |]. split.
    + intros Hsp.
      pose proof (slack_small 1000 x0 x1 ltac:(lra) ltac:(lra) Hsp). lra.
    + intros Hsp.
      pose proof (slack_small 680 y0 y1 ltac:(lra) ltac:(lra) Hsp). lra.
Qed.


(** A finite difference has finite operands. *)
Lemma sub_finite (a b : num) (d : R) :
  (a - b)%num = Fin d -> exists x y : R, a = Fin x /\ b = Fin y /\ d = x - y.
Proof.
  destruct a as [x| | |], b as [y| | |]; cbn; try discriminate.
  intros E. injection E as <-. exists x, y. repeat split; ring.
Qed.

Lemma scanBounds_empty (geo : FeatureCollection) :
  features geo = [] -> scanBounds geo = Ok noBounds.
Proof. intros E. unfold scanBounds. rewrite E. reflexivity. Qed.

(** The rounded difference of two finite numbers. *)
Lemma sub_rounded (a b d : R) :
  d = a - b -> (Fin a - Fin b)%fp = Fin (round64 d).
Proof. intros ->. reflexivity. Qed.

(** With nothing scanned the translations are not numbers. *)
Lemma fitBounds_noBounds :
  fitBounds noBounds (Fin 1000) (Fin 680)
  = {| scale := Fin (0.96 * 0); tx := NaN; ty := NaN |}.
Proof.
  unfold fitBounds, noBounds, pad. cbn [minX minY maxX maxY]. fp_eval.
  reflexivity.
Qed.

(** With a box reduced to a point the scale is infinite and the
    translations are not numbers. *)
Lemma fitBounds_point (b : Bounds) :
  extentX b = Fin 0 -> extentY b = Fin 0 ->
  fitBounds b (Fin 1000) (Fin 680) = {| scale := PInf; tx := NaN; ty := NaN |}.
Proof.
  unfold extentX, extentY. intros Hx Hy.
  destruct (sub_finite _ _ _ Hx) as (x1 & x0 & Ex1 & Ex0 & Edx).
  destruct (sub_finite _ _ _ Hy) as (y1 & y0 & Ey1 & Ey0 & Edy).
  unfold fitBounds, pad. rewrite Ex1, Ex0, Ey1, Ey0.
  rewrite !(sub_rounded _ _ 0) by lra. fp_eval.
  assert (Hp : 0 < round64 0.96) by (apply round64_pos; lra).
  rewrite (Reqb_false (round64 0.96) 0) by lra.
  rewrite (Rltb_true 0 (round64 0.96)) by exact Hp. fp_eval. reflexivity.
Qed.

Lemma project_nan (proj : Projection) (lon lat : value) :
  tx proj = NaN -> ty proj = NaN -> project proj lon lat = (NaN, NaN).
Proof.
  intros Ex Ey. unfold project. destruct (mercatorProject lon lat) as [x y].
  rewrite Ex, Ey. unfold Float.add.
  destruct (x * scale proj)%fp, (- y * scale proj)%fp; reflexivity.
Qed.

(** With a box of zero width and positive height the infinite ratio loses in
    [Math.min] and the fit is finite; likewise for zero height. *)
Lemma fitBounds_segment (b : Bounds) (d : R) :
  0 < d ->
  (extentX b = Fin 0 /\ extentY b = Fin d)
  \/ (extentX b = Fin d /\ extentY b = Fin 0) ->
  exists s u v : R,
    fitBounds b (Fin 1000) (Fin 680)
    = {| scale := Fin s; tx := Fin u; ty := Fin v |}.
Proof.
  unfold extentX, extentY. intros Hd [[Hx Hy] | [Hx Hy]];
    destruct (sub_finite _ _ _ Hx) as (x1 & x0 & Ex1 & Ex0 & Edx);
    destruct (sub_finite _ _ _ Hy) as (y1 & y0 & Ey1 & Ey0 & Edy);
    unfold fitBounds, pad; rewrite Ex1, Ex0, Ey1, Ey0;
    rewrite (sub_rounded x1 x0 _ Edx), (sub_rounded y1 y0 _ Edy);
    pose proof (round64_pos d Hd) as Hrd; fp_eval;
    do 3 eexists; reflexivity.
Qed.

(** C2, as the code has it: the bounds fitter substitutes no minimum
    extent.  When the collection is empty, or the box is reduced to a point
    (dx = 0 and dy = 0), the translations it computes are [NaN] and so is
    every pixel coordinate it produces.  When exactly one of dx and dy is 0
    and the other is positive, the scale and the translations are finite,
    and so is the pixel image of every point whose planar image is. *)
Theorem degenerate_extent_is_not_replaced (geo : FeatureCollection) (b : Bounds) :
  scanBounds geo = Ok b ->
  exists proj : Projection,
    buildGeoProjection geo (Fin 1000) (Fin 680) = Ok proj
    /\ (features geo = [] \/ (extentX b = Fin 0 /\ extentY b = Fin 0) ->
        tx proj = NaN /\ ty proj = NaN
        /\ forall lon lat : value, project proj lon lat = (NaN, NaN))
    /\ (forall d : R, 0 < d ->
        (extentX b = Fin 0 /\ extentY b = Fin d)
        \/ (extentX b = Fin d /\ extentY b = Fin 0) ->
        Num.isFinite (scale proj) = true
        /\ Num.isFinite (tx proj) = true
        /\ Num.isFinite (ty proj) = true
        /\ forall (lon lat : value) (x y : R),
             mercatorProject lon lat = (Fin x, Fin y) ->
             Num.isFinite (fst (project proj lon lat)) = true
             /\ Num.isFinite (snd (project proj lon lat)) = true).
Proof.
  intros Hscan. unfold buildGeoProjection. rewrite Hscan. cbn [bind].
  eexists. split; [reflexivity |]. split.
  - intros Hdeg.
    assert (E : tx (fitBounds b (Fin 1000) (Fin 680)) = NaN
                /\ ty (fitBounds b (Fin 1000) (Fin 680)) = NaN).
    { destruct Hdeg as [Hnil | [Hx Hy]].
      - rewrite (scanBounds_empty geo Hnil) in Hscan. injection Hscan as <-.
        rewrite fitBounds_noBounds. split; reflexivity.
      - rewrite (fitBounds_point b Hx Hy). split; reflexivity. }
    destruct E as [Ex Ey]. repeat split; try assumption.
    intros lon lat. now apply project_nan.
  - intros d Hd Hseg.
    destruct (fitBounds_segment b d Hd Hseg) as (s & u & v & E).
    rewrite E. cbn [scale tx ty Num.isFinite]. repeat split.
    all: unfold project; rewrite H; reflexivity.
Qed.

(** ** Numbers as text *)

Lemma length_append (a b : string) :
  String.length (a ++ b) = (String.length a + String.length b)%nat.
Proof. induction a as [|c a IH]; cbn; [reflexivity | now rewrite IH]. Qed.

Lemma append_assoc (a b c : string) : ((a ++ b) ++ c = a ++ (b ++ c))%string.
Proof. induction a as [|x a IH]; cbn; [reflexivity | now rewrite IH]. Qed.

Lemma append_empty_r (a : string) : (a ++ "" = a)%string.
Proof. induction a as [|x a IH]; cbn; [reflexivity | now rewrite IH]. Qed.

Lemma allDigits_append (a b : string) :
  allDigits (a ++ b) = allDigits a && allDigits b.
Proof.
  induction a as [|c a IH]; cbn; [reflexivity |].
  rewrite IH. now rewrite andb_assoc.
Qed.

Lemma allDigits_zeros (k : nat) : allDigits (zeros k) = true.
Proof. induction k as [|k IH]; cbn; [reflexivity | exact IH]. Qed.

Lemma length_zeros (k : nat) : String.length (zeros k) = k.
Proof. induction k as [|k IH]; cbn; [reflexivity | now rewrite IH]. Qed.

Lemma allDigits_uint (d : Decimal.uint) :
  allDigits (NilEmpty.string_of_uint d) = true.
Proof. induction d; cbn; auto. Qed.

Lemma allDigits_decimal (n : Z) : allDigits (decimal n) = true.
Proof.
  unfold decimal, NilZero.string_of_uint.
  destruct (N.to_uint (Z.to_N n)) eqn:E; try reflexivity;
    rewrite <- E; apply allDigits_uint.
Qed.

Lemma decimal_not_empty (n : Z) : (1 <= String.length (decimal n))%nat.
Proof.
  unfold decimal, NilZero.string_of_uint.
  destruct (N.to_uint (Z.to_N n)); cbn; lia.
Qed.

Lemma allDigits_substring (s : string) (n m : nat) :
  allDigits s = true -> allDigits (substring n m s) = true.
Proof.
  revert n m. induction s as [|c s IH]; intros n m H.
  - destruct n, m; reflexivity.
  - cbn in H. apply andb_prop in H as [Hc Hs].
    destruct n as [|n]; destruct m as [|m]; cbn; try reflexivity.
    + rewrite Hc. now apply IH.
    + now apply IH.
    + now apply IH.
Qed.

Lemma length_substring (s : string) (n m : nat) :
  (n + m <= String.length s)%nat -> String.length (substring n m s) = m.
Proof.
  revert n m. induction s as [|c s IH]; intros n m H; cbn in H.
  - assert (n = 0 /\ m = 0)%nat as [-> ->] by lia. reflexivity.
  - destruct n as [|n]; destruct m as [|m]; cbn; try reflexivity.
    + f_equal. apply IH. cbn. lia.
    + apply IH. lia.
    + apply IH. lia.
Qed.

(** The text of [toFixed] for a positive count of decimals: digits, a
    point, and exactly that many digits. *)
Lemma fixedDigits_shape (f : nat) (n : Z) :
  f <> 0%nat ->
  exists int frac : string,
    fixedDigits f n = (int ++ "." ++ frac)%string
    /\ int <> ""%string /\ allDigits int = true
    /\ String.length frac = f /\ allDigits frac = true.
Proof.
  intros Hf. unfold fixedDigits.
  destruct (Nat.eqb_spec f 0) as [E | _]; [contradiction |].
  set (m0 := decimal n).
  set (m := if Nat.leb (String.length m0) f
            then (zeros (f + 1 - String.length m0) ++ m0)%string else m0).
  assert (Hd : allDigits m = true).
  { unfold m. destruct (Nat.leb _ _).
    - rewrite allDigits_append, allDigits_zeros. apply allDigits_decimal.
    - apply allDigits_decimal. }
  assert (Hl : (f + 1 <= String.length m)%nat).
  { unfold m. destruct (Nat.leb_spec (String.length m0) f).
    - rewrite length_append, length_zeros. lia.
    - lia. }
  exists (substring 0 (String.length m - f) m),
         (substring (String.length m - f) f m).
  split; [reflexivity |]. repeat split.
  - intros E.
    assert (Hlen : (String.length (substring 0 (String.length m - f) m)
                    = String.length m - f)%nat) by (apply length_substring; lia).
    rewrite E in Hlen. cbn in Hlen. lia.
  - now apply allDigits_substring.
  - apply length_substring. lia.
  - now apply allDigits_substring.
Qed.

Section TextProperties.

Context {host : Host}.

(** A coordinate in the fixed range is written with exactly two decimals. *)
Lemma toFixed_decimals (f : nat) (x : num) :
  f <> 0%nat -> fixedRange x -> hasDecimals f (toFixed f x).
Proof.
  intros Hf (r & -> & Hr). unfold toFixed.
  rewrite (Rleb_false _ _ Hr).
  destruct (fixedDigits_shape f (Zfloor (Rabs r * 10 ^ f + / 2)) Hf)
    as (int & frac & E & Hne & Hint & Hlen & Hfrac).
  rewrite E.
  exists (if Rltb r 0 then "-" else "")%string, int, frac.
  repeat split; try assumption.
  destruct (Rltb r 0); auto.
Qed.

(** The text of a number in the fixed range, from the integer nearest to
    its magnitude scaled by [10^f]. *)
Lemma toFixed_value (f : nat) (r : R) (n : Z) :
  Rabs r < 1e21 ->
  IZR n <= Rabs r * 10 ^ f + / 2 < IZR n + 1 ->
  toFixed f (Fin r)
  = ((if Rltb r 0 then "-" else "") ++ fixedDigits f n)%string.
Proof.
  intros Hr Hn. unfold toFixed. rewrite (Rleb_false _ _ Hr).
  now rewrite (Zfloor_eq n _ Hn).
Qed.

End TextProperties.

(** ** Geometry-to-path compiler *)

Lemma join_cons (a : string) (l : list string) :
  join (a :: l) = (a ++ join l)%string.
Proof.
  unfold join. destruct l as [|b l]; cbn.
  - now rewrite append_empty_r.
  - reflexivity.
Qed.

Lemma throws_bind_ok {A B : Type} (m : result A) (f : A -> B) :
  throws (let* a := m in Ok (f a)) = throws m.
Proof. destruct m; reflexivity. Qed.

Lemma mapM_throws {A B : Type} (f : A -> result B) (l : list A) :
  throws (mapM f l) = negb (forallb (fun x => negb (throws (f x))) l).
Proof.
  induction l as [|x l IH]; cbn; [reflexivity |].
  destruct (f x) as [y | e]; cbn; [| reflexivity].
  rewrite throws_bind_ok. exact IH.
Qed.

Lemma forallb_ext_eq {A : Type} (f g : A -> bool) (l : list A) :
  (forall x, f x = g x) -> forallb f l = forallb g l.
Proof. intros E. induction l as [|x l IH]; cbn; [reflexivity | now rewrite E, IH]. Qed.

Section PathCompiler.

Context {host : Host}.
Variable project : value -> value -> num * num.

Lemma ringLoop_throws (pts : list value) (i : nat) (d : string) :
  throws (ringLoop project pts i d) = negb (forallb isArray pts).
Proof.
  revert i d. induction pts as [|pt pts IH]; intros i d; cbn; [reflexivity |].
  destruct pt as [| | n | l]; cbn; try reflexivity.
  destruct (project (nth 0 l VUndef) (nth 1 l VUndef)) as [x y]. apply IH.
Qed.

Lemma ringToPath_throws (ring : value) :
  throws (ringToPath project ring) = negb (ringCompiles ring).
Proof.
  unfold ringToPath.
  destruct ring as [| | n | pts]; try reflexivity.
  - destruct (negb (truthy (VNum n))); reflexivity.
  - cbn [truthy negb ringCompiles].
    destruct pts as [|pt pts]; [reflexivity |].
    rewrite throws_bind_ok. apply ringLoop_throws.
Qed.

Lemma polygon_throws (coords : value) :
  throws (let* parts := arrayMap coords (ringToPath project) in Ok (join parts))
  = negb (polygonCompiles coords).
Proof.
  rewrite throws_bind_ok.
  destruct coords as [| | n | rings]; cbn; try reflexivity.
  rewrite mapM_throws. f_equal. apply forallb_ext_eq.
  intros ring. rewrite ringToPath_throws. apply negb_involutive.
Qed.

Lemma geomToPath_throws (geom : option Geometry) :
  throws (geomToPath geom project) = negb (compiles geom).
Proof.
  destruct geom as [g |]; [| reflexivity]. unfold geomToPath, compiles.
  destruct (typeIs (type g) "Polygon"); [apply polygon_throws |].
  destruct (typeIs (type g) "MultiPolygon"); [| reflexivity].
  rewrite throws_bind_ok.
  destruct (coordinates g) as [| | n | polygons]; cbn; try reflexivity.
  rewrite mapM_throws. f_equal. apply forallb_ext_eq.
  intros poly. rewrite polygon_throws. apply negb_involutive.
Qed.

(** C10, as the code has it: [geomToPath] returns the empty path for a
    missing geometry and for a type that is neither Polygon nor
    MultiPolygon; a ring that is missing or has no point contributes the
    empty string; and it raises an exception exactly when the coordinates
    of a Polygon or MultiPolygon are not an array (of arrays, for a
    MultiPolygon) or a ring holds a point that is not an array. *)
Theorem geomToPath_exceptions :
  (forall geom : option Geometry,
     throws (geomToPath geom project) = negb (compiles geom))
  /\ geomToPath None project = Ok ""%string
  /\ (forall g : Geometry,
        geomToPath (Some g) project = Ok ""%string
        \/ typeIs (type g) "Polygon" = true
        \/ typeIs (type g) "MultiPolygon" = true)
  /\ ringToPath project VUndef = Ok ""%string
  /\ ringToPath project VNull = Ok ""%string
  /\ ringToPath project (VArr []) = Ok ""%string.
Proof.
  split; [exact geomToPath_throws |]. split; [reflexivity |].
  split; [| repeat split; reflexivity].
  intros g. unfold geomToPath.
  destruct (typeIs (type g) "Polygon"); [right; left; reflexivity |].
  destruct (typeIs (type g) "MultiPolygon"); [right; right; reflexivity |].
  left. reflexivity.
Qed.

(** The loop over the points of a ring of the data model, past its first
    point. *)
Lemma ringLoop_points (pts : list LonLat) (i : nat) (d : string) :
  ringLoop project (map pointValue pts) (S i) d
  = Ok (d ++ join (map (fun p => "L" ++ pointText project p) pts))%string.
Proof.
  revert i d. induction pts as [|p pts IH]; intros i d; cbn [map ringLoop].
  - cbn. now rewrite append_empty_r.
  - unfold pointValue at 1. cbn [destructure2 bind nth].
    rewrite join_cons. unfold pointText at 1.
    destruct (project (VNum (Fin (lon p))) (VNum (Fin (lat p)))) as [x y].
    rewrite IH. cbn [Nat.eqb]. now rewrite !append_assoc.
Qed.

Lemma ringToPath_ring (r : Ring) :
  ringToPath project (ringValue r) = Ok (ringText project r).
Proof.
  destruct r as [|p pts]; [reflexivity |].
  unfold ringToPath, ringValue. cbn [truthy negb map ringLoop].
  unfold pointValue at 1. cbn [destructure2 bind nth].
  unfold ringText, pointText at 1.
  destruct (project (VNum (Fin (lon p))) (VNum (Fin (lat p)))) as [x y].
  rewrite ringLoop_points. cbn [bind Nat.eqb].
  now rewrite !append_assoc.
Qed.

Lemma arrayMap_polygon (rings : list Ring) :
  arrayMap (polygonValue rings) (ringToPath project)
  = Ok (map (ringText project) rings).
Proof.
  unfold polygonValue, arrayMap.
  induction rings as [|r rings IH]; cbn [map mapM]; [reflexivity |].
  rewrite ringToPath_ring, IH. reflexivity.
Qed.

Lemma geomToPath_shape (s : Shape) :
  geomToPath (Some (shapeGeometry s)) project = Ok (shapeText project s).
Proof.
  destruct s as [rings | polygons]; unfold geomToPath, shapeGeometry;
    cbn [type coordinates].
  - change (typeIs (Some "Polygon"%string) "Polygon") with true. cbv iota.
    rewrite arrayMap_polygon. reflexivity.
  - change (typeIs (Some "MultiPolygon"%string) "Polygon") with false.
    change (typeIs (Some "MultiPolygon"%string) "MultiPolygon") with true.
    cbv iota. unfold arrayMap at 1.
    assert (E : mapM (fun poly =>
                        let* rings := arrayMap poly (ringToPath project) in
                        Ok (join rings))
                     (map polygonValue polygons)
                = Ok (map (polygonText project) polygons)).
    { induction polygons as [|poly polygons IH]; cbn [map mapM]; [reflexivity |].
      rewrite arrayMap_polygon, IH. reflexivity. }
    rewrite E. reflexivity.
Qed.

(** A text that starts with a letter is no number with decimals. *)
Lemma letter_first (c : ascii) (rest : string) :
  isDigit c = false -> c <> "-"%char -> ~ hasDecimals 2 (String c rest).
Proof.
  intros Hc Hminus (sign & int & frac & E & Hsign & Hne & Hint & _).
  destruct Hsign as [-> | ->].
  - destruct int as [|c' int]; [contradiction |]. cbn in E.
    injection E as -> _. cbn [allDigits] in Hint. rewrite Hc in Hint.
    discriminate.
  - cbn in E. injection E as -> _. now apply Hminus.
Qed.

Lemma minus_letter_first (c : ascii) (rest : string) :
  isDigit c = false -> ~ hasDecimals 2 (String "-" (String c rest)).
Proof.
  intros Hc (sign & int & frac & E & Hsign & Hne & Hint & _).
  destruct Hsign as [-> | ->];
    (destruct int as [|c' int]; [contradiction |]); cbn in E.
  - injection E as <- _. discriminate.
  - injection E as -> _. cbn [allDigits] in Hint. rewrite Hc in Hint.
    discriminate.
Qed.

(** How [toFixed(2)] writes a number. *)
Lemma toFixed_cases (c : num) :
  (fixedRange c /\ hasDecimals 2 (toFixed 2 c))
  \/ (c = NaN /\ toFixed 2 c = "NaN"%string)
  \/ (c = PInf /\ toFixed 2 c = "Infinity"%string)
  \/ (c = NInf /\ toFixed 2 c = "-Infinity"%string)
  \/ (exists r : R,
        c = Fin r /\ 1e21 <= Rabs r
        /\ toFixed 2 c
           = ((if Rltb r 0 then "-" else "") ++ NumberToString (Rabs r))%string).
Proof.
  destruct c as [r | | |].
  - destruct (Rle_dec 1e21 (Rabs r)) as [Hbig | Hsmall].
    + do 4 right. exists r. split; [reflexivity |]. split; [exact Hbig |].
      unfold toFixed. now rewrite (Rleb_true _ _ Hbig).
    + assert (Hr : fixedRange (Fin r)) by (exists r; split; [reflexivity | lra]).
      left. split; [exact Hr |]. now apply toFixed_decimals.
  - right. right. left. split; reflexivity.
  - right. right. right. left. split; reflexivity.
  - right. left. split; reflexivity.
Qed.

(** C6, as the code has it.  For a Polygon or MultiPolygon of the data
    model and any projection function, [geomToPath] returns, and emits for
    each ring that has a point a move-to the first projected point, a
    line-to each subsequent one and a close-path, and nothing for a ring
    that is an empty array; a MultiPolygon compiles to the concatenation of
    its polygons in order.  Every emitted coordinate is what [toFixed(2)]
    gives for a coordinate of a projected point of the geometry: exactly two
    decimals when that coordinate is finite and of magnitude below 1e21,
    the text [NaN], [Infinity] or [-Infinity], none of which has decimals,
    when it is not a number or infinite, and the host's shortest text of the
    number from 1e21 on.  Outside the data model, a ring that is
    [undefined], [null], the number 0 or [NaN] also gives nothing, and a
    ring that is any other number gives a lone close-path. *)
Theorem geomToPath_text (s : Shape) :
  geomToPath (Some (shapeGeometry s)) project = Ok (shapeText project s)
  /\ (forall t : string,
        In t (emitted project s) ->
        exists (p : LonLat) (c : num),
          In p (shapePoints s)
          /\ (c = fst (project (VNum (Fin (lon p))) (VNum (Fin (lat p))))
              \/ c = snd (project (VNum (Fin (lon p))) (VNum (Fin (lat p)))))
          /\ t = toFixed 2 c
          /\ ((fixedRange c /\ hasDecimals 2 t)
              \/ (c = NaN /\ t = "NaN"%string)
              \/ (c = PInf /\ t = "Infinity"%string)
              \/ (c = NInf /\ t = "-Infinity"%string)
              \/ (exists r : R,
                    c = Fin r /\ 1e21 <= Rabs r
                    /\ t = ((if Rltb r 0 then "-" else "")
                            ++ NumberToString (Rabs r))%string)))
  /\ (~ hasDecimals 2 "NaN" /\ ~ hasDecimals 2 "Infinity"
      /\ ~ hasDecimals 2 "-Infinity")
  /\ ((forall p, In p (shapePoints s) ->
         fixedRange (fst (project (VNum (Fin (lon p))) (VNum (Fin (lat p)))))
         /\ fixedRange (snd (project (VNum (Fin (lon p))) (VNum (Fin (lat p)))))) ->
      Forall (hasDecimals 2) (emitted project s))
  /\ (ringToPath project (VArr []) = Ok ""%string
      /\ ringToPath project VUndef = Ok ""%string
      /\ ringToPath project VNull = Ok ""%string
      /\ ringToPath project (VNum (Fin 0)) = Ok ""%string
      /\ ringToPath project (VNum NaN) = Ok ""%string
      /\ forall n : num,
           ringToPath project (VNum n)
           = Ok (if truthy (VNum n) then "Z" else "")%string).
Proof.
  split; [apply geomToPath_shape |]. split; [| split; [| split]].
  - intros t Ht. unfold emitted in Ht. apply in_flat_map in Ht as (p & Hp & Ht).
    destruct (project (VNum (Fin (lon p))) (VNum (Fin (lat p)))) as [x y] eqn:E.
    destruct Ht as [<- | [<- | []]].
    + exists p, x. split; [exact Hp |]. split; [left; now rewrite E |].
      split; [reflexivity |]. apply toFixed_cases.
    + exists p, y. split; [exact Hp |]. split; [right; now rewrite E |].
      split; [reflexivity |]. apply toFixed_cases.
  - split; [| split].
    + apply letter_first; [reflexivity | discriminate].
    + apply letter_first; [reflexivity | discriminate].
    + apply minus_letter_first. reflexivity.
  - intros Hrange.
    unfold emitted. induction (shapePoints s) as [|p pts IH]; cbn [flat_map].
    + constructor.
    + destruct (Hrange p (or_introl eq_refl)) as [Hx Hy].
      destruct (project (VNum (Fin (lon p))) (VNum (Fin (lat p)))) as [x y].
      cbn [fst snd] in Hx, Hy. cbn [app].
      constructor; [apply toFixed_decimals; [discriminate | exact Hx] |].
      constructor; [apply toFixed_decimals; [discriminate | exact Hy] |].
      apply IH. intros q Hq. apply Hrange. now right.
  - do 3 (split; [reflexivity |]). split; [| split; [reflexivity |]].
    + unfold ringToPath. cbn [truthy]. now rewrite Reqb_true.
    + intros n. unfold ringToPath. now destruct (truthy (VNum n)).
Qed.

End PathCompiler.

(** ** Region map renderer *)

Section Assoc.

Context {V : Type}.

Lemma assocGet_set_same (k : string) (v : V) (m : list (string * V)) :
  assocGet k (assocSet k v m) = Some v.
Proof.
  induction m as [|[k' v'] m IH]; cbn.
  - now rewrite String.eqb_refl.
  - destruct (String.eqb_spec k' k) as [-> | Hne]; cbn.
    + now rewrite String.eqb_refl.
    + destruct (String.eqb_spec k' k); [contradiction | exact IH].
Qed.

Lemma assocGet_set_other (k k0 : string) (v : V) (m : list (string * V)) :
  k <> k0 -> assocGet k (assocSet k0 v m) = assocGet k m.
Proof.
  intros Hne. induction m as [|[k' v'] m IH]; cbn.
  - destruct (String.eqb_spec k0 k); [congruence | reflexivity].
  - destruct (String.eqb_spec k' k0) as [-> | Hne']; cbn.
    + destruct (String.eqb_spec k0 k); [congruence | reflexivity].
    + destruct (String.eqb_spec k' k); [reflexivity | exact IH].
Qed.

Lemma assocSet_same (k : string) (v : V) (m : list (string * V)) :
  assocGet k m = Some v -> assocSet k v m = m.
Proof.
  induction m as [|[k' v'] m IH]; cbn; [discriminate |].
  destruct (String.eqb_spec k' k) as [-> | Hne].
  - intros E. injection E as ->. reflexivity.
  - intros E. now rewrite IH.
Qed.

Lemma assocSet_keys (k k0 : string) (v : V) (m : list (string * V)) :
  In k (map fst (assocSet k0 v m)) <-> k = k0 \/ In k (map fst m).
Proof.
  induction m as [|[k' v'] m IH]; cbn.
  - intuition congruence.
  - destruct (String.eqb_spec k' k0) as [-> | Hne]; cbn.
    + intuition congruence.
    + rewrite IH. intuition congruence.
Qed.

Lemma assocSet_NoDup (k0 : string) (v : V) (m : list (string * V)) :
  NoDup (map fst m) -> NoDup (map fst (assocSet k0 v m)).
Proof.
  induction m as [|[k' v'] m IH]; cbn; intros Hnd.
  - constructor; [intros [] | constructor].
  - inversion Hnd as [|? ? Hnotin Hrest]; subst.
    destruct (String.eqb_spec k' k0) as [-> | Hne]; cbn.
    + now constructor.
    + constructor; [| now apply IH].
      rewrite assocSet_keys. intros [-> | Hin]; [now apply Hne | now apply Hnotin].
Qed.

Lemma assocSet_In (k k0 : string) (i v : V) (m : list (string * V)) :
  NoDup (map fst m) ->
  In (k, i) (assocSet k0 v m)
  <-> (k = k0 /\ i = v) \/ (k <> k0 /\ In (k, i) m).
Proof.
  induction m as [|[k' v'] m IH]; cbn; intros Hnd.
  - split.
    + intros [E | []]. injection E as <- <-. now left.
    + intros [[-> ->] | [_ []]]. now left.
  - inversion Hnd as [|? ? Hnotin Hrest]; subst.
    destruct (String.eqb_spec k' k0) as [-> | Hne]; cbn.
    + split.
      * intros [E | Hin].
        -- injection E as <- <-. now left.
        -- right. split; [| now right].
           intros ->. apply Hnotin. now apply (in_map fst _ (k0, i)).
      * intros [[-> ->] | [Hk [E | Hin]]].
        -- now left.
        -- injection E as -> _. now contradiction Hk.
        -- now right.
    + rewrite (IH Hrest). split.
      * intros [E | [[-> ->] | [Hk Hin]]].
        -- injection E as <- <-. right. split; [exact Hne | now left].
        -- now left.
        -- right. split; [exact Hk | now right].
      * intros [[-> ->] | [Hk [E | Hin]]].
        -- right. now left.
        -- now left.
        -- right. right. now split.
Qed.

End Assoc.

Lemma nth_error_updateNth {A : Type} (j : nat) (f : A -> A) (l : list A) (i : nat) :
  nth_error (updateNth j f l) i
  = if Nat.eqb i j then option_map f (nth_error l i) else nth_error l i.
Proof.
  revert j i. induction l as [|x l IH]; intros j i.
  - destruct j, i; cbn; try reflexivity. now destruct (Nat.eqb i j).
  - destruct j as [|j], i as [|i]; cbn; try reflexivity. apply IH.
Qed.

Lemma length_updateNth {A : Type} (j : nat) (f : A -> A) (l : list A) :
  List.length (updateNth j f l) = List.length l.
Proof.
  revert j. induction l as [|x l IH]; intros [|j]; cbn; try reflexivity.
  now rewrite IH.
Qed.

(** Painting twice is painting once. *)
Lemma paint_twice (b : bool) (path : element) :
  paint b (paint b path) = paint b path.
Proof.
  destruct path as [t a x c]. unfold paint, setAttribute. f_equal.
  set (o := AStr (if b then "1" else "0.95")).
  set (f := AStr (if b then BRAND_BLUE else "#c7cdd9")).
  assert (Ef : assocSet "fill" f (assocSet "opacity" o (assocSet "fill" f a))
               = assocSet "opacity" o (assocSet "fill" f a)).
  { apply assocSet_same. rewrite assocGet_set_other by discriminate.
    apply assocGet_set_same. }
  rewrite Ef. apply assocSet_same. apply assocGet_set_same.
Qed.

Lemma paint_fill (b : bool) (path : element) :
  getAttribute "fill" (paint b path)
  = Some (AStr (if b then BRAND_BLUE else "#c7cdd9")).
Proof.
  destruct path as [t a x c]. unfold paint, getAttribute, setAttribute, attrsOf.
  rewrite assocGet_set_other by discriminate. apply assocGet_set_same.
Qed.

Lemma paint_opacity (b : bool) (path : element) :
  getAttribute "opacity" (paint b path)
  = Some (AStr (if b then "1" else "0.95")).
Proof.
  destruct path as [t a x c]. unfold paint, getAttribute, setAttribute, attrsOf.
  apply assocGet_set_same.
Qed.

(** The loop of [setSelected], position by position. *)
Section Repaint.

Variable cd : string.

Let step (paths : list element) (entry : string * nat) : list element :=
  updateNth (snd entry) (paint (String.eqb (fst entry) cd)) paths.

Lemma repaint_untouched (m : list (string * nat)) (paths : list element) (i : nat) :
  ~ In i (map snd m) ->
  nth_error (fold_left step m paths) i = nth_error paths i.
Proof.
  revert paths. induction m as [|[k j] m IH]; intros paths Hnot; cbn.
  - reflexivity.
  - rewrite IH by (intros Hin; apply Hnot; now right).
    unfold step. cbn [fst snd]. rewrite nth_error_updateNth.
    destruct (Nat.eqb_spec i j) as [-> | _]; [| reflexivity].
    exfalso. apply Hnot. now left.
Qed.

Lemma repaint_kept (m : list (string * nat)) (paths : list element)
    (k : string) (i : nat) :
  NoDup (map snd m) -> In (k, i) m ->
  nth_error (fold_left step m paths) i
  = option_map (paint (String.eqb k cd)) (nth_error paths i).
Proof.
  revert paths. induction m as [|[k' j] m IH]; intros paths Hnd Hin.
  - destruct Hin.
  - cbn [map snd] in Hnd. inversion Hnd as [|? ? Hnotin Hrest]; subst.
    cbn [fold_left]. destruct Hin as [E | Hin].
    + injection E as -> ->.
      rewrite repaint_untouched by exact Hnotin.
      unfold step. cbn [fst snd]. rewrite nth_error_updateNth.
      now rewrite Nat.eqb_refl.
    + rewrite (IH _ Hrest Hin). unfold step. cbn [fst snd].
      rewrite nth_error_updateNth.
      destruct (Nat.eqb_spec i j) as [-> | _]; [| reflexivity].
      exfalso. apply Hnotin. now apply (in_map snd _ (k, j)).
Qed.

Lemma repaint_length (m : list (string * nat)) (paths : list element) :
  List.length (fold_left step m paths) = List.length paths.
Proof.
  revert paths. induction m as [|e m IH]; intros paths; cbn; [reflexivity |].
  rewrite IH. apply length_updateNth.
Qed.

End Repaint.

(** Two entries of a map with distinct keys never share a value when a
    value determines its key. *)
Lemma values_NoDup (m : list (string * nat)) :
  NoDup (map fst m) ->
  (forall k k' i, In (k, i) m -> In (k', i) m -> k = k') ->
  NoDup (map snd m).
Proof.
  induction m as [|[k i] m IH]; cbn; intros Hnd Hinj; [constructor |].
  inversion Hnd as [|? ? Hnotin Hrest]; subst. constructor.
  - intros Hin. apply in_map_iff in Hin as ([k' i'] & E & Hin'). cbn in E. subst i'.
    assert (k = k') by (apply (Hinj k k' i); [now left | now right]). subst k'.
    apply Hnotin. now apply (in_map fst _ (k, i)).
  - apply IH; [exact Hrest |].
    intros k1 k2 j H1 H2. apply (Hinj k1 k2 j); now right.
Qed.

Lemma given_spec (cd : option string) :
  given cd = true <-> exists k, cd = Some k /\ k <> ""%string.
Proof.
  destruct cd as [k |]; cbn.
  - destruct (String.eqb_spec k ""); cbn; split.
    + discriminate.
    + intros (k' & E & Hne). injection E as <-. contradiction.
    + intros _. now exists k.
    + reflexivity.
  - split; [discriminate | intros (k & E & _); discriminate].
Qed.

Lemma keeps_snoc_given (done : list Feature) (feat : Feature) (k0 k : string) (i : nat) :
  codeOf feat = Some k0 -> k0 <> ""%string ->
  keeps (done ++ [feat]) i k
  <-> (k = k0 /\ i = List.length done) \/ (k <> k0 /\ keeps done i k).
Proof.
  intros Hcode Hk0. unfold keeps. rewrite map_app. cbn [map]. rewrite Hcode.
  assert (Hlen : List.length (map codeOf done) = List.length done)
    by apply length_map.
  split.
  - intros (Hk & Hi & Hlater).
    destruct (Nat.lt_ge_cases i (List.length done)) as [Hlt | Hge].
    + right. rewrite nth_error_app1 in Hi by lia.
      assert (Hne : k <> k0).
      { intros ->. apply (Hlater (List.length done) Hlt).
        rewrite nth_error_app2 by lia. rewrite Hlen, Nat.sub_diag. reflexivity. }
      repeat split; try assumption.
      intros j Hj E. apply (Hlater j Hj).
      rewrite nth_error_app1; [exact E |].
      apply nth_error_Some. rewrite E. discriminate.
    + left. rewrite nth_error_app2 in Hi by lia. rewrite Hlen in Hi.
      destruct (i - List.length done)%nat as [|d] eqn:Ed.
      * cbn in Hi. injection Hi as <-. split; [reflexivity | lia].
      * cbn in Hi. destruct d; discriminate.
  - intros [[-> ->] | (Hne & Hk & Hi & Hlater)].
    + repeat split; [exact Hk0 | |].
      * rewrite nth_error_app2 by lia. rewrite Hlen, Nat.sub_diag. reflexivity.
      * intros j Hj. rewrite nth_error_app2 by lia. rewrite Hlen.
        destruct (j - List.length done)%nat as [|d] eqn:Ed; [lia |].
        cbn. destruct d; discriminate.
    + assert (Hlt : (i < List.length done)%nat).
      { rewrite <- Hlen. apply nth_error_Some. rewrite Hi. discriminate. }
      repeat split; [exact Hk | |].
      * now rewrite nth_error_app1 by lia.
      * intros j Hj.
        destruct (Nat.lt_ge_cases j (List.length done)) as [Hjlt | Hjge].
        -- rewrite nth_error_app1 by lia. now apply Hlater.
        -- rewrite nth_error_app2 by lia. rewrite Hlen.
           destruct (j - List.length done)%nat as [|d]; cbn.
           ++ intros E. injection E as <-. now apply Hne.
           ++ destruct d; discriminate.
Qed.

Lemma keeps_snoc_missing (done : list Feature) (feat : Feature) (k : string) (i : nat) :
  given (codeOf feat) = false ->
  keeps (done ++ [feat]) i k <-> keeps done i k.
Proof.
  intros Hcode. unfold keeps. rewrite map_app. cbn [map].
  assert (Hlen : List.length (map codeOf done) = List.length done)
    by apply length_map.
  assert (Hnot : k <> ""%string -> codeOf feat <> Some k).
  { intros Hk E. rewrite E in Hcode. cbn in Hcode.
    destruct (String.eqb_spec k ""); [contradiction | discriminate]. }
  split.
  - intros (Hk & Hi & Hlater).
    destruct (Nat.lt_ge_cases i (List.length done)) as [Hlt | Hge].
    + rewrite nth_error_app1 in Hi by lia. repeat split; try assumption.
      intros j Hj E. apply (Hlater j Hj).
      rewrite nth_error_app1; [exact E |].
      apply nth_error_Some. rewrite E. discriminate.
    + exfalso. rewrite nth_error_app2 in Hi by lia. rewrite Hlen in Hi.
      destruct (i - List.length done)%nat as [|d].
      * cbn in Hi. injection Hi as E. now apply (Hnot Hk).
      * cbn in Hi. destruct d; discriminate.
  - intros (Hk & Hi & Hlater).
    assert (Hlt : (i < List.length done)%nat).
    { rewrite <- Hlen. apply nth_error_Some. rewrite Hi. discriminate. }
    repeat split; [exact Hk | |].
    + now rewrite nth_error_app1 by lia.
    + intros j Hj.
      destruct (Nat.lt_ge_cases j (List.length done)) as [Hjlt | Hjge].
      * rewrite nth_error_app1 by lia. now apply Hlater.
      * rewrite nth_error_app2 by lia. rewrite Hlen.
        destruct (j - List.length done)%nat as [|d]; cbn.
        -- intros E. injection E as E. now apply (Hnot Hk).
        -- destruct d; discriminate.
Qed.

Section MapInvariant.

Context {host : Host}.
Variable proj : Projection.

Lemma renderFeature_inv (done : list Feature) (feat : Feature) (h h' : MapHandle) :
  mapInv done h -> renderFeature proj feat h = Ok h' ->
  mapInv (done ++ [feat]) h'.
Proof.
  intros [Hlen Hkeys Hkept Hfresh]. unfold renderFeature.
  destruct (geomToPath (geometry feat) (project proj)) as [pathD | e];
    [| discriminate].
  cbn [bind]. intros E. injection E as <-.
  fold (codeOf feat). split; cbn [shapes pathsByCd].
  - rewrite !length_app. cbn. now rewrite Hlen.
  - destruct (given (codeOf feat)); [now apply assocSet_NoDup | exact Hkeys].
  - intros k i. destruct (given (codeOf feat)) eqn:Hg.
    + apply given_spec in Hg as (k0 & Hcode & Hk0).
      rewrite Hcode. cbn [orText].
      destruct (String.eqb_spec k0 ""); [contradiction |].
      rewrite (assocSet_In k k0 i (List.length (shapes h)) _ Hkeys).
      rewrite (keeps_snoc_given done feat k0 k i Hcode Hk0).
      rewrite Hlen, Hkept. reflexivity.
    + rewrite (keeps_snoc_missing done feat k i Hg). apply Hkept.
  - apply Forall_app. split; [exact Hfresh |].
    constructor; [| constructor]. split; reflexivity.
Qed.

Lemma renderFeatures_inv (feats done : list Feature) (h h' : MapHandle) :
  mapInv done h -> foldM (renderFeature proj) feats h = Ok h' ->
  mapInv (done ++ feats) h'.
Proof.
  revert done h. induction feats as [|feat feats IH]; intros done h Hinv; cbn.
  - intros E. injection E as <-. now rewrite app_nil_r.
  - destruct (renderFeature proj feat h) as [h1 | e] eqn:E1; [| discriminate].
    cbn [bind]. intros E.
    replace (done ++ feat :: feats)%list with ((done ++ [feat]) ++ feats)%list
      by (rewrite <- app_assoc; reflexivity).
    apply (IH _ h1); [| exact E].
    now apply (renderFeature_inv done feat h).
Qed.

End MapInvariant.

Lemma mapInv_start : mapInv [] {| shapes := []; pathsByCd := [] |}.
Proof.
  split; cbn.
  - reflexivity.
  - constructor.
  - intros k i. split; [intros [] |].
    intros (_ & E & _). destruct i; discriminate.
  - constructor.
Qed.

Lemma renderMap_inv {host : Host} (geo : FeatureCollection) (h : MapHandle) :
  renderMap geo = Ok h -> mapInv (features geo) h.
Proof.
  unfold renderMap.
  destruct (buildGeoProjection geo (Fin 1000) (Fin 680)) as [proj | e];
    [| discriminate].
  cbn [bind]. intros E.
  exact (renderFeatures_inv proj (features geo) [] _ h mapInv_start E).
Qed.

Lemma mapInv_values (done : list Feature) (h : MapHandle) :
  mapInv done h -> NoDup (map snd (pathsByCd h)).
Proof.
  intros [_ Hkeys Hkept _]. apply values_NoDup; [exact Hkeys |].
  intros k k' i H1 H2.
  apply Hkept in H1 as (_ & E1 & _). apply Hkept in H2 as (_ & E2 & _).
  congruence.
Qed.

Lemma selected_shapes (h : MapHandle) (cd : string) :
  shapes (setSelected h cd)
  = fold_left (fun paths entry =>
                 updateNth (snd entry) (paint (String.eqb (fst entry) cd)) paths)
              (pathsByCd h) (shapes h).
Proof. reflexivity. Qed.

Lemma handle_eq (h1 h2 : MapHandle) :
  shapes h1 = shapes h2 -> pathsByCd h1 = pathsByCd h2 -> h1 = h2.
Proof. destruct h1, h2. cbn. now intros -> ->. Qed.

Section Selection.

Context {host : Host}.
Variables (geo : FeatureCollection) (h : MapHandle) (cd : string).
Hypothesis Hbuilt : renderMap geo = Ok h.

Lemma selected_kept (i : nat) (k : string) (path : element) :
  nth_error (shapes h) i = Some path -> keeps (features geo) i k ->
  nth_error (shapes (setSelected h cd)) i = Some (paint (String.eqb k cd) path).
Proof.
  intros Hpath Hkeeps. pose proof (renderMap_inv geo h Hbuilt) as Hinv.
  rewrite selected_shapes.
  rewrite (repaint_kept cd (pathsByCd h) (shapes h) k i
             (mapInv_values _ _ Hinv) (proj2 (inv_kept _ _ Hinv k i) Hkeeps)).
  now rewrite Hpath.
Qed.

Lemma unkept_untouched (i : nat) :
  (forall k, ~ keeps (features geo) i k) -> ~ In i (map snd (pathsByCd h)).
Proof.
  intros Hnone Hin. pose proof (renderMap_inv geo h Hbuilt) as Hinv.
  apply in_map_iff in Hin as ([k j] & E & Hin). cbn in E. subst j.
  apply (Hnone k). now apply (inv_kept _ _ Hinv).
Qed.

Lemma selected_unkept (i : nat) (path : element) :
  nth_error (shapes h) i = Some path ->
  (forall k, ~ keeps (features geo) i k) ->
  nth_error (shapes (setSelected h cd)) i = Some path /\ unpainted path.
Proof.
  intros Hpath Hnone. pose proof (renderMap_inv geo h Hbuilt) as Hinv. split.
  - rewrite selected_shapes.
    rewrite (repaint_untouched cd (pathsByCd h) (shapes h) i
               (unkept_untouched i Hnone)).
    exact Hpath.
  - pose proof (inv_fresh _ _ Hinv) as Hfresh.
    rewrite Forall_forall in Hfresh. apply Hfresh.
    now apply (nth_error_In _ i).
Qed.

(** Every position is kept under some code or under none. *)
Lemma kept_or_not (i : nat) :
  (exists k, keeps (features geo) i k) \/ (forall k, ~ keeps (features geo) i k).
Proof.
  pose proof (renderMap_inv geo h Hbuilt) as Hinv.
  destruct (in_dec Nat.eq_dec i (map snd (pathsByCd h))) as [Hin | Hnot].
  - left. apply in_map_iff in Hin as ([k j] & E & Hin). cbn in E. subst j.
    exists k. now apply (inv_kept _ _ Hinv).
  - right. intros k Hk. apply Hnot.
    apply (in_map snd _ (k, i)). now apply (inv_kept _ _ Hinv).
Qed.

Lemma selected_twice :
  setSelected (setSelected h cd) cd = setSelected h cd.
Proof.
  pose proof (renderMap_inv geo h Hbuilt) as Hinv.
  pose proof (mapInv_values _ _ Hinv) as Hnd.
  apply handle_eq; [| reflexivity].
  rewrite (selected_shapes (setSelected h cd) cd).
  change (pathsByCd (setSelected h cd)) with (pathsByCd h).
  apply nth_error_ext. intros i.
  destruct (in_dec Nat.eq_dec i (map snd (pathsByCd h))) as [Hin | Hnot].
  - apply in_map_iff in Hin as ([k j] & E & Hin). cbn in E. subst j.
    rewrite (repaint_kept cd (pathsByCd h) _ k i Hnd Hin).
    rewrite (selected_shapes h cd).
    rewrite (repaint_kept cd (pathsByCd h) _ k i Hnd Hin).
    destruct (nth_error (shapes h) i) as [path |]; [| reflexivity].
    cbn. now rewrite paint_twice.
  - rewrite (repaint_untouched cd (pathsByCd h) _ i Hnot). reflexivity.
Qed.

Lemma selected_unknown :
  (forall feat, In feat (features geo) -> codeOf feat <> Some cd) ->
  Forall (fun path => getAttribute "fill" path = Some (AStr "#c7cdd9"))
         (shapes (setSelected h cd)).
Proof.
  intros Hunknown. apply Forall_forall. intros path' Hin.
  apply In_nth_error in Hin as (i & Hi).
  assert (Hlen : List.length (shapes (setSelected h cd)) = List.length (shapes h))
    by (rewrite selected_shapes; apply repaint_length).
  destruct (nth_error (shapes h) i) as [path |] eqn:Hpath.
  - destruct (kept_or_not i) as [(k & Hk) | Hnone].
    + rewrite (selected_kept i k path Hpath Hk) in Hi. injection Hi as <-.
      rewrite paint_fill.
      destruct (String.eqb_spec k cd) as [-> | _]; [| reflexivity].
      exfalso. destruct Hk as (_ & E & _).
      rewrite nth_error_map in E.
      destruct (nth_error (features geo) i) as [feat |] eqn:Ef; [| discriminate].
      cbn in E. injection E as E.
      apply (Hunknown feat); [now apply (nth_error_In _ i) | exact E].
    + destruct (selected_unkept i path Hpath Hnone) as [E [Hfill _]].
      rewrite E in Hi. injection Hi as <-. exact Hfill.
  - exfalso. apply nth_error_None in Hpath.
    assert (Hsome : nth_error (shapes (setSelected h cd)) i <> None)
      by (rewrite Hi; discriminate).
    apply nth_error_Some in Hsome. lia.
Qed.

End Selection.

(** C5, as the code has it: on a handle returned by the region map
    renderer, [setSelected(id)] gives the highlight colour at full opacity to
    the path that the handle keeps for [id] (the last feature carrying that
    code), and the default colour at opacity 0.95 to every other path that
    it keeps for a code; a path of a feature without a code, or with a code
    that a later feature carries too, is left as it was drawn, in the
    default colour with no opacity attribute.  Calling it twice with the
    same code leaves the state of calling it once, and a code that no
    feature carries leaves every path in the default colour. *)
Theorem setSelected_repaints {host : Host}
    (geo : FeatureCollection) (h : MapHandle) (cd : string) :
  renderMap geo = Ok h ->
  List.length (shapes (setSelected h cd)) = List.length (features geo)
  /\ (forall (i : nat) (k : string) (path : element),
        nth_error (shapes h) i = Some path -> keeps (features geo) i k ->
        nth_error (shapes (setSelected h cd)) i
        = Some (paint (String.eqb k cd) path)
        /\ getAttribute "fill" (paint (String.eqb k cd) path)
           = Some (AStr (if String.eqb k cd then BRAND_BLUE else "#c7cdd9"))
        /\ getAttribute "opacity" (paint (String.eqb k cd) path)
           = Some (AStr (if String.eqb k cd then "1" else "0.95")))
  /\ (forall (i : nat) (path : element),
        nth_error (shapes h) i = Some path ->
        (forall k, ~ keeps (features geo) i k) ->
        nth_error (shapes (setSelected h cd)) i = Some path
        /\ unpainted path)
  /\ setSelected (setSelected h cd) cd = setSelected h cd
  /\ ((forall feat, In feat (features geo) -> codeOf feat <> Some cd) ->
      Forall (fun path => getAttribute "fill" path = Some (AStr "#c7cdd9"))
             (shapes (setSelected h cd))).
Proof.
  intros Hbuilt. pose proof (renderMap_inv geo h Hbuilt) as Hinv.
  split; [| split; [| split; [| split]]].
  - rewrite selected_shapes, repaint_length. apply (inv_length _ _ Hinv).
  - intros i k path Hpath Hk. split; [| split].
    + now apply (selected_kept geo h cd Hbuilt).
    + apply paint_fill.
    + apply paint_opacity.
  - intros i path Hpath Hnone. now apply (selected_unkept geo h cd Hbuilt).
  - now apply (selected_twice geo h cd Hbuilt).
  - now apply (selected_unknown geo h cd Hbuilt).
Qed.

(** ** Series chart renderers *)

(** A tick loop whose first [count] ticks are within the limit and whose
    next tick is past it draws exactly those, with any fuel from [count]
    on. *)
Lemma tickLoop_run (count extra : nat) (t limit step : num)
    (body : num -> list element) :
  Forall (fun v => (v <=? limit)%num = true) (tickValues count t step) ->
  (tickAt count t step <=? limit)%num = false ->
  tickLoop (count + extra) t limit step body
  = Some (flat_map body (tickValues count t step)).
Proof.
  revert t. induction count as [|count IH]; intros t Hin Hout.
  - cbn in Hout. cbn [tickValues flat_map]. destruct extra; cbn; now rewrite Hout.
  - cbn [tickValues] in Hin. inversion Hin as [|? ? Ht Hrest]; subst.
    cbn [Nat.add tickLoop tickValues flat_map]. rewrite Ht.
    rewrite (IH (t + step)%num Hrest Hout). reflexivity.
Qed.

Section Charts.

Context {host : Host}.

(** *** The empty series *)

Lemma referrals_empty_axis :
  Referrals.step [] = Fin 0.05 /\ Referrals.yMax [] = Fin 0.05.
Proof.
  assert (Es : Referrals.step [] = Fin 0.05).
  { unfold Referrals.step, Referrals.maxVal. cbn. reflexivity. }
  split; [exact Es |].
  unfold Referrals.yMax. rewrite Es.
  unfold Referrals.maxVal. cbn [Referrals.dataM map flat_map Num.maxList fold_left].
  num_eval. reflexivity.
Qed.


Lemma sessions_gridlines (extra : nat) :
  Sessions.gridlines (10 + extra)
  = Some (flat_map Sessions.gridline
            (tickValues 10 Sessions.yMin Sessions.yStep)).
Proof.
  unfold Sessions.gridlines. apply tickLoop_run.
  - unfold Sessions.yMin, Sessions.yMax, Sessions.yStep.
    cbn [tickValues]. num_eval. repeat constructor; num_eval; reflexivity.
  - unfold Sessions.yMin, Sessions.yMax, Sessions.yStep.
    cbn [tickAt]. num_eval. reflexivity.
Qed.


(** *** The single-line renderer: a fixed axis *)

(** C8, as the code has it: the axis range and the gridline step of the
    single-line renderer are constants fixed inside the renderer (7.6, 8.5
    and 0.1), not arguments of the call and not derived from the data: the
    renderer draws what a renderer taking the range as arguments draws when
    called with these three numbers, its ten gridlines are at 7.6, 7.7, ...,
    8.5, any two series get the same background, gridlines and axes, and
    the vertical position of a value is one fixed affine function. *)
Theorem sessions_axis_is_fixed (extra : nat)
    (series1 series2 : option (list Sessions.row)) :
  Sessions.gridlines (10 + extra)
  = gridlinesWith (Fin 7.6) (Fin 8.5) (Fin 0.1) (10 + extra)
  /\ Sessions.gridlines (10 + extra)
     = Some (flat_map Sessions.gridline (tickValues 10 (Fin 7.6) (Fin 0.1)))
  /\ (exists frame : list element,
        Sessions.renderSessionsChart (10 + extra) series1
        = Some (frame ++ Sessions.xLabels (Sessions.data series1)
                      ++ Sessions.marks (Sessions.data series1))%list
        /\ Sessions.renderSessionsChart (10 + extra) series2
           = Some (frame ++ Sessions.xLabels (Sessions.data series2)
                         ++ Sessions.marks (Sessions.data series2))%list)
  /\ forall v : R,
       Sessions.yScale (Fin v)
       = Fin (40 + (1 - (v - 7.6) / (8.5 - 7.6)) * (680 - 40 - 70)).
Proof.
  split; [reflexivity |]. split; [apply sessions_gridlines |]. split.
  - exists (Sessions.background
            :: flat_map Sessions.gridline
                 (tickValues 10 Sessions.yMin Sessions.yStep)
            ++ Sessions.axes)%list.
    unfold Sessions.renderSessionsChart. rewrite sessions_gridlines.
    cbn [option_map]. split; f_equal; cbn [app]; f_equal;
      now rewrite <- !app_assoc.
  - intros v. unfold Sessions.yScale, Sessions.yMin, Sessions.yMax,
      Sessions.innerH, Sessions.H, Sessions.margin.
    cbn [top bottom]. num_eval. reflexivity.
Qed.

End Charts.

(** *** The grouped-bar renderer: the axis fitted to the data *)

Lemma max_fin (a b : R) : Num.max (Fin a) (Fin b) = Fin (Rmax a b).
Proof.
  unfold Num.max, Num.le, Rleb, Rmax. now destruct (Rle_dec a b).
Qed.

Lemma maxList_fin (l : list R) (a : R) :
  fold_left Num.max (map Fin l) (Fin a) = Fin (fold_left Rmax l a).
Proof.
  revert a. induction l as [|x l IH]; intros a; cbn [map fold_left].
  - reflexivity.
  - rewrite max_fin. apply IH.
Qed.

(** The running maximum is an element and bounds every element. *)
Lemma fold_Rmax_spec (l : list R) (a : R) :
  In (fold_left Rmax l a) (a :: l)
  /\ forall x, In x (a :: l) -> x <= fold_left Rmax l a.
Proof.
  revert a. induction l as [|y l IH]; intros a; cbn [fold_left].
  - split; [now left |]. intros x [<- | []]. lra.
  - destruct (IH (Rmax a y)) as [Hin Hle]. split.
    + destruct Hin as [E | Hin]; [| now right; right].
      rewrite <- E. unfold Rmax. destruct (Rle_dec a y); [right; now left | now left].
    + intros x [<- | [<- | Hx]].
      * apply Rle_trans with (Rmax a y); [apply Rmax_l | apply Hle; now left].
      * apply Rle_trans with (Rmax a y); [apply Rmax_r | apply Hle; now left].
      * apply Hle. now right.
Qed.

Lemma listMax_spec (l : list R) :
  l <> [] -> In (listMax l) l /\ forall x, In x l -> x <= listMax l.
Proof.
  destruct l as [|a l]; [contradiction |]. intros _. apply fold_Rmax_spec.
Qed.

Lemma withZeros_In (s : list Period) (x : R) :
  In x (withZeros s) <-> (s <> [] /\ x = 0) \/ In x (observed s).
Proof.
  unfold withZeros, observed. induction s as [|p s IH]; cbn [flat_map app In].
  - split; [intros [] | intros [[H _] | []]; now contradiction H].
  - rewrite IH. split.
    + intros [E | [E | [E | [[Hs E] | Hin]]]].
      * right. left. exact E.
      * right. right. left. exact E.
      * left. split; [discriminate | symmetry; exact E].
      * left. split; [discriminate | exact E].
      * right. right. right. exact Hin.
    + intros [[_ E] | [E | [E | Hin]]].
      * right. right. left. symmetry. exact E.
      * left. exact E.
      * right. left. exact E.
      * right. right. right. right. exact Hin.
Qed.

Lemma dataM_series (s : list Period) :
  flat_map (fun d => [Referrals.referralsM d; Referrals.accessedM d; Fin 0])
           (Referrals.dataM (series s))
  = map Fin (withZeros s).
Proof.
  unfold withZeros, series, Referrals.dataM.
  induction s as [|p s IH]; cbn [map flat_map app]; [reflexivity |].
  rewrite IH. cbn [Referrals.referralsM Referrals.accessedM periodRow
                   Referrals.referrals Referrals.accessed].
  num_eval. reflexivity.
Qed.

(** The maximum that the renderer computes, against the observed one. *)
Lemma maxVal_series (s : list Period) :
  s <> [] ->
  exists M : R,
    Referrals.maxVal (series s) = Fin M
    /\ observedMax s <= M
    /\ (M = 0 \/ M <= observedMax s).
Proof.
  intros Hs. unfold Referrals.maxVal. rewrite dataM_series.
  assert (Hobs : observed s <> []).
  { destruct s as [|p s]; [contradiction | discriminate]. }
  destruct (listMax_spec (observed s) Hobs) as [Hmin Hmle].
  assert (Hz : withZeros s <> []).
  { destruct s as [|p s]; [contradiction | discriminate]. }
  destruct (listMax_spec (withZeros s) Hz) as [HMin HMle].
  exists (listMax (withZeros s)). split; [| split].
  - unfold Num.maxList. destruct (withZeros s) as [|x l]; [contradiction |].
    cbn [map fold_left listMax].
    change (Num.max NInf (Fin x)) with (Fin x). apply maxList_fin.
  - apply HMle. apply withZeros_In. right. exact Hmin.
  - apply withZeros_In in HMin as [[_ E] | Hin]; [now left |].
    right. now apply Hmle.
Qed.

Section BarAxis.

Context {host : Host}.

(** The axis of a non-empty series of finite values. *)
Lemma axis_fits_series (s : list Period) :
  s <> [] ->
  Referrals.step (series s) = Fin (niceStep (observedMax s))
  /\ (niceStep (observedMax s) = 0.05 \/ niceStep (observedMax s) = 0.1
      \/ niceStep (observedMax s) = 0.2 \/ niceStep (observedMax s) = 0.5)
  /\ exists k : Z,
       (1 <= k)%Z
       /\ Referrals.yMax (series s) = Fin (IZR k * niceStep (observedMax s))
       /\ 1.12 * observedMax s <= IZR k * niceStep (observedMax s).
Proof.
  intros Hs. destruct (maxVal_series s Hs) as (M & EM & Hle & Hge).
  set (m := observedMax s) in *.
  assert (Hstep : Referrals.step (series s) = Fin (niceStep m)).
  { unfold Referrals.step. rewrite EM. cbn [Num.le]. unfold niceStep.
    destruct (Rle_dec m 0.2); [decide_R; reflexivity |].
    rewrite (Rleb_false M 0.2) by lra.
    destruct (Rle_dec m 0.5); [decide_R; reflexivity |].
    rewrite (Rleb_false M 0.5) by lra.
    destruct (Rle_dec m 1.0); [decide_R; reflexivity |].
    rewrite (Rleb_false M 1.0) by lra. reflexivity. }
  assert (Hset : niceStep m = 0.05 \/ niceStep m = 0.1
                 \/ niceStep m = 0.2 \/ niceStep m = 0.5).
  { unfold niceStep. repeat destruct (Rle_dec _ _); auto. }
  assert (Hpos : 0 < niceStep m) by (destruct Hset as [-> | [-> | [-> | ->]]]; lra).
  split; [exact Hstep |]. split; [exact Hset |].
  set (st := niceStep m) in *.
  set (c := Zceil (M * 1.12 / st)).
  assert (Hc : M * 1.12 <= IZR c * st).
  { pose proof (Zceil_bound (M * 1.12 / st)) as [_ Hb]. fold c in Hb.
    apply Rmult_le_compat_r with (r := st) in Hb; [| lra].
    replace (M * 1.12 / st * st) with (M * 1.12) in Hb by (field; lra).
    exact Hb. }
  assert (EyMax : Referrals.yMax (series s)
                  = if Rleb st (IZR c * st) then Fin (IZR c * st) else Fin st).
  { unfold Referrals.yMax. rewrite Hstep, EM. fold st.
    cbn [Num.mul Num.div]. rewrite (Reqb_false st 0) by lra.
    cbn [Num.ceil Num.mul]. fold c. reflexivity. }
  rewrite EyMax. destruct (Rle_dec st (IZR c * st)) as [Hbig | Hsmall].
  - rewrite (Rleb_true _ _ Hbig). exists c. split; [| split].
    + apply le_IZR. nra.
    + reflexivity.
    + lra.
  - rewrite (Rleb_false st (IZR c * st)) by lra. exists 1%Z. split; [| split].
    + lia.
    + f_equal. ring.
    + lra.
Qed.

(** *** The bars *)

Lemma bars_tags (rows : list Referrals.row) (i : nat) (l : list Referrals.rowM) :
  map tagOf (indexLoop (Referrals.group rows) i l)
  = flat_map (fun _ => ["rect"; "rect"; "text"]%string) l.
Proof.
  revert i. induction l as [|d l IH]; intros i; cbn [indexLoop flat_map].
  - reflexivity.
  - rewrite map_app, IH. reflexivity.
Qed.

Lemma step_positive (rows : list Referrals.row) :
  exists st : R, Referrals.step rows = Fin st /\ 0 < st.
Proof.
  unfold Referrals.step. repeat destruct (Num.le _ _); eexists; split;
    try reflexivity; lra.
Qed.

Lemma yMax_positive (rows : list Referrals.row) (Y : R) :
  Referrals.yMax rows = Fin Y -> 0 < Y.
Proof.
  unfold Referrals.yMax. destruct (step_positive rows) as (st & -> & Hst).
  destruct (Num.ceil (Referrals.maxVal rows * 1.12 / st) * st)%num as [c| | |];
    cbn [Num.max Num.le]; try discriminate.
  - unfold Rleb. destruct (Rle_dec st c); intros E; injection E as <-; lra.
  - intros E. injection E as <-. exact Hst.
Qed.

Lemma max_nan_r (x : num) : Num.max x NaN = NaN.
Proof. now destruct x. Qed.

Lemma maxList_nan (l : list num) (a : num) :
  In NaN l -> fold_left Num.max l a = NaN.
Proof.
  revert a. induction l as [|x l IH]; intros a; [intros [] |].
  cbn [fold_left]. intros [-> | Hin]; [| now apply IH].
  rewrite max_nan_r. clear IH. induction l as [|y l IH]; [reflexivity | exact IH].
Qed.

Lemma maxVal_missing (rows : list Referrals.row) (row : Referrals.row) :
  In row rows ->
  toNumber (Referrals.referrals row) = NaN
  \/ toNumber (Referrals.accessed row) = NaN ->
  Referrals.maxVal rows = NaN.
Proof.
  intros Hin Hnan.
  unfold Referrals.maxVal, Num.maxList. apply maxList_nan.
  apply in_flat_map.
  exists {| Referrals.yearM := Referrals.year row;
            Referrals.referralsM := (toNumber (Referrals.referrals row) / 1e6)%num;
            Referrals.accessedM := (toNumber (Referrals.accessed row) / 1e6)%num |}.
  split.
  - unfold Referrals.dataM.
    apply (in_map (fun d => {| Referrals.yearM := Referrals.year d;
                               Referrals.referralsM := (toNumber (Referrals.referrals d) / 1e6)%num;
                               Referrals.accessedM := (toNumber (Referrals.accessed d) / 1e6)%num |})).
    exact Hin.
  - cbn [Referrals.referralsM Referrals.accessedM].
    destruct Hnan as [-> | ->]; cbn; auto.
Qed.

Lemma yMax_missing (rows : list Referrals.row) (row : Referrals.row) :
  In row rows ->
  toNumber (Referrals.referrals row) = NaN
  \/ toNumber (Referrals.accessed row) = NaN ->
  Referrals.yMax rows = NaN.
Proof.
  intros Hin Hnan. pose proof (maxVal_missing rows row Hin Hnan) as EM.
  unfold Referrals.yMax, Referrals.step. rewrite EM. reflexivity.
Qed.

(** C4, as the code has it: for a non-empty series whose values are all
    finite numbers, the gridline step of the grouped-bar renderer is the one
    of 0.05, 0.1, 0.2 and 0.5 that the threshold table gives for the maximum
    observed value in millions (at most 0.2, at most 0.5, at most 1.0,
    above), and the axis maximum is a positive integer multiple of that step
    and at least 1.12 times the maximum observed value.  It does not hold of
    every non-empty series: as soon as one value of the series is missing
    ([undefined]) or converts to no number, the maximum is [NaN], every
    threshold test fails, so the step is 0.5, and the axis maximum is
    [NaN]. *)
Theorem referrals_axis_fits (rows : list Referrals.row) :
  rows <> [] ->
  (forall s : list Period,
     rows = series s ->
     Referrals.step rows = Fin (niceStep (observedMax s))
     /\ (niceStep (observedMax s) = 0.05 \/ niceStep (observedMax s) = 0.1
         \/ niceStep (observedMax s) = 0.2 \/ niceStep (observedMax s) = 0.5)
     /\ exists k : Z,
          (1 <= k)%Z
          /\ Referrals.yMax rows = Fin (IZR k * niceStep (observedMax s))
          /\ 1.12 * observedMax s <= IZR k * niceStep (observedMax s))
  /\ (forall row : Referrals.row,
        In row rows ->
        toNumber (Referrals.referrals row) = NaN
        \/ toNumber (Referrals.accessed row) = NaN ->
        Referrals.maxVal rows = NaN
        /\ Referrals.step rows = Fin 0.5
        /\ Referrals.yMax rows = NaN).
Proof.
  intros Hrows. split.
  - intros s E. subst rows. apply axis_fits_series.
    intros ->. now apply Hrows.
  - intros row Hin Hnan. pose proof (maxVal_missing rows row Hin Hnan) as EM.
    split; [exact EM |]. split; [| exact (yMax_missing rows row Hin Hnan)].
    unfold Referrals.step. rewrite EM. reflexivity.
Qed.

(** A finite maximum of the values gives a finite axis maximum. *)
Lemma yMax_finite (rows : list Referrals.row) (M : R) :
  Referrals.maxVal rows = Fin M -> exists Y : R, Referrals.yMax rows = Fin Y.
Proof.
  intros EM. unfold Referrals.yMax.
  destruct (step_positive rows) as (st & -> & Hst). rewrite EM.
  cbn [Num.mul Num.div]. rewrite (Reqb_false st 0) by lra.
  cbn [Num.ceil Num.mul Num.max Num.le].
  destruct (Rleb st _); eexists; reflexivity.
Qed.

Lemma yMax_series_finite (s : list Period) :
  exists Y : R, Referrals.yMax (series s) = Fin Y.
Proof.
  destruct s as [|p s].
  - exists 0.05. unfold Referrals.yMax, Referrals.step, Referrals.maxVal.
    cbn [series map Referrals.dataM flat_map Num.maxList fold_left].
    num_eval. reflexivity.
  - destruct (maxVal_series (p :: s) ltac:(discriminate)) as (M & EM & _).
    exact (yMax_finite (series (p :: s)) M EM).
Qed.


End BarAxis.

(** ** Clamping, slide navigation and the adoption setting *)

Lemma min_fin (a b : R) : Num.min (Fin a) (Fin b) = Fin (Rmin a b).
Proof.
  unfold Num.min, Num.le, Rleb, Rmin. now destruct (Rle_dec a b).
Qed.

Lemma clamp_fin (v a b : R) :
  clamp (Fin v) (Fin a) (Fin b) = Fin (Rmax a (Rmin b v)).
Proof. unfold clamp. now rewrite min_fin, max_fin. Qed.

Lemma clamp_inside (v a b : R) :
  a <= v <= b -> clamp (Fin v) (Fin a) (Fin b) = Fin v.
Proof.
  intros [Ha Hb]. rewrite clamp_fin. f_equal.
  rewrite Rmin_right by exact Hb. now apply Rmax_right.
Qed.

(** [clamp] between two finite bounds gives a finite number. *)
Lemma clamp_finite (v : num) (a b : R) :
  a <= b -> v <> NaN ->
  exists r : R, clamp v (Fin a) (Fin b) = Fin r /\ a <= r <= b.
Proof.
  intros Hab Hv. destruct v as [x | | |]; [| | | contradiction].
  - exists (Rmax a (Rmin b x)). rewrite clamp_fin. split; [reflexivity |].
    split; [apply Rmax_l |].
    apply Rmax_lub; [exact Hab | apply Rmin_l].
  - exists b. unfold clamp. num_eval. split; [reflexivity | lra].
  - exists a. unfold clamp. num_eval. split; [reflexivity | lra].
Qed.

(** X1: [clamp] between two finite bounds in order gives a finite number
    between the bounds for every argument but [NaN], the infinities
    included; an argument already between the bounds is returned as it is. *)
Theorem clamp_within (v : num) (a b : R) :
  a <= b -> v <> NaN ->
  exists r : R,
    clamp v (Fin a) (Fin b) = Fin r
    /\ a <= r <= b
    /\ (forall x : R, v = Fin x -> a <= x <= b -> r = x).
Proof.
  intros Hab Hv. destruct (clamp_finite v a b Hab Hv) as (r & E & Hr).
  exists r. split; [exact E |]. split; [exact Hr |].
  intros x Ex Hx. rewrite Ex in E.
  rewrite (clamp_inside x a b Hx) in E. now injection E.
Qed.

(** *** [setActiveSlide] *)

Lemma orOne_fin (n : num) : orOne n <> NaN.
Proof.
  destruct n as [r | | |]; cbn; try discriminate.
  destruct (Reqb r 0); discriminate.
Qed.

Lemma INR_16 : INR 16 = 16.
Proof. cbn. lra. Qed.

Lemma slideCount_value : ofNat slideCount = Fin 16.
Proof. unfold ofNat, slideCount. now rewrite INR_16. Qed.

Lemma activeSlide_range (n : num) :
  exists r : R, activeSlide (setActiveSlide n) = Fin r /\ 1 <= r <= 16.
Proof.
  cbn [setActiveSlide activeSlide]. rewrite slideCount_value.
  destruct (clamp_finite (orOne n) 1 16) as (r & E & Hr);
    [lra | apply orOne_fin |].
  now exists r.
Qed.

(** How many slides of the range [start, start + len) carry the number
    [r]. *)
Lemma shown_in_range (r : R) (start len : nat) :
  List.length
    (filter (fun i => sameNumber (ofNat i) (Fin r)) (seq start len))
  = if existsb (fun i => sameNumber (ofNat i) (Fin r)) (seq start len)
    then 1%nat else 0%nat.
Proof.
  revert start. induction len as [|len IH]; intros start; [reflexivity |].
  cbn [seq filter existsb]. cbn [sameNumber ofNat]. specialize (IH (S start)).
  cbn [sameNumber ofNat] in IH.
  destruct (Reqb (INR start) r) eqn:E; cbn [orb List.length].
  - apply Reqb_spec in E.
    assert (Hnone : forall l, (forall i, In i l -> (start < i)%nat) ->
              filter (fun i => Reqb (INR i) r) l = []).
    { induction l as [|j l IHl]; intros Hl; [reflexivity |]. cbn.
      rewrite Reqb_false.
      - apply IHl. intros i Hi. apply Hl. now right.
      - intros Ej. rewrite <- E in Ej. apply INR_eq in Ej.
        specialize (Hl j (or_introl eq_refl)). lia. }
    rewrite Hnone; [reflexivity |].
    intros i Hi. apply in_seq in Hi. lia.
  - exact IH.
Qed.

Lemma shown_integer (r : R) :
  1 <= r <= 16 ->
  existsb (fun i => sameNumber (ofNat i) (Fin r)) (seq 1 slideCount)
  = Num.isInteger (Fin r).
Proof.
  intros Hr. cbn [Num.isInteger].
  destruct (Reqb r (IZR (Zfloor r))) eqn:E.
  - apply Reqb_spec in E. apply existsb_exists.
    assert (Hk : (1 <= Zfloor r <= 16)%Z).
    { rewrite E in Hr. destruct Hr as [H1 H2].
      apply le_IZR in H1. apply le_IZR in H2. lia. }
    exists (Z.to_nat (Zfloor r)). split.
    + apply in_seq. unfold slideCount. lia.
    + cbn [sameNumber ofNat]. apply Reqb_true.
      rewrite INR_IZR_INZ, Z2Nat.id by lia. now symmetry.
  - apply not_true_iff_false. intros Hex.
    apply existsb_exists in Hex as (i & _ & Hi).
    cbn [sameNumber ofNat] in Hi. apply Reqb_spec in Hi.
    assert (Er : r = IZR (Zfloor r)).
    { rewrite <- Hi. rewrite INR_IZR_INZ. f_equal. symmetry.
      apply Zfloor_eq. rewrite <- INR_IZR_INZ. lra. }
    apply Reqb_true in Er. congruence.
Qed.

(** X2: whatever number [setActiveSlide] is called with, [NaN] and the
    infinities included, the slide index it stores is a finite number
    between 1 and 16, and every one of the 16 slides gets its [hidden]
    class set or cleared.  Exactly one slide is left visible when the index
    is a whole number; when it is not (2.5, say), every slide is hidden. *)
Theorem setActiveSlide_shows (n : num) :
  (exists r : R, activeSlide (setActiveSlide n) = Fin r /\ 1 <= r <= 16)
  /\ List.length (hiddenSlides (setActiveSlide n)) = 16%nat
  /\ count_occ bool_dec (hiddenSlides (setActiveSlide n)) false
     = if Num.isInteger (activeSlide (setActiveSlide n)) then 1%nat else 0%nat.
Proof.
  split; [apply activeSlide_range |]. split.
  - cbn [setActiveSlide hiddenSlides]. now rewrite length_map, length_seq.
  - destruct (activeSlide_range n) as (r & E & Hr).
    rewrite E. rewrite <- (shown_integer r Hr), <- shown_in_range.
    cbn [setActiveSlide hiddenSlides activeSlide] in *. rewrite E.
    generalize (seq 1 slideCount). intros l.
    induction l as [|i l IH]; [reflexivity |].
    cbn [map filter count_occ].
    destruct (sameNumber (ofNat i) (Fin r)); cbn [negb].
    + destruct (bool_dec false false) as [_ | Hne]; [| now contradiction Hne].
      cbn [List.length]. now rewrite IH.
    + destruct (bool_dec true false) as [Heq | _]; [discriminate | exact IH].
Qed.

Lemma activeSlide_whole (x : R) :
  x <> 0 ->
  activeSlide (setActiveSlide (Fin x)) = Fin (Rmax 1 (Rmin 16 x)).
Proof.
  intros Hx. cbn [setActiveSlide activeSlide orOne].
  rewrite Reqb_false by exact Hx. rewrite slideCount_value. apply clamp_fin.
Qed.

(** X3: from a slide [k] between 1 and 16, the handler of the next button
    and of the right arrow, [setActiveSlide(k + 1)], moves to slide [k + 1]
    and stays on slide 16 from slide 16; the handler of the previous button
    and of the left arrow, [setActiveSlide(k - 1)], moves to slide [k - 1]
    and stays on slide 1 from slide 1, where its argument is 0.  Choosing
    slide [k] itself stores [k]. *)
Theorem setActiveSlide_steps (k : nat) :
  (1 <= k <= 16)%nat ->
  activeSlide (setActiveSlide (ofNat k + 1)%num) = ofNat (Nat.min (k + 1) 16)
  /\ activeSlide (setActiveSlide (ofNat k - 1)%num) = ofNat (Nat.max (k - 1) 1)
  /\ activeSlide (setActiveSlide (ofNat k)) = ofNat k.
Proof.
  intros Hk.
  assert (HR : 1 <= INR k <= 16).
  { split; [apply (le_INR 1 k) | rewrite <- INR_16; apply le_INR]; lia. }
  unfold ofNat. cbn [Num.add Num.sub Num.neg].
  split; [| split].
  - rewrite activeSlide_whole by lra. f_equal.
    destruct (Nat.eq_dec k 16) as [E | Hne].
    + subst k. change (Nat.min (16 + 1) 16) with 16%nat. rewrite INR_16.
      rewrite Rmin_left by lra. apply Rmax_right. lra.
    + assert (H15 : INR k <= 15).
      { replace 15 with (INR 15) by (cbn; lra). apply le_INR. lia. }
      rewrite Nat.min_l by lia. rewrite Nat.add_1_r, S_INR.
      rewrite Rmin_right by lra. apply Rmax_right. lra.
  - destruct (Nat.eq_dec k 1) as [-> | Hne].
    + cbn [setActiveSlide activeSlide orOne INR Nat.sub Nat.max].
      rewrite Reqb_true by lra. rewrite slideCount_value.
      apply clamp_inside. lra.
    + assert (H2 : 2 <= INR k).
      { replace 2 with (INR 2) by (cbn; lra). apply le_INR. lia. }
      rewrite activeSlide_whole by lra. f_equal.
      rewrite Nat.max_l by lia. rewrite minus_INR by lia. cbn [INR].
      rewrite Rmin_right by lra. apply Rmax_right. lra.
  - rewrite activeSlide_whole by lra. f_equal.
    rewrite Rmin_right by lra. apply Rmax_right. lra.
Qed.

(** *** The adoption setting *)

(** X4: the adoption share stays a number between 0 and 1.  [boot] starts
    from one when the stored text reads as a number (which it clamps) or
    when the default of the data is one, and the handler of the adoption
    input keeps one: it leaves the share alone when the input does not read
    as a number, and stores the input clamped to 0..100, divided by 100,
    otherwise. *)
Theorem adoption_stays_fraction (stored : option num) (default : value)
    (raw : num) (adoption : value) :
  isFraction default -> isFraction adoption ->
  isFraction (bootAdoption stored default)
  /\ isFraction (onChange raw adoption)
  /\ onChange NaN adoption = adoption
  /\ (forall x : R, 0 <= x <= 100 ->
        onChange (Fin x) adoption = VNum (Fin (x / 100))).
Proof.
  intros Hd Ha. split; [| split; [| split]].
  - destruct stored as [[x | | |] |]; cbn [bootAdoption]; try exact Hd.
    + destruct (clamp_finite (Fin x) 0 1) as (r & E & Hr);
        [lra | discriminate |].
      exists r. now rewrite E.
    + destruct (clamp_finite PInf 0 1) as (r & E & Hr);
        [lra | discriminate |].
      exists r. now rewrite E.
    + destruct (clamp_finite NInf 0 1) as (r & E & Hr);
        [lra | discriminate |].
      exists r. now rewrite E.
  - assert (Hraw : raw <> NaN ->
              isFraction (VNum (clamp raw 0 100 / 100)%num)).
    { intros Hn. destruct (clamp_finite raw 0 100) as (r & E & Hr);
        [lra | exact Hn |].
      exists (r / 100). rewrite E. num_eval. split; [reflexivity | lra]. }
    destruct raw; cbn [onChange]; try (apply Hraw; discriminate).
    exact Ha.
  - reflexivity.
  - intros x Hx. cbn [onChange]. rewrite clamp_inside by exact Hx.
    num_eval. reflexivity.
Qed.

(** *** Whole numbers as text *)

Section WholeNumbers.

Context {host : Host}.

Lemma pow2_53_above (x : R) : x <= 128 -> x < 2 ^ 53.
Proof.
  intros Hx. apply Rle_lt_trans with 128; [exact Hx |].
  replace 128 with (2 ^ 7) by (cbn; lra).
  apply Rlt_pow; [lra | lia].
Qed.

(** [String(k)] for a natural integer up to 128 is its decimal digits. *)
Lemma numberToString_whole (k : Z) :
  (0 <= k <= 128)%Z -> numberToString (Fin (IZR k)) = decimal k.
Proof.
  intros Hk. unfold numberToString.
  destruct (Z.eq_dec k 0) as [-> | Hne].
  - rewrite Reqb_true by reflexivity. reflexivity.
  - assert (Hpos : 0 < IZR k) by (apply IZR_lt; lia).
    rewrite Reqb_false by lra. rewrite Rltb_false by lra.
    unfold positiveToString. rewrite ZfloorZ.
    rewrite Reqb_true by reflexivity.
    rewrite Rltb_true; [reflexivity |].
    apply pow2_53_above. apply IZR_le. lia.
Qed.

(** [String(Math.round(x))] for [x] between 0 and 100. *)
Lemma round_text (x : R) :
  0 <= x <= 100 ->
  exists k : Z,
    (0 <= k <= 100)%Z
    /\ numberToString (Num.round (Fin x)) = decimal k
    /\ IZR k - / 2 <= x < IZR k + / 2.
Proof.
  intros Hx. exists (Zfloor (x + / 2)).
  pose proof (Zfloor_bound (x + / 2)) as Hb.
  assert (Hk : (0 <= Zfloor (x + / 2) <= 100)%Z).
  { split.
    - apply Zfloor_lub. lra.
    - apply Z.lt_succ_r. apply lt_IZR. rewrite succ_IZR. lra. }
  split; [exact Hk |]. split.
  - cbn [Num.round]. apply numberToString_whole. lia.
  - lra.
Qed.

(** X5: the adoption input shows the stored percentage as a whole number
    in plain decimal digits: for every input that reads as a number, the
    handler stores [pct / 100] with [pct] the input clamped to 0..100, and
    writes back the integer between 0 and 100 that is nearest to [pct],
    halves going up.  The stored share keeps the fraction that the text
    drops (12.5 is stored as 0.125 and shown as 13). *)
Theorem adoption_text (raw : num) (adoption : value) :
  raw <> NaN ->
  exists (pct : R) (k : Z),
    onChange raw adoption = VNum (Fin (pct / 100))
    /\ 0 <= pct <= 100
    /\ adoptionText raw = decimal k
    /\ (0 <= k <= 100)%Z
    /\ IZR k - / 2 <= pct < IZR k + / 2.
Proof.
  intros Hraw.
  destruct (clamp_finite raw 0 100) as (pct & E & Hpct);
    [lra | exact Hraw |].
  destruct (round_text pct Hpct) as (k & Hk & Etext & Hnear).
  exists pct, k. unfold adoptionText. rewrite E.
  repeat split; try tauto; try lia.
  destruct raw; try contradiction; cbn [onChange]; rewrite E;
    num_eval; reflexivity.
Qed.

(** X6: [formatPercent] writes a share between 0 and 1 as the whole
    percentage nearest to it (halves going up), an integer between 0 and
    100 in plain decimal digits followed by [%].  It writes a dash for
    [null], [undefined] and [NaN], and has no other guard: an infinite
    share is written [Infinity%]. *)
Theorem formatPercent_whole (p : R) :
  0 <= p <= 1 ->
  (exists k : Z,
     (0 <= k <= 100)%Z
     /\ formatPercent (VNum (Fin p)) = (decimal k ++ "%")%string
     /\ IZR k - / 2 <= p * 100 < IZR k + / 2)
  /\ formatPercent VNull = "—"%string
  /\ formatPercent VUndef = "—"%string
  /\ formatPercent (VNum NaN) = "—"%string
  /\ formatPercent (VNum PInf) = "Infinity%"%string.
Proof.
  intros Hp. split; [| repeat split; try reflexivity].
  2: { unfold formatPercent. cbn [isNullish isNaNValue orb toNumber].
       num_eval. reflexivity. }
  destruct (round_text (p * 100)) as (k & Hk & Etext & Hnear); [lra |].
  exists k. split; [exact Hk |]. split; [| exact Hnear].
  unfold formatPercent. cbn [isNullish isNaNValue orb toNumber Num.mul].
  now rewrite Etext.
Qed.

End WholeNumbers.
(** ** The scenario model *)

Section Scenario.

Variables (icb : Icb.t) (defaults : Model.t).

(** The scenario of [updateSlide3] at a given adoption. *)
Let scenario (a : num) : Scenario :=
  computeScenario icb (scenarioModel defaults (VNum a)).

Lemma scenario_fields (a : num) :
  switched (scenario a)
  = (toNumber (Icb.annualised_referrals icb) * a)%num
  /\ saving (scenario a)
     = (toNumber (Icb.annualised_referrals icb) * a
        * (toNumber (Model.talking_therapies_cost_per_patient defaults)
           - toNumber (Model.beam_device_cost defaults)))%num
  /\ appointmentsFreed (scenario a)
     = (toNumber (Icb.annualised_referrals icb) * a
        * toNumber (Model.avg_appointments_per_patient defaults))%num
  /\ wteReleased (scenario a)
     = (toNumber (Icb.annualised_referrals icb) * a
        * toNumber (Model.avg_appointments_per_patient defaults)
        / toNumber (Model.clinical_hours_per_wte_per_year defaults))%num.
Proof. repeat split. Qed.

End Scenario.

(** X7: for an ICB with a finite median wait [w] that is not negative, and
    an adoption [a] and an elasticity [e] whose product is not negative,
    [computeScenario] reports a wait after adoption between 0 and [w], and a
    reduction that is exactly what it took off, so that the two add up to
    [w].  While [a * e] is at most 1 the wait after is [w * (1 - a * e)];
    from 1 on it is clamped to 0 and the reduction is the whole wait. *)
Theorem computeScenario_wait (icb : Icb.t) (model : Model.t) (w a e : R) :
  Icb.median_wait_access_days icb = VNum (Fin w) ->
  Model.beam_adoption model = VNum (Fin a) ->
  Model.wait_time_elasticity model = VNum (Fin e) ->
  0 <= w -> 0 <= a * e ->
  exists after : R,
    waitAfter (computeScenario icb model) = Fin after
    /\ waitReduction (computeScenario icb model) = Fin (w - after)
    /\ 0 <= after <= w
    /\ (a * e <= 1 -> after = w * (1 - a * e))
    /\ (1 <= a * e -> after = 0).
Proof.
  intros Ew Ea Ee Hw Hae.
  exists (Rmax 0 (w * (1 - a * e))).
  unfold computeScenario. cbn [waitAfter waitReduction]. rewrite Ew, Ea, Ee.
  cbn [toNumber Num.mul Num.sub Num.neg Num.add].
  replace (1 + - (a * e)) with (1 - a * e) by ring.
  rewrite max_fin. cbn [Num.neg Num.add].
  split; [reflexivity |]. split; [reflexivity |].
  assert (Hprod : w * (1 - a * e) <= w) by nra.
  split; [| split].
  - split; [apply Rmax_l | apply Rmax_lub; lra].
  - intros Hle. apply Rmax_right. nra.
  - intros Hge. apply Rmax_left. nra.
Qed.

(** X8: with finite data and a non-zero number of clinical hours per WTE,
    every activity figure of the scenario is proportional to the adoption:
    the patients switched, the saving, the appointments freed and the WTE
    released at adoption [a] are [a] times what they are at full adoption,
    and they are all 0 at adoption 0.  The baseline spend, referrals times
    the cost of therapy, does not depend on the adoption; the saving is the
    patients switched times the difference between the cost of therapy and
    the cost of the device, so it is negative when the device costs more;
    the WTE released are the referrals times the adoption times the
    appointments per patient, divided by the hours. *)
Theorem computeScenario_proportional (icb : Icb.t) (defaults : Model.t)
    (r tc dc p h a : R) :
  Icb.annualised_referrals icb = VNum (Fin r) ->
  Model.talking_therapies_cost_per_patient defaults = VNum (Fin tc) ->
  Model.beam_device_cost defaults = VNum (Fin dc) ->
  Model.avg_appointments_per_patient defaults = VNum (Fin p) ->
  Model.clinical_hours_per_wte_per_year defaults = VNum (Fin h) ->
  h <> 0 ->
  switched (scenarioAt icb defaults a) = (Fin a * switched (scenarioAt icb defaults 1))%num
  /\ saving (scenarioAt icb defaults a) = (Fin a * saving (scenarioAt icb defaults 1))%num
  /\ appointmentsFreed (scenarioAt icb defaults a) = (Fin a * appointmentsFreed (scenarioAt icb defaults 1))%num
  /\ wteReleased (scenarioAt icb defaults a) = (Fin a * wteReleased (scenarioAt icb defaults 1))%num
  /\ baselineSpend (scenarioAt icb defaults a) = Fin (r * tc)
  /\ saving (scenarioAt icb defaults a) = Fin (r * a * (tc - dc))
  /\ wteReleased (scenarioAt icb defaults a) = Fin (r * a * p / h)
  /\ (switched (scenarioAt icb defaults 0) = Fin 0 /\ saving (scenarioAt icb defaults 0) = Fin 0
      /\ appointmentsFreed (scenarioAt icb defaults 0) = Fin 0 /\ wteReleased (scenarioAt icb defaults 0) = Fin 0).
Proof.
  intros Er Etc Edc Ep Eh Hh. unfold scenarioAt.
  rewrite !(proj1 (scenario_fields icb defaults _)).
  rewrite !(proj1 (proj2 (scenario_fields icb defaults _))).
  rewrite !(proj1 (proj2 (proj2 (scenario_fields icb defaults _)))).
  rewrite !(proj2 (proj2 (proj2 (scenario_fields icb defaults _)))).
  unfold computeScenario, scenarioModel. cbn [baselineSpend].
  rewrite Er, Etc, Edc, Ep, Eh. cbn [toNumber].
  cbn [Num.mul Num.sub Num.neg Num.add Num.div].
  rewrite !(Reqb_false h 0) by exact Hh.
  repeat split; f_equal; try (unfold Rminus; field; exact Hh);
    try (unfold Rminus; ring).
Qed.

(** X9: [computeScenario] does not guard its inputs.  A number of clinical
    hours that is 0 or [null] makes the WTE released [Infinity] as soon as
    some appointments are freed, and [NaN] when none is; referrals that are
    missing make every activity figure [NaN]; and the wait after adoption is
    never negative: it is [NaN] or at least 0. *)
Theorem computeScenario_unguarded (icb : Icb.t) (model : Model.t) :
  (toNumber (Model.clinical_hours_per_wte_per_year model) = Fin 0 ->
   forall freed : R,
     appointmentsFreed (computeScenario icb model) = Fin freed ->
     (0 < freed -> wteReleased (computeScenario icb model) = PInf)
     /\ (freed = 0 -> wteReleased (computeScenario icb model) = NaN))
  /\ (Icb.annualised_referrals icb = VUndef ->
      switched (computeScenario icb model) = NaN
      /\ baselineSpend (computeScenario icb model) = NaN
      /\ saving (computeScenario icb model) = NaN
      /\ appointmentsFreed (computeScenario icb model) = NaN
      /\ wteReleased (computeScenario icb model) = NaN)
  /\ (waitAfter (computeScenario icb model) = NaN
      \/ (0 <=? waitAfter (computeScenario icb model))%num = true).
Proof.
  split; [| split].
  - intros Eh freed Ef. unfold computeScenario in *.
    cbn [appointmentsFreed wteReleased] in *. rewrite Eh, Ef.
    split; intros Hf; num_eval; reflexivity.
  - intros Er. unfold computeScenario.
    cbn [switched baselineSpend saving appointmentsFreed wteReleased].
    rewrite Er. cbn [toNumber Num.mul Num.div]. repeat split.
  - unfold computeScenario. cbn [waitAfter].
    destruct (toNumber (Icb.median_wait_access_days icb)
              * (1 - toNumber (Model.beam_adoption model)
                     * toNumber (Model.wait_time_elasticity model)))%num
      as [x | | |].
    + right. rewrite max_fin. cbn [Num.le]. apply Rleb_true. apply Rmax_l.
    + right. reflexivity.
    + right. num_eval. reflexivity.
    + left. reflexivity.
Qed.

(** ** The localised series *)

Lemma lastRow_snoc (rows : list Referrals.row) (row : Referrals.row) :
  lastRow (rows ++ [row]) = Some row.
Proof.
  unfold lastRow. rewrite length_app. cbn [List.length].
  rewrite nth_error_app2 by lia.
  replace (List.length rows + 1 - 1 - List.length rows)%nat with 0%nat by lia.
  reflexivity.
Qed.

Lemma series_snoc (earlier : list Period) (last : Period) :
  series (earlier ++ [last]) = (series earlier ++ [periodRow last])%list.
Proof. unfold series. now rewrite map_app. Qed.

Lemma share_finite (x l : R) :
  l <> 0 -> share (VNum (Fin x)) (VNum (Fin l)) = Fin (x / l).
Proof.
  intros Hl. unfold share. cbn [isNullish negb truthy andb toNumber Num.div].
  now rewrite !(Reqb_false l 0 Hl).
Qed.

(** The rows of a localised series, given the two shares. *)
Lemma localiseSeries_scaled (s : list Period) (icb : option Icb.t) (f g : R) :
  share (fieldOf Icb.annualised_referrals icb)
        (fieldOf Referrals.referrals (lastRow (series s))) = Fin f ->
  share (fieldOf Icb.annualised_accessing_services icb)
        (fieldOf Referrals.accessed (lastRow (series s))) = Fin g ->
  localiseSeries (series s) icb = series (map (scalePeriod f g) s).
Proof.
  intros Ef Eg. unfold localiseSeries. rewrite Ef, Eg.
  unfold series. rewrite !map_map. apply map_ext. intros p. reflexivity.
Qed.

(** X10: [localiseSeries] scales the national series so that its latest
    year matches the ICB.  For a national series of finite values whose
    latest year has non-zero referrals and accessed counts, and an ICB with
    finite annualised figures, every year keeps its label and has its
    referrals multiplied by one factor and its accessed count by another,
    and the latest year of the result carries exactly the ICB's annualised
    referrals and accessed count. *)
Theorem localiseSeries_latest (earlier : list Period) (last : Period)
    (icb : Icb.t) (ref acc : R) :
  Icb.annualised_referrals icb = VNum (Fin ref) ->
  Icb.annualised_accessing_services icb = VNum (Fin acc) ->
  valueA last <> 0 -> valueB last <> 0 ->
  localiseSeries (series (earlier ++ [last])) (Some icb)
  = series (map (scalePeriod (ref / valueA last) (acc / valueB last))
                (earlier ++ [last]))
  /\ lastRow (localiseSeries (series (earlier ++ [last])) (Some icb))
     = Some (periodRow {| period := period last;
                          valueA := ref; valueB := acc |}).
Proof.
  intros Eref Eacc Ha Hb.
  assert (E : localiseSeries (series (earlier ++ [last])) (Some icb)
              = series (map (scalePeriod (ref / valueA last)
                                         (acc / valueB last))
                            (earlier ++ [last]))).
  { apply localiseSeries_scaled; rewrite series_snoc, lastRow_snoc;
      cbn [fieldOf]; [rewrite Eref | rewrite Eacc];
      cbn [periodRow Referrals.referrals Referrals.accessed];
      now apply share_finite. }
  split; [exact E |].
  rewrite E, map_app. cbn [map]. rewrite series_snoc, lastRow_snoc. f_equal.
  unfold periodRow, scalePeriod. cbn [period valueA valueB].
  f_equal; do 2 f_equal; field; assumption.
Qed.

Lemma share_none (icbValue lastValue : value) :
  isNullish icbValue = true \/ truthy lastValue = false ->
  share icbValue lastValue = Fin 0.
Proof.
  unfold share. intros [-> | ->]; [reflexivity |].
  now rewrite andb_false_r.
Qed.

(** X11: [localiseSeries] gives a flat series where it has nothing to
    scale to.  For a national series of finite values: when no ICB is
    given, when the ICB's annualised referrals are [null] or missing, or
    when the referrals of the latest national year are 0, the referrals of
    every year of the result are 0; the same holds of the accessed counts;
    the labels are kept in every case; and the empty series gives the empty
    series. *)
Theorem localiseSeries_flat (s : list Period) (icb : option Icb.t) :
  (icb = None
   \/ (exists i, icb = Some i
                 /\ (Icb.annualised_referrals i = VNull
                     \/ Icb.annualised_referrals i = VUndef))
   \/ (exists earlier last, s = (earlier ++ [last])%list /\ valueA last = 0) ->
   map Referrals.referrals (localiseSeries (series s) icb)
   = map (fun _ => VNum (Fin 0)) s)
  /\ (icb = None
      \/ (exists i, icb = Some i
                    /\ (Icb.annualised_accessing_services i = VNull
                        \/ Icb.annualised_accessing_services i = VUndef))
      \/ (exists earlier last,
             s = (earlier ++ [last])%list /\ valueB last = 0) ->
      map Referrals.accessed (localiseSeries (series s) icb)
      = map (fun _ => VNum (Fin 0)) s)
  /\ map Referrals.year (localiseSeries (series s) icb) = map period s
  /\ localiseSeries [] icb = [].
Proof.
  split; [| split; [| split]].
  - intros Hcause.
    assert (E : share (fieldOf Icb.annualised_referrals icb)
                      (fieldOf Referrals.referrals (lastRow (series s)))
                = Fin 0).
    { apply share_none.
      destruct Hcause as [-> | [(i & -> & [E | E]) | (earlier & last & -> & E)]].
      - now left.
      - left. cbn [fieldOf]. now rewrite E.
      - left. cbn [fieldOf]. now rewrite E.
      - right. rewrite series_snoc, lastRow_snoc.
        cbn [fieldOf periodRow Referrals.referrals truthy]. rewrite E.
        now rewrite Reqb_true. }
    unfold localiseSeries. rewrite E. unfold series. rewrite !map_map.
    apply map_ext. intros p.
    cbn [Referrals.referrals periodRow toNumber Num.mul]. do 2 f_equal. ring.
  - intros Hcause.
    assert (E : share (fieldOf Icb.annualised_accessing_services icb)
                      (fieldOf Referrals.accessed (lastRow (series s)))
                = Fin 0).
    { apply share_none.
      destruct Hcause as [-> | [(i & -> & [E | E]) | (earlier & last & -> & E)]].
      - now left.
      - left. cbn [fieldOf]. now rewrite E.
      - left. cbn [fieldOf]. now rewrite E.
      - right. rewrite series_snoc, lastRow_snoc.
        cbn [fieldOf periodRow Referrals.accessed truthy]. rewrite E.
        now rewrite Reqb_true. }
    unfold localiseSeries. rewrite E. unfold series. rewrite !map_map.
    apply map_ext. intros p.
    cbn [Referrals.accessed periodRow toNumber Num.mul]. do 2 f_equal. ring.
  - unfold localiseSeries, series. rewrite !map_map. reflexivity.
  - reflexivity.
Qed.
(** ** The grouped-bar renderer: gridlines and bars *)

(** The axis of a chart whose greatest value is finite: the step is one of
    the table, the axis maximum a whole number of steps that leaves the
    headroom. *)
Lemma axis_shape (rows : list Referrals.row) (M : R) :
  Referrals.maxVal rows = Fin M ->
  exists (st : R) (k : nat),
    Referrals.step rows = Fin st
    /\ 0.05 <= st
    /\ (1 <= k)%nat
    /\ Referrals.yMax rows = Fin (INR k * st)
    /\ M * 1.12 <= INR k * st
    /\ (0 <= M <= 1 -> (k <= 6)%nat).
Proof.
  intros EM.
  assert (Hst : exists st, Referrals.step rows = Fin st
                  /\ 0.05 <= st
                  /\ (0 <= M <= 1 -> M * 1.12 / st <= 6)).
  { unfold Referrals.step. rewrite EM. cbn [Num.le]. 
    destruct (Rle_dec M 0.2); [rewrite Rleb_true by assumption |
                               rewrite Rleb_false by lra].
    { exists 0.05. repeat split; lra. }
    destruct (Rle_dec M 0.5); [rewrite Rleb_true by assumption |
                               rewrite Rleb_false by lra].
    { exists 0.1. repeat split; lra. }
    destruct (Rle_dec M 1.0); [rewrite Rleb_true by assumption |
                               rewrite Rleb_false by lra].
    { exists 0.2. repeat split; lra. }
    exists 0.5. repeat split; lra. }
  destruct Hst as (st & Est & Hst & Hsix).
  set (c := Zceil (M * 1.12 / st)).
  assert (Hc : M * 1.12 <= IZR c * st).
  { pose proof (Zceil_bound (M * 1.12 / st)) as [_ Hb]. fold c in Hb.
    apply Rmult_le_compat_r with (r := st) in Hb; [| lra].
    replace (M * 1.12 / st * st) with (M * 1.12) in Hb by (field; lra).
    exact Hb. }
  assert (EyMax : Referrals.yMax rows
                  = if Rleb st (IZR c * st) then Fin (IZR c * st) else Fin st).
  { unfold Referrals.yMax. rewrite Est, EM.
    cbn [Num.mul Num.div]. rewrite (Reqb_false st 0) by lra.
    cbn [Num.ceil Num.mul]. fold c. reflexivity. }
  exists st, (Z.to_nat (Z.max 1 c)).
  assert (EINR : INR (Z.to_nat (Z.max 1 c)) = IZR (Z.max 1 c)).
  { rewrite INR_IZR_INZ, Z2Nat.id by lia. reflexivity. }
  rewrite EINR.
  split; [exact Est |]. split; [exact Hst |]. split; [lia |].
  destruct (Rle_dec st (IZR c * st)) as [Hbig | Hsmall].
  - assert (H1c : (1 <= c)%Z) by (apply le_IZR; nra).
    rewrite Z.max_r by exact H1c.
    rewrite EyMax, (Rleb_true _ _ Hbig).
    split; [reflexivity |]. split; [exact Hc |].
    intros HM. specialize (Hsix HM).
    assert (Hc6 : (c <= 6)%Z).
    { unfold c. replace 6%Z with (Zceil 6) by (apply Zceil_eq; lra).
      now apply Zceil_le. }
    lia.
  - assert (Hc0 : (c < 1)%Z) by (apply lt_IZR; nra).
    rewrite Z.max_l by lia.
    rewrite EyMax, (Rleb_false st (IZR c * st)) by lra.
    split; [f_equal; ring |]. split; [| intros _; cbn; lia].
    apply Rle_trans with (IZR c * st); [exact Hc |].
    apply Rle_trans with st; lra.
Qed.

Lemma maxList_listMax (l : list R) :
  l <> [] -> Num.maxList (map Fin l) = Fin (listMax l).
Proof.
  destruct l as [|x l]; [contradiction |]. intros _.
  unfold Num.maxList. cbn [map fold_left listMax].
  change (Num.max NInf (Fin x)) with (Fin x). apply maxList_fin.
Qed.

(** The axis of a series of finite values, the empty one included. *)
Lemma series_axis (s : list Period) :
  exists (st : R) (k : nat),
    Referrals.step (series s) = Fin st
    /\ 0.05 <= st
    /\ (1 <= k)%nat
    /\ Referrals.yMax (series s) = Fin (INR k * st)
    /\ (forall p, In p s ->
          valueA p / 1e6 * 1.12 <= INR k * st
          /\ valueB p / 1e6 * 1.12 <= INR k * st)
    /\ (observedMax s <= 1 -> (k <= 6)%nat).
Proof.
  destruct s as [|p0 s].
  - exists 0.05, 1%nat. destruct referrals_empty_axis as [Es Ey].
    change (series []) with (@nil Referrals.row). rewrite Es, Ey.
    split; [reflexivity |]. split; [lra |]. split; [lia |].
    split; [f_equal; cbn; lra |]. split; [intros p [] | intros _; lia].
  - destruct (maxVal_series (p0 :: s) ltac:(discriminate))
      as (M & EM & Hobs & HM).
    destruct (axis_shape _ M EM) as (st & k & Est & Hst & Hk & Ey & Hhead & Hsix).
    exists st, k. repeat (split; [assumption |]).
    assert (Hobs0 : forall x, In x (observed (p0 :: s)) -> x <= M).
    { intros x Hx. apply Rle_trans with (observedMax (p0 :: s)); [| exact Hobs].
      apply listMax_spec; [discriminate | exact Hx]. }
    assert (HM0 : 0 <= M).
    { unfold Referrals.maxVal in EM. rewrite dataM_series in EM.
      rewrite maxList_listMax in EM by discriminate.
      assert (E : M = listMax (withZeros (p0 :: s))) by congruence.
      rewrite E. apply (listMax_spec (withZeros (p0 :: s))); [discriminate |].
      apply withZeros_In. left. split; [discriminate | reflexivity]. }
    split.
    + intros p Hp.
      assert (HA : In (valueA p / 1e6) (observed (p0 :: s))).
      { unfold observed. apply in_flat_map. exists p. split; [exact Hp | now left]. }
      assert (HB : In (valueB p / 1e6) (observed (p0 :: s))).
      { unfold observed. apply in_flat_map. exists p.
        split; [exact Hp | right; now left]. }
      apply Hobs0 in HA. apply Hobs0 in HB. split; lra.
    + intros Hone. apply Hsix. split; [exact HM0 |].
      destruct HM as [-> | HM]; lra.
Qed.

Lemma tickValues_steps (n i : nat) (st : R) :
  tickValues n (Fin (INR i * st)) (Fin st)
  = map (fun j => Fin (INR j * st)) (seq i n).
Proof.
  revert i. induction n as [|n IH]; intros i; cbn [tickValues seq map].
  - reflexivity.
  - f_equal. cbn [Num.add].
    replace (INR i * st + st) with (INR (S i) * st) by (rewrite S_INR; ring).
    apply IH.
Qed.

Lemma tickAt_steps (n i : nat) (st : R) :
  tickAt n (Fin (INR i * st)) (Fin st) = Fin (INR (i + n) * st).
Proof.
  revert i. induction n as [|n IH]; intros i; cbn [tickAt].
  - now rewrite Nat.add_0_r.
  - cbn [Num.add].
    replace (INR i * st + st) with (INR (S i) * st) by (rewrite S_INR; ring).
    rewrite IH. now replace (i + S n)%nat with (S i + n)%nat by lia.
Qed.

Lemma referrals_inner :
  Referrals.innerW = Fin 890 /\ Referrals.innerH = Fin 540.
Proof.
  unfold Referrals.innerW, Referrals.innerH, Referrals.W, Referrals.H,
    Referrals.margin.
  cbn [top right bottom left Num.sub Num.neg Num.add]. split; f_equal; lra.
Qed.

Lemma referrals_yScale (rows : list Referrals.row) (Y v : R) :
  Referrals.yMax rows = Fin Y -> 0 < Y ->
  Referrals.yScale rows (Fin v) = Fin (70 + (1 - v / Y) * 540).
Proof.
  intros EY HY. unfold Referrals.yScale. rewrite EY.
  rewrite (proj2 referrals_inner). unfold Referrals.margin. cbn [top].
  cbn [Num.div]. rewrite (Reqb_false Y 0) by lra.
  cbn [Num.sub Num.neg Num.add Num.mul]. f_equal.
Qed.

Section Gridlines.

Context {host : Host}.

(** The gridline loop on a series of finite values. *)
Lemma gridlines_run (s : list Period) :
  exists (k : nat) (st : R),
    (1 <= k)%nat
    /\ 0.05 <= st
    /\ Referrals.step (series s) = Fin st
    /\ Referrals.yMax (series s) = Fin (INR k * st)
    /\ (observedMax s <= 1 -> (k <= 6)%nat)
    /\ forall extra : nat,
         Referrals.renderReferralsChart (S k + extra) (series s)
         = Some (flat_map (Referrals.gridline (series s))
                          (map (fun j => Fin (INR j * st)) (seq 0 (S k)))
                 ++ Referrals.axes (series s) ++ Referrals.legend
                 ++ Referrals.bars (series s))%list.
Proof.
  destruct (series_axis s) as (st & k & Est & Hst & Hk & Ey & _ & Hsix).
  exists k, st.
  assert (HkR : 1 <= INR k) by (apply (le_INR 1 k); exact Hk).
  repeat (split; [assumption |]).
  intros extra. unfold Referrals.renderReferralsChart, Referrals.gridlines.
  rewrite Est, Ey. cbn [Num.add].
  replace (Fin 0) with (Fin (INR 0 * st)) by (f_equal; cbn; ring).
  rewrite (tickLoop_run (S k) extra).
  - rewrite tickValues_steps. reflexivity.
  - rewrite tickValues_steps. apply Forall_forall. intros v Hv.
    apply in_map_iff in Hv as (j & <- & Hj). apply in_seq in Hj.
    cbn [Num.le]. apply Rleb_true.
    assert (HjR : INR j <= INR k) by (apply le_INR; lia). nra.
  - rewrite tickAt_steps. cbn [Nat.add Num.le]. apply Rleb_false.
    rewrite S_INR. lra.
Qed.


End Gridlines.

(** *** Where the bars are *)

Lemma indexLoop_group_nth (rows : list Referrals.row) (l : list Referrals.rowM)
    (start i j : nat) (d : Referrals.rowM) :
  nth_error l i = Some d -> (j < 3)%nat ->
  nth_error (indexLoop (Referrals.group rows) start l) (3 * i + j)
  = nth_error (Referrals.group rows (start + i) d) j.
Proof.
  revert start i. induction l as [|x l IH]; intros start i Hi Hj.
  - destruct i; discriminate.
  - cbn [indexLoop]. destruct i as [|i].
    + cbn in Hi. injection Hi as ->. rewrite Nat.add_0_r.
      rewrite nth_error_app1 by (cbn; lia). reflexivity.
    + cbn [nth_error] in Hi. rewrite nth_error_app2 by (cbn; lia).
      replace (3 * S i + j - List.length (Referrals.group rows start x))%nat
        with (3 * i + j)%nat by (cbn; lia).
      rewrite (IH (S start) i Hi Hj). f_equal. f_equal. lia.
Qed.

Lemma xBand_series (s : list Period) :
  s <> [] ->
  Referrals.xBand (series s) = Fin (890 / INR (List.length s)).
Proof.
  intros Hs. unfold Referrals.xBand. rewrite (proj1 referrals_inner).
  unfold Referrals.dataM, series, ofNat. rewrite !length_map.
  assert (Hn : 0 < INR (List.length s)).
  { apply lt_0_INR. destruct s; [contradiction | cbn; lia]. }
  cbn [Num.div]. now rewrite Reqb_false by lra.
Qed.

(** The two bars of a period, given the width of its band. *)
Lemma group_bars (rows : list Referrals.row) (i : nat) (d : Referrals.rowM)
    (band : R) :
  Referrals.xBand rows = Fin band ->
  nth_error (Referrals.group rows i d) 0
  = Some (Referrals.bar rows (Fin (80 + INR i * band + 0.19 * band))
            (Fin (0.279 * band)) (Referrals.referralsM d) REFERRALS_GREY)
  /\ nth_error (Referrals.group rows i d) 1
     = Some (Referrals.bar rows (Fin (80 + INR i * band + 0.531 * band))
               (Fin (0.279 * band)) (Referrals.accessedM d) BRAND_BLUE).
Proof.
  intros Eband. unfold Referrals.group. rewrite Eband.
  unfold Referrals.margin, ofNat. cbn [left nth_error].
  cbn [Num.mul Num.sub Num.neg Num.add Num.div].
  rewrite !(Reqb_false 2 0) by lra.
  split; do 2 f_equal; cbn [Num.add]; first [lra | f_equal; lra].
Qed.

(** A bar of a finite value on a finite axis. *)
Lemma bar_rect (rows : list Referrals.row) (Y x w v : R) (color : string) :
  Referrals.yMax rows = Fin Y -> 0 < Y ->
  isRect (Referrals.bar rows (Fin x) (Fin w) (Fin v) color)
         x (70 + (1 - v / Y) * 540) w (Rmax 0 (v / Y * 540)) color.
Proof.
  intros EY HY. unfold Referrals.bar, Referrals.y0.
  rewrite !(referrals_yScale rows Y _ EY HY).
  cbn [Num.sub Num.neg Num.add]. rewrite max_fin.
  replace (70 + (1 - 0 / Y) * 540 + - (70 + (1 - v / Y) * 540))
    with (v / Y * 540) by (field; lra).
  repeat split.
Qed.

(** X13: for a series of finite values, the two bars of each period lie
    side by side inside the band of the period and inside the plot area.
    With [band] the plot width 890 divided by the number of periods, the
    bars of the period at position [i] have the same positive width, lie
    strictly inside [80 + i * band, 80 + (i + 1) * band] with the same free
    space on both sides, the referrals bar first, and do not overlap.  A
    bar of a value that is not negative stands on the baseline (its top
    plus its height is 610) and, because of the headroom of the axis, its
    top stays more than 57 units below the top margin at 70; a bar of a
    negative value has height 0. *)
Theorem bars_inside_plot (s : list Period) (i : nat) (p : Period) :
  nth_error s i = Some p ->
  exists (band w xA xB yA yB hA hB : R) (barA barB : element),
    band = 890 / INR (List.length s)
    /\ nth_error (Referrals.bars (series s)) (3 * i) = Some barA
    /\ nth_error (Referrals.bars (series s)) (3 * i + 1) = Some barB
    /\ isRect barA xA yA w hA REFERRALS_GREY
    /\ isRect barB xB yB w hB BRAND_BLUE
    /\ 0 < w
    /\ 80 + INR i * band < xA
    /\ xA + w < xB
    /\ xB + w < 80 + (INR i + 1) * band
    /\ xA - (80 + INR i * band) = 80 + (INR i + 1) * band - (xB + w)
    /\ (0 <= valueA p -> 127 < yA <= 610 /\ yA + hA = 610)
    /\ (0 <= valueB p -> 127 < yB <= 610 /\ yB + hB = 610)
    /\ (valueA p < 0 -> hA = 0)
    /\ (valueB p < 0 -> hB = 0).
Proof.
  intros Hp.
  assert (Hs : s <> []) by (intros ->; destruct i; discriminate).
  assert (Hn : 0 < INR (List.length s)).
  { apply lt_0_INR. destruct s; [contradiction | cbn; lia]. }
  destruct (series_axis s) as (st & k & Est & Hst & Hk & Ey & Hhead & _).
  assert (HkR : 1 <= INR k) by (apply (le_INR 1 k); exact Hk).
  set (Y := INR k * st) in *.
  assert (HY : 0 < Y) by (unfold Y; nra).
  destruct (Hhead p (nth_error_In _ _ Hp)) as [HA HB].
  set (band := 890 / INR (List.length s)).
  assert (Hband : 0 < band) by (unfold band; apply Rdiv_lt_0_compat; lra).
  set (d := {| Referrals.yearM := period p;
               Referrals.referralsM := (Fin (valueA p) / 1e6)%num;
               Referrals.accessedM := (Fin (valueB p) / 1e6)%num |}).
  assert (Hd : nth_error (Referrals.dataM (series s)) i = Some d).
  { unfold Referrals.dataM, series. rewrite map_map, nth_error_map, Hp.
    reflexivity. }
  destruct (group_bars (series s) i d band (xBand_series s Hs)) as [EA EB].
  assert (EvA : Referrals.referralsM d = Fin (valueA p / 1e6)).
  { cbn [d Referrals.referralsM Num.div]. now rewrite Reqb_false by lra. }
  assert (EvB : Referrals.accessedM d = Fin (valueB p / 1e6)).
  { cbn [d Referrals.accessedM Num.div]. now rewrite Reqb_false by lra. }
  rewrite EvA in EA. rewrite EvB in EB.
  exists band, (0.279 * band),
    (80 + INR i * band + 0.19 * band), (80 + INR i * band + 0.531 * band),
    (70 + (1 - valueA p / 1e6 / Y) * 540),
    (70 + (1 - valueB p / 1e6 / Y) * 540),
    (Rmax 0 (valueA p / 1e6 / Y * 540)),
    (Rmax 0 (valueB p / 1e6 / Y * 540)).
  eexists. eexists.
  split; [reflexivity |].
  split.
  { unfold Referrals.bars.
    replace (3 * i)%nat with (3 * i + 0)%nat by lia.
    rewrite (indexLoop_group_nth _ _ 0 i 0 d Hd) by lia. exact EA. }
  split.
  { unfold Referrals.bars.
    rewrite (indexLoop_group_nth _ _ 0 i 1 d Hd) by lia. exact EB. }
  split; [apply (bar_rect _ Y); assumption |].
  split; [apply (bar_rect _ Y); assumption |].
  assert (Hfrac : forall v : R, 0 <= v -> v * 1.12 <= Y ->
            127 < 70 + (1 - v / Y) * 540 <= 610
            /\ 70 + (1 - v / Y) * 540 + Rmax 0 (v / Y * 540) = 610).
  { intros v Hv Hle.
    assert (Hq : 0 <= v / Y).
    { unfold Rdiv. apply Rmult_le_pos; [exact Hv |].
      apply Rlt_le. now apply Rinv_0_lt_compat. }
    assert (Hq1 : v / Y * 1.12 <= 1).
    { replace (v / Y * 1.12) with (v * 1.12 / Y) by (field; lra).
      apply Rmult_le_reg_r with Y; [exact HY |].
      replace (v * 1.12 / Y * Y) with (v * 1.12) by (field; lra). lra. }
    rewrite Rmax_right by nra. split; [split |]; nra. }
  assert (Hneg : forall v : R, v < 0 -> Rmax 0 (v / 1e6 / Y * 540) = 0).
  { intros v Hv. apply Rmax_left.
    assert (Hq : v / 1e6 / Y < 0).
    { unfold Rdiv. rewrite Rmult_assoc.
      assert (Hpos : 0 < / 1e6 * / Y).
      { apply Rmult_lt_0_compat; apply Rinv_0_lt_compat; lra. }
      nra. }
    nra. }
  repeat split; try lra.
  - apply (Hfrac (valueA p / 1e6)); lra.
  - apply (Hfrac (valueA p / 1e6)); lra.
  - apply (Hfrac (valueA p / 1e6)); lra.
  - apply (Hfrac (valueB p / 1e6)); lra.
  - apply (Hfrac (valueB p / 1e6)); lra.
  - apply (Hfrac (valueB p / 1e6)); lra.
  - now apply Hneg.
  - now apply Hneg.
Qed.

(** ** The single-line renderer: where the marks are *)







(** ** The chart of the localised series *)

Lemma share_figure (v last : value) :
  figure v ->
  last = VUndef \/ (exists l : R, last = VNum (Fin l)) ->
  exists f : R, share v last = Fin f.
Proof.
  intros Hv Hlast. unfold share.
  destruct Hv as [-> | [-> | (r & ->)]]; try (now exists 0).
  destruct Hlast as [-> | (l & ->)]; [now exists 0 |].
  cbn [isNullish negb andb truthy toNumber].
  destruct (Req_dec_T l 0) as [E | Hne].
  - rewrite (Reqb_true l 0 E). now exists 0.
  - rewrite (Reqb_false l 0 Hne). cbn [negb Num.div].
    rewrite (Reqb_false l 0 Hne). now exists (r / l).
Qed.

Lemma lastRow_series (s : list Period) (field : Referrals.row -> value) :
  (forall p, exists x : R, field (periodRow p) = VNum (Fin x)) ->
  fieldOf field (lastRow (series s)) = VUndef
  \/ exists l : R, fieldOf field (lastRow (series s)) = VNum (Fin l).
Proof.
  intros Hfield. unfold lastRow, series. rewrite nth_error_map.
  destruct (nth_error s _) as [p |]; cbn [option_map fieldOf].
  - right. apply Hfield.
  - now left.
Qed.

Section LocalChart.

Context {host : Host}.

(** X24: the chart of [updateSlide5] is always drawn.  For a national
    series of finite values and any ICB whose two annualised figures are
    finite numbers or missing (and for no ICB at all), [localiseSeries]
    gives a series of finite values with the same labels, and
    [renderReferralsChart] on it ends: with [k >= 1] the number of steps of
    its axis, it returns the [k + 1] gridlines, the axes, the legend and the
    bars. *)
Theorem updateSlide5_chart (s : list Period) (icb : option Icb.t) :
  (forall i : Icb.t,
     icb = Some i ->
     figure (Icb.annualised_referrals i)
     /\ figure (Icb.annualised_accessing_services i)) ->
  exists (s' : list Period) (k : nat) (st : R),
    localiseSeries (series s) icb = series s'
    /\ map period s' = map period s
    /\ (1 <= k)%nat
    /\ Referrals.yMax (localiseSeries (series s) icb) = Fin (INR k * st)
    /\ forall extra : nat,
         Referrals.renderReferralsChart (S k + extra)
           (localiseSeries (series s) icb)
         = Some (flat_map (Referrals.gridline (localiseSeries (series s) icb))
                          (map (fun j => Fin (INR j * st)) (seq 0 (S k)))
                 ++ Referrals.axes (localiseSeries (series s) icb)
                 ++ Referrals.legend
                 ++ Referrals.bars (localiseSeries (series s) icb))%list.
Proof.
  intros Hicb.
  assert (Hfig : figure (fieldOf Icb.annualised_referrals icb)
                 /\ figure (fieldOf Icb.annualised_accessing_services icb)).
  { destruct icb as [i |]; cbn [fieldOf].
    - now apply Hicb.
    - split; right; now left. }
  destruct Hfig as [Href Hacc].
  destruct (share_figure _ _ Href
              (lastRow_series s Referrals.referrals
                 (fun p => ex_intro _ (valueA p) eq_refl))) as (f & Ef).
  destruct (share_figure _ _ Hacc
              (lastRow_series s Referrals.accessed
                 (fun p => ex_intro _ (valueB p) eq_refl))) as (g & Eg).
  rewrite (localiseSeries_scaled s icb f g Ef Eg).
  destruct (gridlines_run (map (scalePeriod f g) s))
    as (k & st & Hk & _ & _ & Ey & _ & Hrun).
  exists (map (scalePeriod f g) s), k, st.
  split; [reflexivity |]. split; [now rewrite map_map |].
  split; [exact Hk |]. split; [exact Ey | exact Hrun].
Qed.

End LocalChart.
(** *** The bars of a period, whatever its values *)

Section Bars.

Context {host : Host}.

(** A finite axis maximum is a whole number of steps. *)
Lemma axis_steps (rows : list Referrals.row) (Y : R) :
  Referrals.yMax rows = Fin Y ->
  exists (st : R) (k : nat),
    Referrals.step rows = Fin st /\ 0.05 <= st /\ (1 <= k)%nat
    /\ Y = INR k * st.
Proof.
  intros EY. destruct (Referrals.maxVal rows) as [M | | |] eqn:EM.
  - destruct (axis_shape rows M EM) as (st & k & Est & Hst & Hk & Ey & _).
    exists st, k. repeat (split; [assumption |]). congruence.
  - exfalso. unfold Referrals.yMax, Referrals.step in EY. rewrite EM in EY.
    revert EY. num_eval. discriminate.
  - exists 0.05, 1%nat. unfold Referrals.yMax, Referrals.step in *.
    rewrite EM in *. split; [reflexivity |]. split; [lra |]. split; [lia |].
    revert EY. num_eval. intros E. injection E as <-. cbn. lra.
  - exfalso. unfold Referrals.yMax, Referrals.step in EY. rewrite EM in EY.
    revert EY. num_eval. discriminate.
Qed.

(** The axis maximum is a finite number, [NaN] or [+Infinity]. *)
Lemma yMax_cases (rows : list Referrals.row) :
  (exists Y : R, Referrals.yMax rows = Fin Y)
  \/ Referrals.yMax rows = NaN \/ Referrals.yMax rows = PInf.
Proof.
  unfold Referrals.yMax. destruct (step_positive rows) as (st & -> & Hst).
  destruct (Num.ceil (Referrals.maxVal rows * 1.12 / st) * st)%num as [c | | |].
  - left. cbn [Num.max Num.le]. destruct (Rleb st c); eexists; reflexivity.
  - right. right. reflexivity.
  - left. exists st. reflexivity.
  - right. left. reflexivity.
Qed.

(** On a finite axis the gridline loop ends after one turn per step. *)
Lemma chart_runs (rows : list Referrals.row) (st : R) (k : nat) :
  Referrals.step rows = Fin st -> 0.05 <= st -> (1 <= k)%nat ->
  Referrals.yMax rows = Fin (INR k * st) ->
  forall extra : nat,
    Referrals.renderReferralsChart (S k + extra) rows
    = Some (flat_map (Referrals.gridline rows)
                     (map (fun j => Fin (INR j * st)) (seq 0 (S k)))
            ++ Referrals.axes rows ++ Referrals.legend
            ++ Referrals.bars rows)%list.
Proof.
  intros Est Hst Hk Ey extra.
  assert (HkR : 1 <= INR k) by (apply (le_INR 1 k); exact Hk).
  unfold Referrals.renderReferralsChart, Referrals.gridlines.
  rewrite Est, Ey. cbn [Num.add].
  replace (Fin 0) with (Fin (INR 0 * st)) by (f_equal; cbn; ring).
  rewrite (tickLoop_run (S k) extra).
  - rewrite tickValues_steps. reflexivity.
  - rewrite tickValues_steps. apply Forall_forall. intros v Hv.
    apply in_map_iff in Hv as (j & <- & Hj). apply in_seq in Hj.
    cbn [Num.le]. apply Rleb_true.
    assert (HjR : INR j <= INR k) by (apply le_INR; lia). nra.
  - rewrite tickAt_steps. cbn [Nat.add Num.le]. apply Rleb_false.
    rewrite S_INR. lra.
Qed.

(** Below an infinite limit the loop never ends. *)
Lemma tickLoop_endless (fuel : nat) (t st : R) (body : num -> list element) :
  tickLoop fuel (Fin t) PInf (Fin st) body = None.
Proof.
  revert t. induction fuel as [|fuel IH]; intros t; cbn [tickLoop Num.le].
  - reflexivity.
  - cbn [Num.add]. now rewrite IH.
Qed.

Lemma bars_length (rows : list Referrals.row) (l : list Referrals.rowM)
    (start : nat) :
  List.length (indexLoop (Referrals.group rows) start l)
  = (3 * List.length l)%nat.
Proof.
  revert start. induction l as [|d l IH]; intros start; [reflexivity |].
  cbn [indexLoop]. rewrite length_app, IH. cbn [List.length Referrals.group].
  lia.
Qed.

(** The height and the top of a bar on an axis whose maximum is [NaN]. *)
Lemma bar_nan (rows : list Referrals.row) (x w v : num) (color : string) :
  Referrals.yMax rows = NaN ->
  getAttribute "height" (Referrals.bar rows x w v color) = Some (ANum NaN)
  /\ getAttribute "y" (Referrals.bar rows x w v color) = Some (ANum NaN).
Proof.
  intros EY.
  unfold Referrals.bar, getAttribute, el. cbn [fold_left fst snd assocSet attrsOf].
  cbn. unfold Referrals.y0, Referrals.yScale. rewrite EY.
  destruct v; split; reflexivity.
Qed.

(** The height and the top of a bar of a finite value on a finite axis. *)
Lemma bar_finite (rows : list Referrals.row) (Y : R) (x w : num) (v : R)
    (color : string) :
  Referrals.yMax rows = Fin Y -> 0 < Y ->
  getAttribute "height" (Referrals.bar rows x w (Fin v / 1e6)%num color)
  = Some (ANum (Fin (Rmax 0 (v / 1e6 / Y * 540))))
  /\ getAttribute "y" (Referrals.bar rows x w (Fin v / 1e6)%num color)
     = Some (ANum (Fin (610 - v / 1e6 / Y * 540))).
Proof.
  intros EY HY.
  assert (Ev : (Fin v / 1e6)%num = Fin (v / 1e6)).
  { cbn [Num.div]. now rewrite (Reqb_false 1e6 0) by lra. }
  assert (Ey : Referrals.yScale rows (Fin v / 1e6)%num
               = Fin (610 - v / 1e6 / Y * 540)).
  { rewrite Ev, (referrals_yScale rows Y _ EY HY). f_equal. field. lra. }
  assert (Eh : Num.max 0 (Referrals.y0 rows
                          - Referrals.yScale rows (Fin v / 1e6))%num
               = Fin (Rmax 0 (v / 1e6 / Y * 540))).
  { rewrite Ey. unfold Referrals.y0.
    rewrite (referrals_yScale rows Y _ EY HY).
    cbn [Num.sub Num.neg Num.add]. rewrite max_fin. do 2 f_equal.
    field. lra. }
  unfold Referrals.bar. cbv zeta. rewrite Eh, Ey. split; reflexivity.
Qed.

(** C7, as the code has it.  The loop over the periods appends, for the
    period at position [i], three elements at the positions [3 i], [3 i + 1]
    and [3 i + 2] of what it draws: a grey rectangle for the referrals, a
    blue one for the accessed count and the label of the year; no test on
    the values comes before, so no bar is omitted, and what the renderer
    returns ends with these elements.  What the two rectangles look like
    depends on the axis maximum, which is a finite number, [NaN] or
    [+Infinity]:
    - on a finite axis maximum [Y] (every series of finite values has one)
      the renderer returns, the rectangle of a finite value [v] has the
      height [max 0 (v / 1e6 / Y * 540)] and its top at
      [610 - v / 1e6 / Y * 540]; the rectangle of the referrals is drawn
      from the referrals, the one of the accessed count from the accessed
      count; so a value that is zero or [null] gives a rectangle of height
      0 on the baseline [y = 610];
    - a value that is missing ([undefined], or anything that converts to no
      number) anywhere in the series makes the axis maximum [NaN]; the
      renderer returns, without any gridline, and both rectangles of every
      period have the height [NaN] and the top [NaN], not 0;
    - on an infinite axis maximum the gridline loop never ends and the
      renderer returns nothing. *)
Theorem bars_for_zero_and_missing (rows : list Referrals.row) (i : nat)
    (row : Referrals.row) :
  nth_error rows i = Some row ->
  exists barA barB label : element,
    nth_error (Referrals.bars rows) (3 * i) = Some barA
    /\ nth_error (Referrals.bars rows) (3 * i + 1) = Some barB
    /\ nth_error (Referrals.bars rows) (3 * i + 2) = Some label
    /\ List.length (Referrals.bars rows) = (3 * List.length rows)%nat
    /\ (tagOf barA = "rect"
        /\ getAttribute "fill" barA = Some (AStr REFERRALS_GREY))
    /\ (tagOf barB = "rect"
        /\ getAttribute "fill" barB = Some (AStr BRAND_BLUE))
    /\ (tagOf label = "text" /\ textOf label = Referrals.year row)
    /\ (forall (fuel : nat) (chart : list element),
          Referrals.renderReferralsChart fuel rows = Some chart ->
          exists frame : list element,
            chart = (frame ++ Referrals.bars rows)%list)
    /\ ((exists Y : R, Referrals.yMax rows = Fin Y)
        \/ Referrals.yMax rows = NaN \/ Referrals.yMax rows = PInf)
    /\ (forall Y : R,
          Referrals.yMax rows = Fin Y ->
          0 < Y
          /\ (exists fuel : nat, forall extra : nat,
                exists grid : list element,
                  Referrals.renderReferralsChart (fuel + extra) rows
                  = Some (grid ++ Referrals.axes rows ++ Referrals.legend
                          ++ Referrals.bars rows)%list)
          /\ (forall v : R,
                toNumber (Referrals.referrals row) = Fin v ->
                getAttribute "height" barA
                = Some (ANum (Fin (Rmax 0 (v / 1e6 / Y * 540))))
                /\ getAttribute "y" barA
                   = Some (ANum (Fin (610 - v / 1e6 / Y * 540))))
          /\ (forall v : R,
                toNumber (Referrals.accessed row) = Fin v ->
                getAttribute "height" barB
                = Some (ANum (Fin (Rmax 0 (v / 1e6 / Y * 540))))
                /\ getAttribute "y" barB
                   = Some (ANum (Fin (610 - v / 1e6 / Y * 540))))
          /\ (toNumber (Referrals.referrals row) = Fin 0 ->
                getAttribute "height" barA = Some (ANum (Fin 0))
                /\ getAttribute "y" barA = Some (ANum (Fin 610)))
          /\ (toNumber (Referrals.accessed row) = Fin 0 ->
                getAttribute "height" barB = Some (ANum (Fin 0))
                /\ getAttribute "y" barB = Some (ANum (Fin 610))))
    /\ (forall s : list Period,
          rows = series s -> exists Y : R, Referrals.yMax rows = Fin Y)
    /\ (forall other : Referrals.row,
          In other rows ->
          toNumber (Referrals.referrals other) = NaN
          \/ toNumber (Referrals.accessed other) = NaN ->
          Referrals.yMax rows = NaN)
    /\ (Referrals.yMax rows = NaN ->
          (getAttribute "height" barA = Some (ANum NaN)
           /\ getAttribute "y" barA = Some (ANum NaN))
          /\ (getAttribute "height" barB = Some (ANum NaN)
              /\ getAttribute "y" barB = Some (ANum NaN))
          /\ forall fuel : nat,
               Referrals.renderReferralsChart fuel rows
               = Some (Referrals.axes rows ++ Referrals.legend
                       ++ Referrals.bars rows)%list)
    /\ (Referrals.yMax rows = PInf ->
          forall fuel : nat,
            Referrals.renderReferralsChart fuel rows = None).
Proof.
  intros Hrow.
  set (d := {| Referrals.yearM := Referrals.year row;
               Referrals.referralsM :=
                 (toNumber (Referrals.referrals row) / 1e6)%num;
               Referrals.accessedM :=
                 (toNumber (Referrals.accessed row) / 1e6)%num |}).
  assert (Hd : nth_error (Referrals.dataM rows) i = Some d).
  { unfold Referrals.dataM. rewrite nth_error_map, Hrow. reflexivity. }
  pose proof (fun j Hj =>
                indexLoop_group_nth rows (Referrals.dataM rows) 0 i j d Hd Hj)
    as Hnth.
  fold (Referrals.bars rows) in Hnth. cbn [Nat.add] in Hnth.
  pose proof (Hnth 0%nat ltac:(lia)) as HA. rewrite Nat.add_0_r in HA.
  pose proof (Hnth 1%nat ltac:(lia)) as HB.
  pose proof (Hnth 2%nat ltac:(lia)) as HL.
  cbn [Referrals.group nth_error] in HA, HB, HL.
  eexists _, _, _.
  split; [exact HA |]. split; [exact HB |]. split; [exact HL |].
  split.
  { unfold Referrals.bars. rewrite bars_length. unfold Referrals.dataM.
    now rewrite length_map. }
  split; [split; reflexivity |]. split; [split; reflexivity |].
  split; [split; reflexivity |].
  split.
  { intros fuel chart. unfold Referrals.renderReferralsChart.
    destruct (Referrals.gridlines fuel rows) as [grid |]; [| discriminate].
    cbn [option_map]. intros E. injection E as <-.
    exists (grid ++ Referrals.axes rows ++ Referrals.legend)%list.
    now rewrite <- !app_assoc. }
  split; [apply yMax_cases |].
  split.
  { intros Y EY. pose proof (yMax_positive rows Y EY) as HY.
    split; [exact HY |]. split.
    { destruct (axis_steps rows Y EY) as (st & k & Est & Hst & Hk & ->).
      exists (S k). intros extra. eexists.
      exact (chart_runs rows st k Est Hst Hk EY extra). }
    cbn [Referrals.referralsM Referrals.accessedM d].
    split; [intros v ->; now apply bar_finite |].
    split; [intros v ->; now apply bar_finite |].
    split; intros ->;
      match goal with
      | |- getAttribute _ (Referrals.bar _ ?x ?w _ ?c) = _ /\ _ =>
          destruct (bar_finite rows Y x w 0 c EY HY) as [Eh Ey]
      end;
      rewrite Eh, Ey; unfold Rdiv; rewrite !Rmult_0_l;
      (split; do 3 f_equal; [apply Rmax_left; lra | lra]). }
  split; [intros s ->; apply yMax_series_finite |].
  split; [intros other Hin Hnan; exact (yMax_missing rows other Hin Hnan) |].
  split.
  { intros EY. split; [now apply bar_nan |]. split; [now apply bar_nan |].
    intros fuel. unfold Referrals.renderReferralsChart, Referrals.gridlines.
    rewrite EY. destruct fuel; reflexivity. }
  intros EY fuel. unfold Referrals.renderReferralsChart, Referrals.gridlines.
  rewrite EY. destruct (step_positive rows) as (st & -> & _).
  cbn [Num.add]. now rewrite tickLoop_endless.
Qed.

End Bars.

(** * Closed examples *)

(** ** Numbers as text *)

Example toFixed_two_decimals :
  toFixed 2 (Fin 12.5) = "12.50"%string
  /\ toFixed 2 (Fin (-0.375)) = "-0.38"%string
  /\ toFixed 2 (Fin 0) = "0.00"%string
  /\ toFixed 1 (Fin 8.4) = "8.4"%string
  /\ toFixed 2 NaN = "NaN"%string.
Proof.
  repeat split.
  - rewrite (toFixed_value 2 12.5 1250).
    + rewrite Rltb_false by lra. reflexivity.
    + rewrite Rabs_pos_eq; lra.
    + rewrite Rabs_pos_eq by lra. cbn [pow]. lra.
  - rewrite (toFixed_value 2 (-0.375) 38).
    + rewrite Rltb_true by lra. reflexivity.
    + rewrite Rabs_left; lra.
    + rewrite Rabs_left by lra. cbn [pow]. lra.
  - rewrite (toFixed_value 2 0 0).
    + rewrite Rltb_false by lra. reflexivity.
    + rewrite Rabs_R0. lra.
    + rewrite Rabs_R0. cbn [pow]. lra.
  - rewrite (toFixed_value 1 8.4 84).
    + rewrite Rltb_false by lra. reflexivity.
    + rewrite Rabs_pos_eq; lra.
    + rewrite Rabs_pos_eq by lra. cbn [pow]. lra.
Qed.

(** ** Projector *)

Lemma mercatorProject_equator :
  -90 < 0 < 90
  /\ mercatorProject (VNum (Fin 0)) (VNum (Fin 0))
     = (Fin (0 * PI / 180), Fin (ln (tan (PI / 4 + 0 * PI / 180 / 2)))).
Proof.
  split; [lra |]. apply (mercatorProject_formula 0 0). lra.
Defined.

(** ** Bounds fitter *)

Lemma planarY_increasing (p q : LonLat) :
  -90 < lat p -> lat p < lat q -> lat q < 90 -> planarY p < planarY q.
Proof.
  intros Hp Hpq Hq. unfold planarY. pose proof PI_RGT_0 as Hpi.
  destruct (mercator_angle (lat p) ltac:(lra)) as [Hp0 Hp1].
  destruct (mercator_angle (lat q) ltac:(lra)) as [Hq0 Hq1].
  apply ln_increasing; [now apply tan_gt_0 |].
  apply tan_increasing; nra.
Qed.

Lemma twoCorners_valid : validPoints (allPoints twoCorners).
Proof.
  intros p Hp. cbn in Hp.
  destruct Hp as [<- | [<- | [<- | []]]]; cbn; lra.
Qed.

Lemma twoCorners_box :
  fold_left (fun b p => widen p b) (allPoints twoCorners) noBounds
  = {| minX := Fin (planarX cornerA); minY := Fin (planarY cornerA);
       maxX := Fin (planarX cornerB); maxY := Fin (planarY cornerB) |}.
Proof.
  assert (Hx : planarX cornerA < planarX cornerB).
  { unfold planarX, cornerA, cornerB. cbn [lon]. pose proof PI_RGT_0. lra. }
  assert (Hy : planarY cornerA < planarY cornerB).
  { apply planarY_increasing; cbn; lra. }
  unfold twoCorners, cornerRing.
  cbn [allPoints flat_map shape shapePoints List.concat app fold_left].
  unfold widen, noBounds.
  cbn [minX minY maxX maxY Num.lt Num.gt]. decide_R.
  cbn [minX minY maxX maxY Num.lt Num.gt]. decide_R.
  reflexivity.
Qed.

Lemma fitted_projection_twoCorners :
  exists (proj : Projection) (x0 y0 x1 y1 : R),
    buildGeoProjection (collection twoCorners) (Fin 1000) (Fin 680) = Ok proj
    /\ {| minX := Fin (planarX cornerA); minY := Fin (planarY cornerA);
          maxX := Fin (planarX cornerB); maxY := Fin (planarY cornerB) |}
       = {| minX := Fin x0; minY := Fin y0; maxX := Fin x1; maxY := Fin y1 |}
    /\ x0 < x1 /\ y0 < y1
    /\ forall p, In p (allPoints twoCorners) ->
         exists px py : R,
           project proj (VNum (Fin (lon p))) (VNum (Fin (lat p)))
           = (Fin px, Fin py)
           /\ 20 - slack 1000 x0 x1 <= px <= 980 + slack 1000 x0 x1
           /\ 13.6 - slack 680 y0 y1 <= py <= 666.4 + slack 680 y0 y1
           /\ (spread x0 x1 <= 1000000 ->
               0 <= 19.99999 <= px /\ px <= 980.00001 <= 1000)
           /\ (spread y0 y1 <= 1000000 ->
               0 <= 13.59999 <= py /\ py <= 666.40001 <= 680).
Proof.
  assert (Hx : planarX cornerA < planarX cornerB).
  { unfold planarX, cornerA, cornerB. cbn [lon]. pose proof PI_RGT_0. lra. }
  assert (Hy : planarY cornerA < planarY cornerB).
  { apply planarY_increasing; cbn; lra. }
  apply (fitted_projection_inside_canvas twoCorners
           {| minX := Fin (planarX cornerA); minY := Fin (planarY cornerA);
              maxX := Fin (planarX cornerB); maxY := Fin (planarY cornerB) |}).
  - exact twoCorners_valid.
  - rewrite (scanBounds_collection twoCorners twoCorners_valid).
    now rewrite twoCorners_box.
  - unfold extentX. cbn [minX maxX Num.sub Num.neg Num.add Num.lt].
    apply Rltb_true. lra.
  - unfold extentY. cbn [minY maxY Num.sub Num.neg Num.add Num.lt].
    apply Rltb_true. lra.
Defined.

(** The empty collection: the translations are not numbers, and neither is
    any pixel coordinate. *)
Lemma onePoint_valid : validPoints (allPoints onePoint).
Proof. intros p [<- | []]. cbn. lra. Qed.

Lemma empty_collection_fit :
  buildGeoProjection noRegions (Fin 1000) (Fin 680)
  = Ok {| scale := Fin (0.96 * 0); tx := NaN; ty := NaN |}
  /\ project {| scale := Fin (0.96 * 0); tx := NaN; ty := NaN |}
             (VNum (Fin 0)) (VNum (Fin 0))
     = (NaN, NaN)
  /\ buildGeoProjection (collection onePoint) (Fin 1000) (Fin 680)
     = Ok {| scale := PInf; tx := NaN; ty := NaN |}
  /\ project {| scale := PInf; tx := NaN; ty := NaN |}
             (VNum (Fin 0)) (VNum (Fin 0))
     = (NaN, NaN).
Proof.
  split; [| split; [| split]].
  - unfold buildGeoProjection, noRegions, scanBounds. cbn [features foldM bind].
    now rewrite fitBounds_noBounds.
  - now apply project_nan.
  - unfold buildGeoProjection.
    rewrite (scanBounds_collection onePoint onePoint_valid). cbn [bind].
    rewrite fitBounds_point; [reflexivity | |];
      cbn; f_equal; ring.
  - now apply project_nan.
Qed.

Lemma degenerate_extent_noRegions :
  exists proj : Projection,
    buildGeoProjection noRegions (Fin 1000) (Fin 680) = Ok proj
    /\ (features noRegions = []
        \/ (extentX noBounds = Fin 0 /\ extentY noBounds = Fin 0) ->
        tx proj = NaN /\ ty proj = NaN
        /\ forall lon lat : value, project proj lon lat = (NaN, NaN))
    /\ (forall d : R, 0 < d ->
        (extentX noBounds = Fin 0 /\ extentY noBounds = Fin d)
        \/ (extentX noBounds = Fin d /\ extentY noBounds = Fin 0) ->
        Num.isFinite (scale proj) = true
        /\ Num.isFinite (tx proj) = true
        /\ Num.isFinite (ty proj) = true
        /\ forall (lon lat : value) (x y : R),
             mercatorProject lon lat = (Fin x, Fin y) ->
             Num.isFinite (fst (project proj lon lat)) = true
             /\ Num.isFinite (snd (project proj lon lat)) = true).
Proof.
  apply (degenerate_extent_is_not_replaced noRegions noBounds). reflexivity.
Defined.

(** ** Geometry-to-path compiler *)

Lemma cornerRing_in_range :
  forall p, In p (shapePoints cornerRing) ->
    fixedRange (fst (plainProject (VNum (Fin (lon p))) (VNum (Fin (lat p)))))
    /\ fixedRange (snd (plainProject (VNum (Fin (lon p))) (VNum (Fin (lat p))))).
Proof.
  intros p Hp. cbn in Hp.
  destruct Hp as [<- | [<- | [<- | []]]]; cbn; split; eexists; split;
    try reflexivity; unfold Rabs; destruct (Rcase_abs _); lra.
Qed.

Example shapeText_cornerRing :
  shapeText plainProject cornerRing
  = "M0.00 0.00L1.00 1.00L0.00 0.00Z"%string.
Proof.
  assert (E0 : toFixed 2 (Fin 0) = "0.00"%string)
    by apply toFixed_two_decimals.
  assert (E1 : toFixed 2 (Fin 1) = "1.00"%string).
  { rewrite (toFixed_value 2 1 100).
    - rewrite Rltb_false by lra. reflexivity.
    - rewrite Rabs_pos_eq; lra.
    - rewrite Rabs_pos_eq by lra. cbn [pow]. lra. }
  unfold shapeText, cornerRing, polygonText, ringText, pointText, plainProject,
    cornerA, cornerB.
  cbn [map lon lat toNumber]. rewrite E0, E1. reflexivity.
Qed.

Lemma geomToPath_cornerRing :
  geomToPath (Some (shapeGeometry cornerRing)) plainProject
  = Ok (shapeText plainProject cornerRing)
  /\ Forall (hasDecimals 2) (emitted plainProject cornerRing).
Proof.
  destruct (geomToPath_text plainProject cornerRing) as (Hpath & _ & _ & Hdec & _).
  split; [exact Hpath | exact (Hdec cornerRing_in_range)].
Defined.

(** A ring without points compiles to nothing, not even a close-path, and a
    coordinate that is not a number is written [NaN]. *)
Lemma geomToPath_empty_ring_and_nan :
  geomToPath (Some {| type := Some "Polygon"%string;
                      coordinates := VArr [VArr []] |}) plainProject
  = Ok ""%string
  /\ geomToPath (Some {| type := Some "Polygon"%string;
                         coordinates := VArr [VArr [VArr [VNum NaN; VNum NaN]]] |})
                plainProject
     = Ok "MNaN NaNZ"%string.
Proof. split; reflexivity. Qed.

(** A Polygon without coordinates, and a ring that holds [null] for a
    point, raise a [TypeError]. *)
Lemma geomToPath_raises :
  geomToPath (Some {| type := Some "Polygon"%string; coordinates := VUndef |})
             plainProject
  = Throw TypeError
  /\ geomToPath (Some {| type := Some "Polygon"%string;
                         coordinates := VArr [VArr [VNull]] |}) plainProject
     = Throw TypeError
  /\ geomToPath (Some {| type := Some "MultiPolygon"%string;
                         coordinates := VArr [VNull] |}) plainProject
     = Throw TypeError.
Proof. repeat split; reflexivity. Qed.

(** ** Region map renderer *)

Lemma renderMap_mixedRegions : renderMap mixedRegions = Ok mixedHandle.
Proof. reflexivity. Qed.

Lemma setSelected_mixedRegions :
  List.length (shapes (setSelected mixedHandle "E54000008"))
  = List.length (features mixedRegions)
  /\ (forall (i : nat) (k : string) (path : element),
        nth_error (shapes mixedHandle) i = Some path ->
        keeps (features mixedRegions) i k ->
        nth_error (shapes (setSelected mixedHandle "E54000008")) i
        = Some (paint (String.eqb k "E54000008") path)
        /\ getAttribute "fill" (paint (String.eqb k "E54000008") path)
           = Some (AStr (if String.eqb k "E54000008"
                         then BRAND_BLUE else "#c7cdd9"))
        /\ getAttribute "opacity" (paint (String.eqb k "E54000008") path)
           = Some (AStr (if String.eqb k "E54000008" then "1" else "0.95")))
  /\ (forall (i : nat) (path : element),
        nth_error (shapes mixedHandle) i = Some path ->
        (forall k, ~ keeps (features mixedRegions) i k) ->
        nth_error (shapes (setSelected mixedHandle "E54000008")) i = Some path
        /\ unpainted path)
  /\ setSelected (setSelected mixedHandle "E54000008") "E54000008"
     = setSelected mixedHandle "E54000008"
  /\ ((forall feat, In feat (features mixedRegions) ->
         codeOf feat <> Some "E54000008"%string) ->
      Forall (fun path => getAttribute "fill" path = Some (AStr "#c7cdd9"))
             (shapes (setSelected mixedHandle "E54000008"))).
Proof.
  apply (setSelected_repaints mixedRegions mixedHandle "E54000008").
  exact renderMap_mixedRegions.
Defined.

(** Selecting the coded region leaves the path of the region without a code
    as it was drawn: the default colour and no opacity attribute, not the
    reduced opacity.  Of two regions with the same code only the second is
    highlighted; the first is left as it was drawn. *)
Lemma setSelected_skips_uncoded :
  renderMap mixedRegions = Ok mixedHandle
  /\ map (getAttribute "fill")
         (shapes (setSelected mixedHandle "E54000008"))
     = [Some (AStr BRAND_BLUE); Some (AStr "#c7cdd9")]
  /\ map (getAttribute "opacity")
         (shapes (setSelected mixedHandle "E54000008"))
     = [Some (AStr "1"); None]
  /\ renderMap twinRegions = Ok twinHandle
  /\ map (getAttribute "fill")
         (shapes (setSelected twinHandle "E54000008"))
     = [Some (AStr "#c7cdd9"); Some (AStr BRAND_BLUE)]
  /\ map (getAttribute "opacity")
         (shapes (setSelected twinHandle "E54000008"))
     = [None; Some (AStr "1")].
Proof. repeat split; reflexivity. Qed.

(** ** Series chart renderers *)

Lemma referrals_axis_oneYear :
  series oneYear <> []
  /\ (Referrals.step (series oneYear) = Fin (niceStep (observedMax oneYear))
      /\ (niceStep (observedMax oneYear) = 0.05
          \/ niceStep (observedMax oneYear) = 0.1
          \/ niceStep (observedMax oneYear) = 0.2
          \/ niceStep (observedMax oneYear) = 0.5)
      /\ exists k : Z,
           (1 <= k)%Z
           /\ Referrals.yMax (series oneYear)
              = Fin (IZR k * niceStep (observedMax oneYear))
           /\ 1.12 * observedMax oneYear
              <= IZR k * niceStep (observedMax oneYear)).
Proof.
  assert (H : series oneYear <> []) by discriminate.
  split; [exact H |].
  exact (proj1 (referrals_axis_fits (series oneYear) H) oneYear eq_refl).
Defined.

(** A series of one period whose referrals are missing: the step is 0.5 and
    the axis maximum is [NaN], which is no multiple of the step and is not
    at least 1.12 times anything. *)
Lemma missing_value_axis :
  missingReferrals <> []
  /\ Referrals.maxVal missingReferrals = NaN
  /\ Referrals.step missingReferrals = Fin 0.5
  /\ Referrals.yMax missingReferrals = NaN
  /\ (forall k : Z,
        Referrals.yMax missingReferrals <> (Fin (IZR k) * Fin 0.5)%num)
  /\ (forall m : R,
        Num.le (Fin (1.12 * m)) (Referrals.yMax missingReferrals) = false).
Proof.
  split; [discriminate |]. split; [reflexivity |]. split; [reflexivity |].
  split; [reflexivity |]. split; [intros k; discriminate | reflexivity].
Qed.

(** The example of the design document: a maximum of 0.43 million gives
    the step 0.1 and the axis maximum 0.5. *)
Example referrals_axis_peak043 :
  Referrals.step (series peak043) = Fin 0.1
  /\ Referrals.yMax (series peak043) = Fin (5 * 0.1).
Proof.
  assert (Es : Referrals.step (series peak043) = Fin 0.1).
  { unfold Referrals.step, Referrals.maxVal. cbn. num_eval. reflexivity. }
  split; [exact Es |].
  unfold Referrals.yMax. rewrite Es. unfold Referrals.maxVal. cbn.
  num_eval.
  rewrite (Zceil_eq 5) by lra. num_eval. reflexivity.
Qed.

(** A zero and a [null] value: two rectangles of height 0 on the
    baseline. *)
Lemma bars_zeroAndNull :
  exists barA barB : element,
    nth_error (Referrals.bars zeroAndNull) 0 = Some barA
    /\ nth_error (Referrals.bars zeroAndNull) 1 = Some barB
    /\ (getAttribute "height" barA = Some (ANum (Fin 0))
        /\ getAttribute "y" barA = Some (ANum (Fin 610)))
    /\ (getAttribute "height" barB = Some (ANum (Fin 0))
        /\ getAttribute "y" barB = Some (ANum (Fin 610))).
Proof.
  destruct (bars_for_zero_and_missing zeroAndNull 0
              {| Referrals.year := "2021";
                 Referrals.referrals := VNum (Fin 0);
                 Referrals.accessed := VNull |} eq_refl)
    as (barA & barB & label & HA & HB & _ & _ & _ & _ & _ & _ & _ & Hfin & _).
  assert (EM : Referrals.maxVal zeroAndNull = Fin 0).
  { unfold Referrals.maxVal. cbn. num_eval. reflexivity. }
  destruct (yMax_finite zeroAndNull 0 EM) as [Y EY].
  destruct (Hfin Y EY) as (_ & _ & _ & _ & HzA & HzB).
  exists barA, barB. split; [exact HA |]. split; [exact HB |].
  split; [exact (HzA eq_refl) | exact (HzB eq_refl)].
Defined.

(** A period whose referrals are missing: both of its rectangles get the
    height [NaN], not 0. *)
Lemma missing_value_bar_heights :
  Referrals.yMax missingReferrals = NaN
  /\ map (getAttribute "height") (Referrals.bars missingReferrals)
     = [Some (ANum NaN); Some (ANum NaN); None].
Proof. split; reflexivity. Qed.

(** A period whose referrals are infinite: the axis maximum is infinite and
    the renderer never returns. *)
Lemma infinite_value_chart :
  Referrals.yMax infiniteReferrals = PInf
  /\ forall fuel : nat,
       Referrals.renderReferralsChart fuel infiniteReferrals = None.
Proof.
  assert (EY : Referrals.yMax infiniteReferrals = PInf).
  { unfold Referrals.yMax, Referrals.step, Referrals.maxVal. cbn.
    num_eval. reflexivity. }
  split; [exact EY |]. intros fuel.
  unfold Referrals.renderReferralsChart, Referrals.gridlines. rewrite EY.
  destruct (step_positive infiniteReferrals) as (st & -> & _).
  cbn [Num.add]. now rewrite tickLoop_endless.
Qed.

(** A caller that wants the range 0 to 1 in steps of 0.5 would get three
    gridlines from a renderer that takes the range as arguments; the
    renderer draws its ten gridlines from 7.6 to 8.5 on every call. *)
Lemma sessions_range_is_not_an_argument :
  option_map (@List.length element)
             (gridlinesWith (Fin 0) (Fin 1) (Fin 0.5) 10)
  = Some 6%nat
  /\ option_map (@List.length element) (Sessions.gridlines 10) = Some 20%nat
  /\ option_map (@List.length element)
                (Sessions.renderSessionsChart 10 (Some []))
     = Some 23%nat.
Proof.
  split; [| split].
  - unfold gridlinesWith.
    rewrite (tickLoop_run 3 7 (Fin 0) (Fin 1 + 1e-9)%num (Fin 0.5)).
    + reflexivity.
    + cbn [tickValues]. num_eval. repeat constructor; num_eval; reflexivity.
    + cbn [tickAt]. num_eval. reflexivity.
  - rewrite (sessions_gridlines 0). reflexivity.
  - unfold Sessions.renderSessionsChart. rewrite (sessions_gridlines 0).
    reflexivity.
Qed.

(** * Further properties of the region map *)

(** ** When [renderMap] raises an exception *)

Lemma value_nested_ind (P : value -> Prop) :
  P VUndef -> P VNull -> (forall n, P (VNum n)) ->
  (forall l, Forall P l -> P (VArr l)) ->
  forall v, P v.
Proof.
  intros Hu Hn Hnum Harr. fix IH 1. intros [| | n | l].
  - exact Hu.
  - exact Hn.
  - apply Hnum.
  - apply Harr. induction l as [|x l IHl]; constructor; [apply IH | exact IHl].
Qed.

(** A loop whose body raises or not whatever the state. *)
Lemma foldM_throws {A S : Type} (body : A -> S -> result S) (ok : A -> bool)
    (l : list A) :
  (forall x, In x l -> forall s, throws (body x s) = negb (ok x)) ->
  forall s, throws (foldM body l s) = negb (forallb ok l).
Proof.
  induction l as [|x l IH]; intros Hbody s; cbn [foldM forallb].
  - reflexivity.
  - pose proof (Hbody x (or_introl eq_refl) s) as Hx.
    destruct (body x s) as [s' | e]; cbn [bind throws] in *.
    + rewrite IH by (intros y Hy; apply Hbody; now right).
      destruct (ok x); [reflexivity | discriminate].
    + destruct (ok x); [discriminate | reflexivity].
Qed.

Lemma forOf_throws {S : Type} (v : value) (body : value -> S -> result S)
    (ok : value -> bool) :
  (forall x s, throws (body x s) = negb (ok x)) ->
  forall s, throws (forOf v body s)
            = negb (match v with VArr l => forallb ok l | _ => false end).
Proof.
  intros Hbody s. destruct v as [| | n | l]; try reflexivity.
  cbn [forOf]. apply foldM_throws. intros x _. apply Hbody.
Qed.

Lemma trackPoint_throws (pt : value) (b : Bounds) :
  throws (trackPoint pt b) = negb (isArray pt).
Proof.
  unfold trackPoint. destruct pt as [| | n | l]; reflexivity.
Qed.

Lemma ring_scan_throws (ring : value) (b : Bounds) :
  throws (forOf ring trackPoint b) = negb (ringScans ring).
Proof. apply (forOf_throws ring trackPoint isArray). apply trackPoint_throws. Qed.

Lemma polygon_scan_throws (coords : value) (b : Bounds) :
  throws (forOf coords (fun ring => forOf ring trackPoint) b)
  = negb (polygonScans coords).
Proof.
  apply (forOf_throws coords (fun ring => forOf ring trackPoint) ringScans).
  apply ring_scan_throws.
Qed.

Lemma walk_throws (arr : value) :
  forall b, throws (walk trackPoint arr b) = negb (walks arr).
Proof.
  induction arr as [| | n | l IH] using value_nested_ind; intros b;
    try reflexivity.
  cbn [walk walks].
  destruct (isNumber (nth 0 l VUndef) && isNumber (nth 1 l VUndef)).
  - apply (trackPoint_throws (VArr l)).
  - revert b. induction IH as [|x l Hx _ IHl]; intros b; cbn [forallb].
    + reflexivity.
    + specialize (Hx b).
      destruct (walk trackPoint x b) as [b' | e]; cbn [bind throws] in *.
      * rewrite IHl. destruct (walks x); [reflexivity | discriminate].
      * destruct (walks x); [discriminate | reflexivity].
Qed.

Lemma scan_throws (geom : option Geometry) (b : Bounds) :
  throws (forEachCoord trackPoint geom b) = negb (scans geom).
Proof.
  destruct geom as [g |]; [| reflexivity]. unfold forEachCoord, scans.
  destruct (typeIs (type g) "Polygon"); [apply polygon_scan_throws |].
  destruct (typeIs (type g) "MultiPolygon").
  - apply (forOf_throws (coordinates g)
             (fun poly => forOf poly (fun ring => forOf ring trackPoint))
             polygonScans).
    intros poly s. apply polygon_scan_throws.
  - destruct (coordinates g) as [| | n | l] eqn:E; try reflexivity.
    apply walk_throws.
Qed.

Lemma scanBounds_throws (geo : FeatureCollection) :
  throws (scanBounds geo)
  = negb (forallb (fun feat => scans (geometry feat)) (features geo)).
Proof.
  unfold scanBounds.
  apply (foldM_throws
           (fun feat => forEachCoord trackPoint (geometry feat))
           (fun feat => scans (geometry feat))).
  intros feat _ s. apply scan_throws.
Qed.

Lemma forallb_impl {A : Type} (f g : A -> bool) (l : list A) :
  (forall x, f x = true -> g x = true) ->
  forallb f l = true -> forallb g l = true.
Proof.
  intros Himp. rewrite !forallb_forall. intros H x Hx. apply Himp. now apply H.
Qed.

(** What the scan accepts, the path compiler accepts. *)
Lemma scans_compiles (geom : option Geometry) :
  scans geom = true -> compiles geom = true.
Proof.
  assert (Hring : forall ring, ringScans ring = true -> ringCompiles ring = true).
  { intros [| | n | pts]; try discriminate. exact (fun H => H). }
  assert (Hpoly : forall coords,
            polygonScans coords = true -> polygonCompiles coords = true).
  { intros [| | n | rings]; try discriminate. cbn.
    apply forallb_impl. exact Hring. }
  destruct geom as [g |]; [| reflexivity]. unfold scans, compiles.
  destruct (typeIs (type g) "Polygon"); [apply Hpoly |].
  destruct (typeIs (type g) "MultiPolygon"); [| reflexivity].
  destruct (coordinates g) as [| | n | polygons]; try discriminate.
  apply forallb_impl. exact Hpoly.
Qed.

Section MapExceptions.

Context {host : Host}.

Lemma renderFeature_throws (proj : Projection) (feat : Feature) (h : MapHandle) :
  throws (renderFeature proj feat h) = negb (compiles (geometry feat)).
Proof.
  unfold renderFeature.
  rewrite <- (geomToPath_throws (project proj) (geometry feat)).
  now destruct (geomToPath (geometry feat) (project proj)).
Qed.

(** X16: [renderMap] raises an exception exactly when the bounds scan of
    some feature does: when the coordinates of a Polygon are not an array of
    arrays of arrays (of arrays of arrays of arrays, for a MultiPolygon), or
    when the coordinates of a geometry of another type are an array in which
    the walker meets something that is not an array.  A feature without
    geometry, and one of another type whose coordinates are not an array,
    never make it raise.  The scan is stricter than the path compiler: every
    geometry it accepts compiles, while a Polygon with a [null] ring, for
    which the compiler writes nothing, makes the scan, and so [renderMap],
    raise. *)
Theorem renderMap_exceptions (geo : FeatureCollection) :
  throws (renderMap geo)
  = negb (forallb (fun feat => scans (geometry feat)) (features geo))
  /\ (forall geom, scans geom = true -> compiles geom = true)
  /\ compiles (Some {| type := Some "Polygon"%string;
                       coordinates := VArr [VNull] |}) = true
  /\ scans (Some {| type := Some "Polygon"%string;
                    coordinates := VArr [VNull] |}) = false
  /\ scans None = true
  /\ (forall t : option string,
        scans (Some {| type := t; coordinates := VNull |})
        = negb (typeIs t "Polygon" || typeIs t "MultiPolygon")).
Proof.
  split; [| split; [exact scans_compiles | repeat split]].
  - unfold renderMap, buildGeoProjection.
    pose proof (scanBounds_throws geo) as Hscan.
    destruct (scanBounds geo) as [b | e]; cbn [bind throws] in *.
    + rewrite (foldM_throws (renderFeature (fitBounds b (Fin 1000) (Fin 680)))
                 (fun feat => compiles (geometry feat)))
        by (intros feat _ s; apply renderFeature_throws).
      rewrite <- Hscan. cbn [negb]. symmetry in Hscan.
      apply negb_false_iff in Hscan. apply negb_false_iff.
      revert Hscan. apply forallb_impl. intros feat. apply scans_compiles.
    + exact Hscan.
  - intros t. unfold scans. cbn [type coordinates].
    destruct (typeIs t "Polygon"); [reflexivity |].
    now destruct (typeIs t "MultiPolygon").
Qed.

End MapExceptions.

(** ** [renderMap] on the boundary data *)

Lemma ringScans_ring (r : Ring) : ringScans (ringValue r) = true.
Proof.
  unfold ringValue, ringScans. apply forallb_forall. intros pt Hpt.
  apply in_map_iff in Hpt as (p & <- & _). reflexivity.
Qed.

Lemma polygonScans_polygon (rings : list Ring) :
  polygonScans (polygonValue rings) = true.
Proof.
  unfold polygonValue, polygonScans. apply forallb_forall. intros ring Hring.
  apply in_map_iff in Hring as (r & <- & _). apply ringScans_ring.
Qed.

Lemma scans_shape (s : Shape) : scans (Some (shapeGeometry s)) = true.
Proof.
  destruct s as [rings | polygons]; unfold scans, shapeGeometry;
    cbn [type coordinates].
  - change (typeIs (Some "Polygon"%string) "Polygon") with true. cbv iota.
    apply polygonScans_polygon.
  - change (typeIs (Some "MultiPolygon"%string) "Polygon") with false.
    change (typeIs (Some "MultiPolygon"%string) "MultiPolygon") with true.
    cbv iota. apply forallb_forall. intros poly Hpoly.
    apply in_map_iff in Hpoly as (rings & <- & _). apply polygonScans_polygon.
Qed.

Lemma scanBounds_total (regions : list Region) :
  exists b : Bounds, scanBounds (collection regions) = Ok b.
Proof.
  pose proof (scanBounds_throws (collection regions)) as H.
  assert (Hall : forallb (fun feat => scans (geometry feat))
                         (features (collection regions)) = true).
  { apply forallb_forall. intros feat Hfeat. cbn [collection features] in Hfeat.
    apply in_map_iff in Hfeat as (r & <- & _). apply scans_shape. }
  rewrite Hall in H. destruct (scanBounds (collection regions)) as [b | e].
  - now exists b.
  - discriminate.
Qed.

Section MapOfRegions.

Context {host : Host}.
Variable proj : Projection.

(** The loop of [renderMap] over the regions of the data model. *)
Lemma renderFeatures_regions (regions : list Region) (h0 : MapHandle) :
  exists h : MapHandle,
    foldM (renderFeature proj) (map regionFeature regions) h0 = Ok h
    /\ map (getAttribute "d") (shapes h)
       = (map (getAttribute "d") (shapes h0)
          ++ map (fun r => Some (AStr (shapeText (project proj) (shape r))))
                 regions)%list
    /\ map (getAttribute "data-icb23cd") (shapes h)
       = (map (getAttribute "data-icb23cd") (shapes h0)
          ++ map (fun r => Some (AStr (orText (codeOf (regionFeature r)) "")))
                 regions)%list
    /\ map tooltip (shapes h)
       = (map tooltip (shapes h0)
          ++ map (fun r => [nameOf (regionFeature r)]) regions)%list.
Proof.
  revert h0. induction regions as [|r regions IH]; intros h0.
  - exists h0. cbn [map foldM]. now rewrite !app_nil_r.
  - cbn [map foldM]. unfold renderFeature at 1.
    cbn [regionFeature geometry]. rewrite geomToPath_shape. cbn [bind].
    match goal with
    | |- context [foldM _ _ ?h1] =>
        destruct (IH h1) as (h & E & Hd & Hcd & Htip)
    end.
    exists h. split; [exact E |].
    cbn [shapes] in Hd, Hcd, Htip.
    rewrite !map_app in Hd, Hcd, Htip. rewrite <- !app_assoc in Hd, Hcd, Htip.
    split; [| split].
    + rewrite Hd. reflexivity.
    + rewrite Hcd. reflexivity.
    + rewrite Htip. reflexivity.
Qed.

End MapOfRegions.

(** X17: on boundary data of the data model, whatever its coordinates,
    [renderMap] raises nothing and draws one path per region, in the order
    of the regions.  The [d] attribute of a path is the path text of the
    region's shape under the projection that the bounds fitter returns for
    the same data on the 1000 by 680 canvas; its [data-icb23cd] attribute is
    the region code, or the empty string when the region has none; its
    tooltip is the first of the short name, the name and the code that is
    given, or [ICB]; and it is drawn in the default colour with no opacity
    attribute. *)
Theorem renderMap_collection {host : Host} (regions : list Region) :
  exists (proj : Projection) (h : MapHandle),
    buildGeoProjection (collection regions) (Fin 1000) (Fin 680) = Ok proj
    /\ renderMap (collection regions) = Ok h
    /\ map (getAttribute "d") (shapes h)
       = map (fun r => Some (AStr (shapeText (project proj) (shape r))))
             regions
    /\ map (getAttribute "data-icb23cd") (shapes h)
       = map (fun r => Some (AStr (orText (codeOf (regionFeature r)) "")))
             regions
    /\ map tooltip (shapes h)
       = map (fun r => [nameOf (regionFeature r)]) regions
    /\ Forall unpainted (shapes h).
Proof.
  destruct (scanBounds_total regions) as (b & Eb).
  exists (fitBounds b (Fin 1000) (Fin 680)).
  assert (Eproj : buildGeoProjection (collection regions) (Fin 1000) (Fin 680)
                  = Ok (fitBounds b (Fin 1000) (Fin 680))).
  { unfold buildGeoProjection. now rewrite Eb. }
  destruct (renderFeatures_regions (fitBounds b (Fin 1000) (Fin 680)) regions
              {| shapes := []; pathsByCd := [] |})
    as (h & E & Hd & Hcd & Htip).
  assert (Eh : renderMap (collection regions) = Ok h).
  { unfold renderMap. rewrite Eproj. exact E. }
  exists h. repeat (split; [assumption |]).
  exact (inv_fresh _ _ (renderMap_inv _ _ Eh)).
Qed.

(** ** The selection depends on the last call only *)

Section AssocOverwrite.

Context {V : Type}.

Lemma assocSet_overwrite (k : string) (v w : V) (m : list (string * V)) :
  assocSet k w (assocSet k v m) = assocSet k w m.
Proof.
  induction m as [|[k' v'] m IH]; cbn.
  - now rewrite String.eqb_refl.
  - destruct (String.eqb_spec k' k) as [-> | Hne]; cbn.
    + now rewrite String.eqb_refl.
    + destruct (String.eqb_spec k' k); [contradiction | now rewrite IH].
Qed.

(** Setting a key that is there does not move it, so it commutes with
    setting another key. *)
Lemma assocSet_swap (k1 k2 : string) (v w : V) (m : list (string * V)) :
  k1 <> k2 -> In k1 (map fst m) ->
  assocSet k1 v (assocSet k2 w m) = assocSet k2 w (assocSet k1 v m).
Proof.
  intros Hne. induction m as [|[k' v'] m IH]; cbn; [intros [] |].
  intros Hin.
  destruct (String.eqb_spec k' k2) as [E2 | N2];
    destruct (String.eqb_spec k' k1) as [E1 | N1]; subst; cbn.
  - now contradiction Hne.
  - rewrite String.eqb_refl.
    destruct (String.eqb_spec k2 k1); [congruence | reflexivity].
  - rewrite String.eqb_refl.
    destruct (String.eqb_spec k1 k2); [congruence | reflexivity].
  - destruct (String.eqb_spec k' k1); [contradiction |].
    destruct (String.eqb_spec k' k2); [contradiction |].
    f_equal. apply IH. destruct Hin as [E | Hin]; [now contradiction N1 | exact Hin].
Qed.

End AssocOverwrite.

(** Painting over a painted path leaves what painting the fresh path
    leaves. *)
Lemma paint_over (b c : bool) (path : element) :
  paint c (paint b path) = paint c path.
Proof.
  destruct path as [t a x ch]. unfold paint, setAttribute. f_equal.
  set (o1 := AStr (if b then "1" else "0.95")).
  set (f1 := AStr (if b then BRAND_BLUE else "#c7cdd9")).
  set (o2 := AStr (if c then "1" else "0.95")).
  set (f2 := AStr (if c then BRAND_BLUE else "#c7cdd9")).
  rewrite (assocSet_swap "fill" "opacity" f2 o1) by
    (try discriminate; apply assocSet_keys; now left).
  now rewrite !assocSet_overwrite.
Qed.

Section LastSelection.

Context {host : Host}.
Variables (geo : FeatureCollection) (h : MapHandle).
Hypothesis Hbuilt : renderMap geo = Ok h.

Lemma selected_over (a b : string) :
  setSelected (setSelected h a) b = setSelected h b.
Proof.
  pose proof (renderMap_inv geo h Hbuilt) as Hinv.
  pose proof (mapInv_values _ _ Hinv) as Hnd.
  apply handle_eq; [| reflexivity].
  rewrite (selected_shapes (setSelected h a) b).
  change (pathsByCd (setSelected h a)) with (pathsByCd h).
  rewrite (selected_shapes h b).
  apply nth_error_ext. intros i.
  destruct (in_dec Nat.eq_dec i (map snd (pathsByCd h))) as [Hin | Hnot].
  - apply in_map_iff in Hin as ([k j] & E & Hin). cbn in E. subst j.
    rewrite !(repaint_kept b (pathsByCd h) _ k i Hnd Hin).
    rewrite (selected_shapes h a).
    rewrite (repaint_kept a (pathsByCd h) _ k i Hnd Hin).
    destruct (nth_error (shapes h) i) as [path |]; [| reflexivity].
    cbn [option_map]. now rewrite paint_over.
  - rewrite !(repaint_untouched b (pathsByCd h) _ i Hnot).
    rewrite (selected_shapes h a).
    now rewrite (repaint_untouched a (pathsByCd h) _ i Hnot).
Qed.

Lemma last_cons_default (l : list string) (c a : string) :
  last (c :: l) a = last l c.
Proof.
  revert c a. induction l as [|x l IH]; intros c a; [reflexivity |].
  change (last (c :: x :: l) a) with (last (x :: l) a).
  now rewrite !IH.
Qed.

Lemma selected_fold (cds : list string) (a : string) :
  fold_left setSelected cds (setSelected h a) = setSelected h (last cds a).
Proof.
  revert a. induction cds as [|c cds IH]; intros a; [reflexivity |].
  cbn [fold_left]. rewrite selected_over, IH. f_equal.
  symmetry. apply last_cons_default.
Qed.

Lemma selectEach_last (cds : list string) (cd : string) :
  selectEach h (cds ++ [cd]) = setSelected h cd.
Proof.
  unfold selectEach. destruct cds as [|c cds]; [reflexivity |].
  cbn [app fold_left]. rewrite selected_fold. now rewrite last_last.
Qed.

(** The paths that carry the highlight colour after a selection. *)
Lemma highlighted_is_kept (cd : string) (i : nat) (path : element) :
  nth_error (shapes (setSelected h cd)) i = Some path ->
  getAttribute "fill" path = Some (AStr BRAND_BLUE) ->
  keeps (features geo) i cd.
Proof.
  intros Hi Hfill.
  assert (Hlen : List.length (shapes (setSelected h cd)) = List.length (shapes h))
    by (rewrite selected_shapes; apply repaint_length).
  destruct (nth_error (shapes h) i) as [path0 |] eqn:Hpath.
  - destruct (kept_or_not geo h Hbuilt i) as [(k & Hk) | Hnone].
    + rewrite (selected_kept geo h cd Hbuilt i k path0 Hpath Hk) in Hi.
      injection Hi as <-. rewrite paint_fill in Hfill.
      destruct (String.eqb_spec k cd) as [E | _];
        [now rewrite <- E | discriminate].
    + destruct (selected_unkept geo h cd Hbuilt i path0 Hpath Hnone)
        as [E [Hdefault _]].
      rewrite E in Hi. injection Hi as <-. rewrite Hdefault in Hfill.
      discriminate.
  - exfalso. apply nth_error_None in Hpath.
    assert (Hsome : nth_error (shapes (setSelected h cd)) i <> None)
      by (rewrite Hi; discriminate).
    apply nth_error_Some in Hsome. lia.
Qed.

Lemma keeps_unique (feats : list Feature) (i j : nat) (k : string) :
  keeps feats i k -> keeps feats j k -> i = j.
Proof.
  intros (_ & Hi & Hlater_i) (_ & Hj & Hlater_j).
  destruct (Nat.lt_trichotomy i j) as [Hlt | [E | Hgt]]; [| exact E |].
  - now contradiction (Hlater_i j Hlt).
  - now contradiction (Hlater_j i Hgt).
Qed.

End LastSelection.

(** X18: the highlight of the map depends on the last selection only.  On
    a handle returned by [renderMap], a call of [setSelected] after any
    sequence of earlier calls leaves every path as the same call on the
    fresh handle leaves it; and after a selection at most one path carries
    the highlight colour: the path that the handle keeps for the selected
    code. *)
Theorem setSelected_last_wins {host : Host} (geo : FeatureCollection)
    (h : MapHandle) (cds : list string) (cd : string) :
  renderMap geo = Ok h ->
  selectEach h (cds ++ [cd]) = setSelected h cd
  /\ (forall (i j : nat) (p q : element),
        nth_error (shapes (selectEach h (cds ++ [cd]))) i = Some p ->
        nth_error (shapes (selectEach h (cds ++ [cd]))) j = Some q ->
        getAttribute "fill" p = Some (AStr BRAND_BLUE) ->
        getAttribute "fill" q = Some (AStr BRAND_BLUE) ->
        i = j /\ keeps (features geo) i cd).
Proof.
  intros Hbuilt. rewrite (selectEach_last geo h Hbuilt cds cd).
  split; [reflexivity |].
  intros i j p q Hi Hj Hp Hq.
  pose proof (highlighted_is_kept geo h Hbuilt cd i p Hi Hp) as Ki.
  pose proof (highlighted_is_kept geo h Hbuilt cd j q Hj Hq) as Kj.
  split; [exact (keeps_unique _ i j cd Ki Kj) | exact Ki].
Qed.

(** ** Picking a region on the map *)

Lemma find_unique_name (icbs : list Icb.t) (icb : Icb.t) :
  NoDup (map Icb.icb_name icbs) -> In icb icbs ->
  getIcbByName icbs (Icb.icb_name icb) = Some icb.
Proof.
  unfold getIcbByName. induction icbs as [|x icbs IH]; intros Hnd Hin.
  - destruct Hin.
  - cbn [map] in Hnd. inversion Hnd as [|? ? Hnotin Hrest]; subst.
    cbn [find]. destruct (String.eqb_spec (Icb.icb_name x) (Icb.icb_name icb))
      as [E | Hne].
    + destruct Hin as [-> | Hin]; [reflexivity |].
      exfalso. apply Hnotin. rewrite E. now apply in_map.
    + destruct Hin as [-> | Hin]; [now contradiction Hne | now apply IH].
Qed.

(** X19: a click on a region of the map selects that region.  Take a map
    drawn by [renderMap], on which any selections were made before, ICBs
    whose names are all different, and the path that the handle keeps for a
    code [cd] that some ICB carries.  A click on that path stores the name
    of the first ICB carrying [cd] as the selected name; the [updateAll]
    that follows finds that ICB again by its name and, when its slide
    updates return, leaves the map as [setSelected(cd)] on the fresh map
    leaves it: the clicked path in the highlight colour at full opacity.
    When the slide updates do not return, the name is stored and the map is
    left as it was.  When no ICB carries the code, the click changes
    nothing. *)
Theorem click_selects_region {host : Host} (slidesReturn : Icb.t -> bool)
    (icbs : list Icb.t) (geo : FeatureCollection) (h : MapHandle)
    (cds : list string) (name0 : string) (i : nat) (cd : string) :
  renderMap geo = Ok h ->
  NoDup (map Icb.icb_name icbs) ->
  keeps (features geo) i cd ->
  (forall icb : Icb.t,
     getIcbByCd icbs cd = Some icb ->
     selectedIcbName
       (pick slidesReturn icbs geo (selectionAfter name0 h cds) i)
     = Icb.icb_name icb
     /\ (slidesReturn icb = true ->
         mapApi (pick slidesReturn icbs geo (selectionAfter name0 h cds) i)
         = setSelected h cd
         /\ exists path : element,
              nth_error
                (shapes
                   (mapApi (pick slidesReturn icbs geo
                              (selectionAfter name0 h cds) i))) i
              = Some path
              /\ getAttribute "fill" path = Some (AStr BRAND_BLUE)
              /\ getAttribute "opacity" path = Some (AStr "1"))
     /\ (slidesReturn icb = false ->
         mapApi (pick slidesReturn icbs geo (selectionAfter name0 h cds) i)
         = selectEach h cds))
  /\ (getIcbByCd icbs cd = None ->
      pick slidesReturn icbs geo (selectionAfter name0 h cds) i
      = selectionAfter name0 h cds).
Proof.
  intros Hbuilt Hnames Hkeeps.
  pose proof Hkeeps as (Hcd & Hi & _).
  rewrite nth_error_map in Hi.
  destruct (nth_error (features geo) i) as [feat |] eqn:Efeat; [| discriminate].
  cbn [option_map] in Hi. injection Hi as Hcode.
  assert (Eclick : pick slidesReturn icbs geo (selectionAfter name0 h cds) i
                   = onPick slidesReturn icbs (selectionAfter name0 h cds) cd).
  { unfold pick. rewrite Efeat, Hcode. cbn [given orText].
    destruct (String.eqb_spec cd ""); [contradiction | reflexivity]. }
  rewrite Eclick. unfold onPick. split.
  - intros icb Eicb. rewrite Eicb.
    unfold getIcbByCd in Eicb. apply find_some in Eicb as [Hin Ecd].
    apply String.eqb_eq in Ecd.
    unfold updateAll. cbn [selectedIcbName mapApi].
    rewrite (find_unique_name icbs icb Hnames Hin).
    unfold selectionAfter. cbn [selectedIcbName mapApi]. rewrite Ecd.
    assert (Eh : setSelected (selectEach h cds) cd = setSelected h cd).
    { rewrite <- (selectEach_last geo h Hbuilt cds cd).
      unfold selectEach. rewrite fold_left_app. reflexivity. }
    destruct (slidesReturn icb); cbn [selectedIcbName mapApi];
      (split; [reflexivity |]); (split; [| intros E; now try discriminate]).
    + intros _. rewrite Eh. split; [reflexivity |].
      pose proof (renderMap_inv geo h Hbuilt) as Hinv.
      destruct (nth_error (shapes h) i) as [path0 |] eqn:Epath.
      * exists (paint (String.eqb cd cd) path0).
        split; [now apply (selected_kept geo h cd Hbuilt) |].
        rewrite paint_fill, paint_opacity, String.eqb_refl. split; reflexivity.
      * exfalso. apply nth_error_None in Epath.
        rewrite (inv_length _ _ Hinv) in Epath.
        assert (Hsome : nth_error (features geo) i <> None)
          by (rewrite Efeat; discriminate).
        apply nth_error_Some in Hsome. lia.
    + discriminate.
  - intros ->. reflexivity.
Qed.

(** ** The fitted projection: orientation, centring and tightness *)




(** * Further properties of the coordinate projector *)

Lemma tan_complement (t : R) :
  0 < t < PI / 2 -> tan (PI / 2 - t) = / tan t.
Proof.
  intros [H0 H1]. unfold tan. rewrite sin_shift, cos_shift.
  assert (Hs : 0 < sin t) by (apply sin_gt_0; lra).
  assert (Hc : 0 < cos t) by (apply cos_gt_0; lra).
  field. split; lra.
Qed.

Lemma planarY_mirror (p q : LonLat) :
  -90 < lat p < 90 -> lat q = - lat p -> planarY q = - planarY p.
Proof.
  intros Hp Hq. unfold planarY. rewrite Hq.
  destruct (mercator_angle (lat p) Hp) as [H0 H1].
  replace (PI / 4 + - lat p * PI / 180 / 2)
    with (PI / 2 - (PI / 4 + lat p * PI / 180 / 2)) by field.
  rewrite tan_complement by lra.
  apply ln_Rinv. now apply tan_gt_0.
Qed.

Lemma planarY_equator (p : LonLat) : lat p = 0 -> planarY p = 0.
Proof.
  intros E. unfold planarY. rewrite E.
  replace (PI / 4 + 0 * PI / 180 / 2) with (PI / 4) by field.
  rewrite tan_PI4. apply ln_1.
Qed.

(** X21: between the poles [mercatorProject] is odd and increasing in each
    coordinate.  The mirror image of a point through the origin (longitude
    and latitude negated) is sent to the mirror image of its image; a point
    of the equator gets the ordinate 0, a point north of it a positive
    ordinate and a point south of it a negative one; of two points, the one
    further north gets the greater ordinate and the one further east the
    greater abscissa. *)
Theorem mercatorProject_symmetry (p q : LonLat) :
  -90 < lat p < 90 -> -90 < lat q < 90 ->
  exists x y x' y' : R,
    mercatorProject (VNum (Fin (lon p))) (VNum (Fin (lat p))) = (Fin x, Fin y)
    /\ mercatorProject (VNum (Fin (lon q))) (VNum (Fin (lat q)))
       = (Fin x', Fin y')
    /\ mercatorProject (VNum (Fin (- lon p))) (VNum (Fin (- lat p)))
       = (Fin (- x), Fin (- y))
    /\ (lat p = 0 -> y = 0)
    /\ (0 < lat p -> 0 < y)
    /\ (lat p < 0 -> y < 0)
    /\ (lat p < lat q -> y < y')
    /\ (lon p < lon q -> x < x').
Proof.
  intros Hp Hq.
  exists (planarX p), (planarY p), (planarX q), (planarY q).
  set (m := {| lon := - lon p; lat := - lat p |}).
  set (o := {| lon := 0; lat := 0 |}).
  assert (Ho : planarY o = 0) by (now apply planarY_equator).
  split; [now apply mercatorProject_point |].
  split; [now apply mercatorProject_point |].
  split.
  { assert (Em : -90 < lat m < 90) by (cbn [m lat]; lra).
    apply mercatorProject_point in Em. cbn [m lon lat] in Em. rewrite Em.
    f_equal; f_equal.
    - unfold planarX. cbn [m lon]. field.
    - now apply planarY_mirror. }
  split; [apply planarY_equator |].
  split.
  { intros H. rewrite <- Ho. apply planarY_increasing; cbn [o lat]; lra. }
  split.
  { intros H. rewrite <- Ho. apply planarY_increasing; cbn [o lat]; lra. }
  split.
  { intros H. apply planarY_increasing; lra. }
  intros H. unfold planarX. pose proof PI_RGT_0. nra.
Qed.

(** *** Beyond the poles *)

Lemma tan_beyond_pole (t : R) :
  PI / 2 < t < PI \/ - (PI / 2) < t < 0 -> tan t < 0.
Proof.
  intros [[H0 H1] | [H0 H1]].
  - replace t with (PI + (t - PI)) by ring.
    assert (Hc : 0 < cos (t - PI)) by (apply cos_gt_0; lra).
    rewrite Rtrigo_facts.tan_pi_plus by lra.
    apply tan_lt_0; lra.
  - apply tan_lt_0; lra.
Qed.

Lemma mercatorProject_beyond (p : LonLat) :
  90 < lat p < 270 \/ -270 < lat p < -90 ->
  mercatorProject (VNum (Fin (lon p))) (VNum (Fin (lat p)))
  = (Fin (planarX p), NaN).
Proof.
  intros Hlat. pose proof PI_RGT_0 as Hpi.
  assert (Htan : tan (PI / 4 + lat p * PI / 180 / 2) < 0).
  { apply tan_beyond_pole. destruct Hlat as [H | H]; [left | right]; split; nra. }
  unfold mercatorProject, planarX. num_eval. reflexivity.
Qed.

Section BeyondThePoles.

Context {host : Host}.

(** X22: a latitude beyond a pole is not rejected.  For a latitude between
    90 and 270 degrees or between -270 and -90, [mercatorProject] returns a
    finite abscissa and the ordinate [NaN]; the bounds scan takes the
    abscissa into account and leaves the vertical extent of the box as it
    was; the pixel that any projection gives has the ordinate [NaN]; and
    the path compiler writes that ordinate as the text [NaN]. *)
Theorem latitude_beyond_pole (p : LonLat) (b : Bounds) (proj : Projection) :
  90 < lat p < 270 \/ -270 < lat p < -90 ->
  mercatorProject (VNum (Fin (lon p))) (VNum (Fin (lat p)))
  = (Fin (planarX p), NaN)
  /\ (exists b' : Bounds,
        trackPoint (pointValue p) b = Ok b'
        /\ minY b' = minY b /\ maxY b' = maxY b
        /\ minX b' = (if (Fin (planarX p) <? minX b)%num
                      then Fin (planarX p) else minX b)
        /\ maxX b' = (if (Fin (planarX p) >? maxX b)%num
                      then Fin (planarX p) else maxX b))
  /\ snd (project proj (VNum (Fin (lon p))) (VNum (Fin (lat p)))) = NaN
  /\ ringToPath (project proj) (ringValue [p])
     = Ok ("M" ++ toFixed 2 (Fin (planarX p) * scale proj + tx proj)%fp
               ++ " NaNZ")%string.
Proof.
  intros Hlat. pose proof (mercatorProject_beyond p Hlat) as E.
  assert (Ey : snd (project proj (VNum (Fin (lon p))) (VNum (Fin (lat p))))
               = NaN).
  { unfold project. rewrite E. cbn [snd Num.neg]. unfold Float.add, Float.mul.
    cbn [Num.mul Float.fl Num.add]. reflexivity. }
  split; [exact E |]. split; [| split; [exact Ey |]].
  - unfold trackPoint, pointValue. cbn [destructure2 bind nth]. rewrite E.
    eexists. split; [reflexivity |]. cbn [minX minY maxX maxY].
    unfold Num.gt. cbn [Num.lt].
    repeat split; now destruct (minY b), (maxY b).
  - unfold ringToPath, ringValue. cbn [map truthy negb ringLoop].
    unfold pointValue. cbn [destructure2 bind nth].
    unfold project in *. rewrite E in *. cbn [snd] in Ey. rewrite Ey.
    cbn [Nat.eqb toFixed bind]. rewrite !append_assoc. reflexivity.
Qed.

End BeyondThePoles.
(** * Geometries of the other types *)

Lemma nest_nested_ind (P : Nest -> Prop) :
  (forall p, P (Position p)) ->
  (forall items, Forall P items -> P (Nested items)) ->
  forall n, P n.
Proof.
  intros Hp Hn. fix IH 1. intros [p | items].
  - apply Hp.
  - apply Hn. induction items as [|x l IHl]; constructor; [apply IH | exact IHl].
Qed.

Lemma nestValue_not_number (n : Nest) : isNumber (nestValue n) = false.
Proof. now destruct n. Qed.

Lemma walk_nest (n : Nest) :
  forall b : Bounds,
    validPoints (positions n) ->
    walk trackPoint (nestValue n) b
    = Ok (fold_left (fun b p => widen p b) (positions n) b).
Proof.
  induction n as [p | items IH] using nest_nested_ind; intros b Hv.
  - cbn [nestValue positions fold_left]. unfold pointValue at 1.
    cbn [walk nth isNumber andb]. apply trackPoint_point.
    apply Hv. now left.
  - cbn [nestValue walk positions].
    assert (Hhead : isNumber (nth 0 (map nestValue items) VUndef)
                    && isNumber (nth 1 (map nestValue items) VUndef) = false).
    { destruct items as [|x l]; [reflexivity |].
      cbn [map nth]. now rewrite nestValue_not_number. }
    rewrite Hhead. clear Hhead. revert b Hv.
    induction IH as [|x l Hx _ IHl]; intros b Hv; cbn [map flat_map].
    + reflexivity.
    + cbn [flat_map] in Hv. destruct (validPoints_app _ _ Hv) as [Hvx Hvl].
      rewrite (Hx b Hvx). cbn [bind]. rewrite fold_left_app.
      now apply IHl.
Qed.

(** X23: a geometry that is neither a Polygon nor a MultiPolygon counts for
    the fit and is not drawn.  When its coordinates are positions nested in
    arrays to any depth (a point, a line, several of them), latitudes
    strictly between the poles, the bounds scan widens the box by every
    position in order, as it does for the points of a polygon, and raises
    nothing; the path compiler gives it the empty path. *)
Theorem other_geometry_is_fitted_not_drawn {host : Host} (t : option string)
    (n : Nest) (b : Bounds) (project : value -> value -> num * num) :
  typeIs t "Polygon" = false -> typeIs t "MultiPolygon" = false ->
  validPoints (positions n) ->
  forEachCoord trackPoint (Some {| type := t; coordinates := nestValue n |}) b
  = Ok (fold_left (fun b p => widen p b) (positions n) b)
  /\ geomToPath (Some {| type := t; coordinates := nestValue n |}) project
     = Ok ""%string.
Proof.
  intros Hpoly Hmulti Hv. unfold forEachCoord, geomToPath.
  cbn [type coordinates]. rewrite Hpoly, Hmulti. split; [| reflexivity].
  rewrite <- (walk_nest n b Hv). now destruct n.
Qed.
(** ** Where the rounding of the fit shows *)

Lemma pow2_nat (n : nat) : powerRZ 2 (Z.of_nat n) = IZR (2 ^ Z.of_nat n).
Proof. rewrite <- pow_powerRZ, pow_IZR. reflexivity. Qed.

(** A small number added to the opposite of a binary64 number of a much
    greater magnitude is lost in the rounding. *)
Lemma round64_absorbed (x t : R) (k : Z) :
  powerRZ 2 k <= x < powerRZ 2 (k + 1) ->
  0 <= t < powerRZ 2 (k - 53) ->
  powerRZ 2 k <= round64 x - t ->
  round64 x - t < powerRZ 2 (k + 1) ->
  round64 (t + - round64 x) = - round64 x.
Proof.
  intros Hx Ht Hlo Hhi. pose proof (pow2_pos k) as Hk.
  pose proof (pow2_pos (k - 52)) as Hg.
  assert (Eg : powerRZ 2 (k - 52) = 2 * powerRZ 2 (k - 53)).
  { replace (k - 52)%Z with (k - 53 + 1)%Z by lia. apply pow2_succ. }
  assert (Eq : round64 x
               = IZR (nearestEven (x / powerRZ 2 (k - 52)))
                 * powerRZ 2 (k - 52)).
  { apply round64_binade. rewrite Rabs_pos_eq; lra. }
  set (n := nearestEven (x / powerRZ 2 (k - 52))) in *.
  set (g := powerRZ 2 (k - 52)) in *.
  rewrite (round64_binade (t + - round64 x) k).
  - fold g. rewrite Eq.
    replace ((t + - (IZR n * g)) / g) with (IZR (- n) + t / g)
      by (rewrite opp_IZR; field; lra).
    rewrite nearestEven_near.
    + rewrite opp_IZR. ring.
    + assert (0 <= t / g) by (apply Rmult_le_pos; [lra | left; now apply Rinv_0_lt_compat]).
      assert (t / g < / 2).
      { apply Rmult_lt_reg_r with g; [exact Hg |].
        replace (t / g * g) with t by (field; lra). lra. }
      lra.
  - rewrite Rabs_left1 by lra. lra.
Qed.

(** The ordinate of a point just north of the equator. *)
Lemma planarY_small (a : R) :
  0 <= a <= / 4 -> ln (tan (PI / 4 + a)) <= 4 * a.
Proof.
  intros Ha.
  pose proof PI_RGT_0 as Hpi. pose proof PI2_3_2 as Hpi2.
  assert (Hs0 : 0 <= sin a) by (apply sin_ge_0; lra).
  assert (Hs1 : sin a <= a).
  { destruct (Req_dec_T a 0) as [-> | Hne]; [rewrite sin_0; lra |].
    left. apply sin_lt_x. lra. }
  assert (Hc0 : 0 < cos a) by (apply cos_gt_0; lra).
  assert (Hc1 : cos a <= 1) by apply COS_bound.
  pose proof (sin2_cos2 a) as Hsc. unfold Rsqr in Hsc.
  assert (Hc : 15 / 16 <= cos a) by nra.
  assert (Hq : 0 < sqrt 2) by (apply sqrt_lt_R0; lra).
  assert (Et : tan (PI / 4 + a) = 1 + 2 * sin a / (cos a - sin a)).
  { unfold tan. rewrite sin_plus, cos_plus, sin_PI4, cos_PI4. field.
    repeat split; first [lra | nra]. }
  rewrite Et.
  set (w := 2 * sin a / (cos a - sin a)).
  assert (Hw0 : 0 <= w).
  { unfold w. apply Rmult_le_pos; [lra |]. left. apply Rinv_0_lt_compat. lra. }
  assert (Hw1 : w <= 4 * a).
  { unfold w. apply Rmult_le_reg_r with (cos a - sin a); [lra |].
    replace (2 * sin a / (cos a - sin a) * (cos a - sin a)) with (2 * sin a)
      by (field; lra).
    nra. }
  destruct (Req_dec_T w 0) as [E0 | Hne].
  - rewrite E0, Rplus_0_r, ln_1. lra.
  - pose proof (exp_ineq1 w Hne) as He.
    apply Rle_trans with (ln (exp w)); [| rewrite ln_exp; exact Hw1].
    left. apply ln_increasing; lra.
Qed.

Lemma pow2_59 : powerRZ 2 59 = 576460752303423488.
Proof. change 59%Z with (Z.of_nat 59). rewrite pow2_nat. reflexivity. Qed.

Lemma pow2_60 : powerRZ 2 60 = 1152921504606846976.
Proof. change 60%Z with (Z.of_nat 60). rewrite pow2_nat. reflexivity. Qed.

Lemma pow2_6 : powerRZ 2 6 = 64.
Proof. change 6%Z with (Z.of_nat 6). rewrite pow2_nat. reflexivity. Qed.

Lemma tinyRing_valid : validPoints (allPoints tinyRing).
Proof.
  intros p Hp. cbn in Hp.
  destruct Hp as [<- | [<- | [<- | []]]]; cbn; lra.
Qed.

Lemma tinyRing_planar :
  planarX nearA = 170 * PI / 180
  /\ planarX nearB - planarX nearA = 0.00000000000026 * PI / 180
  /\ planarY nearA = 0
  /\ 0 < planarY nearB <= 4 * (0.0000000000000127 * PI / 180 / 2).
Proof.
  pose proof PI_RGT_0 as Hpi. pose proof PI_4 as Hpi4.
  split; [reflexivity |]. split; [unfold planarX; cbn [lon nearA nearB]; lra |].
  assert (E0 : planarY nearA = 0) by (now apply planarY_equator).
  split; [exact E0 |]. split.
  - rewrite <- E0. apply planarY_increasing; cbn; lra.
  - unfold planarY. cbn [lat nearB]. apply planarY_small. lra.
Qed.

Lemma tinyRing_box :
  fold_left (fun b p => widen p b) (allPoints tinyRing) noBounds
  = {| minX := Fin (planarX nearA); minY := Fin (planarY nearA);
       maxX := Fin (planarX nearB); maxY := Fin (planarY nearB) |}.
Proof.
  destruct tinyRing_planar as (_ & Hx & Hy0 & Hy1 & _).
  pose proof PI_RGT_0 as Hpi.
  unfold tinyRing.
  cbn [allPoints flat_map shape shapePoints List.concat app fold_left].
  unfold widen, noBounds.
  cbn [minX minY maxX maxY Num.lt Num.gt]. decide_R.
  cbn [minX minY maxX maxY Num.lt Num.gt]. decide_R.
  reflexivity.
Qed.

(** The fit of the tiny ring: the scale is so large that the margin is lost
    when it is added to the scaled abscissa of the box, and the first point
    of the ring lands on the left edge of the canvas, not 20 pixels inside. *)
Lemma tinyRing_pixel :
  exists py : R,
    project (fitBounds {| minX := Fin (planarX nearA);
                          minY := Fin (planarY nearA);
                          maxX := Fin (planarX nearB);
                          maxY := Fin (planarY nearB) |}
                       (Fin 1000) (Fin 680))
            (VNum (Fin (lon nearA))) (VNum (Fin (lat nearA)))
    = (Fin 0, Fin py).
Proof.
  destruct tinyRing_planar as (Ex0 & EDx & Ey0 & Hy1 & Hy1').
  pose proof PI_RGT_0 as Hpi. pose proof PI_4 as Hpi4.
  pose proof unit64_small as [Hu Hu'].
  set (x0 := planarX nearA) in *. set (x1 := planarX nearB) in *.
  set (y0 := planarY nearA) in *. set (y1 := planarY nearB) in *.
  assert (HDx : 0 < x1 - x0) by lra.
  assert (HGy : 0 < y1 - y0) by lra.
  assert (HW : 0 < 1000) by lra. assert (HH : 0 < 680) by lra.
  (* the horizontal extent decides the scale *)
  assert (Hmin : Rmin (1000 / (x1 - x0)) (680 / (y1 - y0)) = 1000 / (x1 - x0)).
  { apply Rmin_left.
    apply Rmult_le_reg_r with ((x1 - x0) * (y1 - y0)); [nra |].
    replace (1000 / (x1 - x0) * ((x1 - x0) * (y1 - y0)))
      with (1000 * (y1 - y0)) by (field; lra).
    replace (680 / (y1 - y0) * ((x1 - x0) * (y1 - y0)))
      with (680 * (x1 - x0)) by (field; lra).
    lra. }
  pose proof (fitBounds_finite 1000 680 x0 y0 x1 y1 HDx HGy) as Efit.
  pose proof (scale_near 1000 680 x0 y0 x1 y1 HW HH HDx HGy) as [HS Hs].
  pose proof (extent_near x0 y0 x1 y1) as [Hdx _].
  rewrite Hmin in HS, Hs.
  set (S := 0.96 * (1000 / (x1 - x0))) in *.
  set (s := round64 (round64 0.96 * _)) in *.
  set (dx := round64 (x1 - x0)) in *.
  assert (ESD : (x1 - x0) * S = 960).
  { unfold S. replace ((x1 - x0) * (0.96 * (1000 / (x1 - x0))))
      with (0.96 * 1000 * ((x1 - x0) / (x1 - x0))) by (field; lra).
    unfold Rdiv. rewrite Rinv_r by lra. lra. }
  assert (ExS : x0 * S * 0.00000000000026 = 170 * 960).
  { rewrite <- ESD, EDx, Ex0. field. }
  assert (HxS : 627692307692307692 <= x0 * S <= 627692307692307693) by lra.
  (* the margin *)
  pose proof (half_close 1000 (x1 - x0) S s dx HW HDx HS ltac:(lra) Hs Hdx)
    as Hhalf.
  rewrite ESD in Hhalf. apply Rabs_le_inv in Hhalf.
  set (halfX := round64 (round64 (1000 - round64 (dx * s)) / 2)) in *.
  assert (Hh : 19 <= halfX <= 21) by lra.
  (* the scaled abscissa of the box *)
  assert (Hx0 : 0 < x0) by lra.
  pose proof (scaled_close x0 S s x0 HS Hs ltac:(rewrite Rabs_pos_eq; lra))
    as Hq.
  apply Rabs_le_inv in Hq.
  assert (Hxs : Rabs (x0 * s - x0 * S) <= 8 * unit64 * (x0 * S)).
  { unfold near in Hs. rewrite (Rabs_pos_eq S) in Hs by lra.
    replace (x0 * s - x0 * S) with (x0 * (s - S)) by ring.
    rewrite Rabs_mult, (Rabs_pos_eq x0) by lra.
    replace (8 * unit64 * (x0 * S)) with (x0 * (8 * unit64 * S)) by ring.
    apply Rmult_le_compat_l; lra. }
  apply Rabs_le_inv in Hxs.
  assert (HUx : 0 <= unit64 * (x0 * S) <= 1000) by nra.
  pose proof (round64_absorbed (x0 * s) halfX 59) as Habs.
  change (59 + 1)%Z with 60%Z in Habs. change (59 - 53)%Z with 6%Z in Habs.
  rewrite pow2_59, pow2_60, pow2_6 in Habs.
  specialize (Habs ltac:(lra) ltac:(lra) ltac:(lra) ltac:(lra)).
  rewrite Efit. unfold project.
  rewrite (mercatorProject_point nearA) by (cbn; lra).
  cbn [scale tx ty]. unfold Float.add, Float.mul.
  cbn [Num.mul Num.neg Num.add Float.fl]. fold x0 halfX.
  rewrite Habs.
  replace (round64 (x0 * s) + - round64 (x0 * s)) with 0 by ring.
  rewrite round64_0. eexists. reflexivity.
Qed.

(** * Further examples *)

(** ** Clamping, navigation and the adoption setting *)

Lemma clamp_within_120 :
  0 <= 100 /\ Fin 120 <> NaN
  /\ exists r : R,
       clamp (Fin 120) (Fin 0) (Fin 100) = Fin r
       /\ 0 <= r <= 100
       /\ (forall x : R, Fin 120 = Fin x -> 0 <= x <= 100 -> r = x).
Proof.
  assert (H1 : 0 <= 100) by lra.
  assert (H2 : Fin 120 <> NaN) by discriminate.
  split; [exact H1 |]. split; [exact H2 |].
  exact (clamp_within (Fin 120) 0 100 H1 H2).
Defined.

Lemma setActiveSlide_steps_16 :
  activeSlide (setActiveSlide (ofNat 16 + 1)%num) = ofNat (Nat.min (16 + 1) 16)
  /\ activeSlide (setActiveSlide (ofNat 16 - 1)%num) = ofNat (Nat.max (16 - 1) 1)
  /\ activeSlide (setActiveSlide (ofNat 16)) = ofNat 16.
Proof. apply (setActiveSlide_steps 16). lia. Defined.

Lemma fraction_020 : isFraction (VNum (Fin 0.2)).
Proof. exists 0.2. split; [reflexivity | lra]. Qed.

Lemma adoption_stays_fraction_250 :
  isFraction (bootAdoption (Some (Fin 1.5)) (VNum (Fin 0.2)))
  /\ isFraction (onChange (Fin 250) (VNum (Fin 0.2)))
  /\ onChange NaN (VNum (Fin 0.2)) = VNum (Fin 0.2)
  /\ (forall x : R, 0 <= x <= 100 ->
        onChange (Fin x) (VNum (Fin 0.2)) = VNum (Fin (x / 100))).
Proof.
  exact (adoption_stays_fraction (Some (Fin 1.5)) (VNum (Fin 0.2)) (Fin 250)
           (VNum (Fin 0.2)) fraction_020 fraction_020).
Defined.

Lemma adoption_text_12_5 :
  exists (pct : R) (k : Z),
    onChange (Fin 12.5) VNull = VNum (Fin (pct / 100))
    /\ 0 <= pct <= 100
    /\ adoptionText (Fin 12.5) = decimal k
    /\ (0 <= k <= 100)%Z
    /\ IZR k - / 2 <= pct < IZR k + / 2.
Proof. apply (adoption_text (Fin 12.5) VNull). discriminate. Defined.

Lemma formatPercent_whole_half :
  (exists k : Z,
     (0 <= k <= 100)%Z
     /\ formatPercent (VNum (Fin 0.5)) = (decimal k ++ "%")%string
     /\ IZR k - / 2 <= 0.5 * 100 < IZR k + / 2)
  /\ formatPercent VNull = "—"%string
  /\ formatPercent VUndef = "—"%string
  /\ formatPercent (VNum NaN) = "—"%string
  /\ formatPercent (VNum PInf) = "Infinity%"%string.
Proof. apply (formatPercent_whole 0.5). lra. Defined.

(** ** The scenario model *)

Lemma computeScenario_wait_sample :
  exists after : R,
    waitAfter (computeScenario sampleIcb sampleDefaults) = Fin after
    /\ waitReduction (computeScenario sampleIcb sampleDefaults)
       = Fin (20 - after)
    /\ 0 <= after <= 20
    /\ (0.2 * 0.5 <= 1 -> after = 20 * (1 - 0.2 * 0.5))
    /\ (1 <= 0.2 * 0.5 -> after = 0).
Proof.
  apply (computeScenario_wait sampleIcb sampleDefaults 20 0.2 0.5);
    try reflexivity; lra.
Defined.

Lemma computeScenario_proportional_sample :
  switched (scenarioAt sampleIcb sampleDefaults 0.2)
  = (Fin 0.2 * switched (scenarioAt sampleIcb sampleDefaults 1))%num
  /\ saving (scenarioAt sampleIcb sampleDefaults 0.2)
     = (Fin 0.2 * saving (scenarioAt sampleIcb sampleDefaults 1))%num
  /\ appointmentsFreed (scenarioAt sampleIcb sampleDefaults 0.2)
     = (Fin 0.2 * appointmentsFreed (scenarioAt sampleIcb sampleDefaults 1))%num
  /\ wteReleased (scenarioAt sampleIcb sampleDefaults 0.2)
     = (Fin 0.2 * wteReleased (scenarioAt sampleIcb sampleDefaults 1))%num
  /\ baselineSpend (scenarioAt sampleIcb sampleDefaults 0.2)
     = Fin (100000 * 1000)
  /\ saving (scenarioAt sampleIcb sampleDefaults 0.2)
     = Fin (100000 * 0.2 * (1000 - 200))
  /\ wteReleased (scenarioAt sampleIcb sampleDefaults 0.2)
     = Fin (100000 * 0.2 * 8 / 1500)
  /\ (switched (scenarioAt sampleIcb sampleDefaults 0) = Fin 0
      /\ saving (scenarioAt sampleIcb sampleDefaults 0) = Fin 0
      /\ appointmentsFreed (scenarioAt sampleIcb sampleDefaults 0) = Fin 0
      /\ wteReleased (scenarioAt sampleIcb sampleDefaults 0) = Fin 0).
Proof.
  apply (computeScenario_proportional sampleIcb sampleDefaults
           100000 1000 200 8 1500 0.2); try reflexivity; lra.
Defined.

(** ** The localised series and the charts *)

Lemma localiseSeries_latest_sample :
  localiseSeries (series ([year2022] ++ [year2023])) (Some sampleIcb)
  = series (map (scalePeriod (100000 / valueA year2023)
                             (70000 / valueB year2023))
                ([year2022] ++ [year2023]))
  /\ lastRow (localiseSeries (series ([year2022] ++ [year2023]))
                             (Some sampleIcb))
     = Some (periodRow {| period := period year2023;
                          valueA := 100000; valueB := 70000 |}).
Proof.
  apply (localiseSeries_latest [year2022] year2023 sampleIcb 100000 70000);
    try reflexivity; cbn; lra.
Defined.

Lemma bars_inside_plot_oneYear :
  exists (band w xA xB yA yB hA hB : R) (barA barB : element),
    band = 890 / INR (List.length oneYear)
    /\ nth_error (Referrals.bars (series oneYear)) (3 * 0) = Some barA
    /\ nth_error (Referrals.bars (series oneYear)) (3 * 0 + 1) = Some barB
    /\ isRect barA xA yA w hA REFERRALS_GREY
    /\ isRect barB xB yB w hB BRAND_BLUE
    /\ 0 < w
    /\ 80 + INR 0 * band < xA
    /\ xA + w < xB
    /\ xB + w < 80 + (INR 0 + 1) * band
    /\ xA - (80 + INR 0 * band) = 80 + (INR 0 + 1) * band - (xB + w)
    /\ (0 <= 100 -> 127 < yA <= 610 /\ yA + hA = 610)
    /\ (0 <= 80 -> 127 < yB <= 610 /\ yB + hB = 610)
    /\ (100 < 0 -> hA = 0)
    /\ (80 < 0 -> hB = 0).
Proof.
  apply (bars_inside_plot oneYear 0
           {| period := "2021"; valueA := 100; valueB := 80 |}).
  reflexivity.
Defined.



Lemma sampleIcb_figures (i : Icb.t) :
  Some sampleIcb = Some i ->
  figure (Icb.annualised_referrals i)
  /\ figure (Icb.annualised_accessing_services i).
Proof.
  intros E. injection E as <-. split; right; right; eexists; reflexivity.
Qed.

Lemma updateSlide5_chart_sample :
  exists (s' : list Period) (k : nat) (st : R),
    localiseSeries (series [year2022; year2023]) (Some sampleIcb) = series s'
    /\ map period s' = map period [year2022; year2023]
    /\ (1 <= k)%nat
    /\ Referrals.yMax (localiseSeries (series [year2022; year2023])
                                      (Some sampleIcb))
       = Fin (INR k * st)
    /\ forall extra : nat,
         Referrals.renderReferralsChart (S k + extra)
           (localiseSeries (series [year2022; year2023]) (Some sampleIcb))
         = Some (flat_map
                   (Referrals.gridline
                      (localiseSeries (series [year2022; year2023])
                                      (Some sampleIcb)))
                   (map (fun j => Fin (INR j * st)) (seq 0 (S k)))
                 ++ Referrals.axes
                      (localiseSeries (series [year2022; year2023])
                                      (Some sampleIcb))
                 ++ Referrals.legend
                 ++ Referrals.bars
                      (localiseSeries (series [year2022; year2023])
                                      (Some sampleIcb)))%list.
Proof.
  exact (updateSlide5_chart [year2022; year2023] (Some sampleIcb)
           sampleIcb_figures).
Defined.

(** ** The region map *)

Lemma keeps_mixedRegions : keeps (features mixedRegions) 0 "E54000008".
Proof.
  split; [discriminate |]. split; [reflexivity |].
  intros j Hj. destruct j as [|[|j]]; [lia | discriminate |].
  cbn. destruct j; discriminate.
Qed.

Lemma setSelected_last_wins_mixedRegions :
  selectEach mixedHandle (["E54000008"; "E54000010"] ++ ["E54000008"])%list
  = setSelected mixedHandle "E54000008"
  /\ (forall (i j : nat) (p q : element),
        nth_error
          (shapes (selectEach mixedHandle
                     (["E54000008"; "E54000010"] ++ ["E54000008"])%list)) i
        = Some p ->
        nth_error
          (shapes (selectEach mixedHandle
                     (["E54000008"; "E54000010"] ++ ["E54000008"])%list)) j
        = Some q ->
        getAttribute "fill" p = Some (AStr BRAND_BLUE) ->
        getAttribute "fill" q = Some (AStr BRAND_BLUE) ->
        i = j /\ keeps (features mixedRegions) i "E54000008").
Proof.
  apply (setSelected_last_wins mixedRegions mixedHandle
           ["E54000008"; "E54000010"]%string "E54000008").
  exact renderMap_mixedRegions.
Defined.

Lemma sampleIcb_names : NoDup (map Icb.icb_name [sampleIcb]).
Proof. constructor; [intros [] | constructor]. Qed.

Lemma click_selects_region_mixedRegions :
  (forall icb : Icb.t,
     getIcbByCd [sampleIcb] "E54000008" = Some icb ->
     selectedIcbName
       (pick (fun _ => true) [sampleIcb] mixedRegions
          (selectionAfter "" mixedHandle ["E54000010"%string]) 0)
     = Icb.icb_name icb
     /\ ((fun _ : Icb.t => true) icb = true ->
         mapApi
           (pick (fun _ => true) [sampleIcb] mixedRegions
              (selectionAfter "" mixedHandle ["E54000010"%string]) 0)
         = setSelected mixedHandle "E54000008"
         /\ exists path : element,
              nth_error
                (shapes
                   (mapApi
                      (pick (fun _ => true) [sampleIcb] mixedRegions
                         (selectionAfter "" mixedHandle ["E54000010"%string])
                         0))) 0
              = Some path
              /\ getAttribute "fill" path = Some (AStr BRAND_BLUE)
              /\ getAttribute "opacity" path = Some (AStr "1"))
     /\ ((fun _ : Icb.t => true) icb = false ->
         mapApi
           (pick (fun _ => true) [sampleIcb] mixedRegions
              (selectionAfter "" mixedHandle ["E54000010"%string]) 0)
         = selectEach mixedHandle ["E54000010"%string]))
  /\ (getIcbByCd [sampleIcb] "E54000008" = None ->
      pick (fun _ => true) [sampleIcb] mixedRegions
        (selectionAfter "" mixedHandle ["E54000010"%string]) 0
      = selectionAfter "" mixedHandle ["E54000010"%string]).
Proof.
  exact (click_selects_region (fun _ => true) [sampleIcb] mixedRegions
           mixedHandle ["E54000010"%string] "" 0 "E54000008"
           renderMap_mixedRegions sampleIcb_names keeps_mixedRegions).
Defined.


(** ** The projector *)

Lemma mercatorProject_symmetry_corners :
  exists x y x' y' : R,
    mercatorProject (VNum (Fin (lon cornerA))) (VNum (Fin (lat cornerA)))
    = (Fin x, Fin y)
    /\ mercatorProject (VNum (Fin (lon cornerB))) (VNum (Fin (lat cornerB)))
       = (Fin x', Fin y')
    /\ mercatorProject (VNum (Fin (- lon cornerA)))
                       (VNum (Fin (- lat cornerA)))
       = (Fin (- x), Fin (- y))
    /\ (lat cornerA = 0 -> y = 0)
    /\ (0 < lat cornerA -> 0 < y)
    /\ (lat cornerA < 0 -> y < 0)
    /\ (lat cornerA < lat cornerB -> y < y')
    /\ (lon cornerA < lon cornerB -> x < x').
Proof.
  apply (mercatorProject_symmetry cornerA cornerB); cbn; lra.
Defined.

Lemma beyondPole_latitude : 90 < lat beyondPole < 270 \/ -270 < lat beyondPole < -90.
Proof. left. cbn. lra. Qed.

Lemma latitude_beyond_pole_sample :
  mercatorProject (VNum (Fin (lon beyondPole))) (VNum (Fin (lat beyondPole)))
  = (Fin (planarX beyondPole), NaN)
  /\ (exists b' : Bounds,
        trackPoint (pointValue beyondPole) noBounds = Ok b'
        /\ minY b' = minY noBounds /\ maxY b' = maxY noBounds
        /\ minX b' = (if (Fin (planarX beyondPole) <? minX noBounds)%num
                      then Fin (planarX beyondPole) else minX noBounds)
        /\ maxX b' = (if (Fin (planarX beyondPole) >? maxX noBounds)%num
                      then Fin (planarX beyondPole) else maxX noBounds))
  /\ snd (project unitProjection (VNum (Fin (lon beyondPole)))
                  (VNum (Fin (lat beyondPole)))) = NaN
  /\ ringToPath (project unitProjection) (ringValue [beyondPole])
     = Ok ("M" ++ toFixed 2 (Fin (planarX beyondPole) * scale unitProjection
                             + tx unitProjection)%fp
               ++ " NaNZ")%string.
Proof.
  exact (latitude_beyond_pole beyondPole noBounds unitProjection
           beyondPole_latitude).
Defined.

Lemma cornerLine_valid : validPoints (positions cornerLine).
Proof. intros p [<- | [<- | []]]; cbn; lra. Qed.

Lemma other_geometry_cornerLine :
  forEachCoord trackPoint
    (Some {| type := Some "LineString"%string;
             coordinates := nestValue cornerLine |}) noBounds
  = Ok (fold_left (fun b p => widen p b) (positions cornerLine) noBounds)
  /\ geomToPath (Some {| type := Some "LineString"%string;
                         coordinates := nestValue cornerLine |}) plainProject
     = Ok ""%string.
Proof.
  apply (other_geometry_is_fitted_not_drawn (Some "LineString"%string)
           cornerLine noBounds plainProject);
    [reflexivity | reflexivity | exact cornerLine_valid].
Defined.

(** ** The rounding of the fit *)

(** A ring of the data model whose box has positive width and height, and
    whose first point the fitted projection sends to the left edge of the
    canvas (abscissa 0), not inside the padding margin (abscissa at least
    20). *)
Lemma tinyRing_fit :
  validPoints (allPoints tinyRing)
  /\ In nearA (allPoints tinyRing)
  /\ exists (b : Bounds) (proj : Projection) (py : R),
       scanBounds (collection tinyRing) = Ok b
       /\ (Fin 0 <? extentX b)%num = true
       /\ (Fin 0 <? extentY b)%num = true
       /\ buildGeoProjection (collection tinyRing) (Fin 1000) (Fin 680)
          = Ok proj
       /\ project proj (VNum (Fin (lon nearA))) (VNum (Fin (lat nearA)))
          = (Fin 0, Fin py).
Proof.
  split; [exact tinyRing_valid |]. split; [now left |].
  destruct tinyRing_planar as (_ & EDx & Ey0 & Hy1 & _).
  pose proof PI_RGT_0 as Hpi.
  destruct tinyRing_pixel as [py Epy].
  eexists. eexists. exists py.
  assert (Escan : scanBounds (collection tinyRing)
                  = Ok {| minX := Fin (planarX nearA);
                          minY := Fin (planarY nearA);
                          maxX := Fin (planarX nearB);
                          maxY := Fin (planarY nearB) |}).
  { rewrite (scanBounds_collection tinyRing tinyRing_valid).
    now rewrite tinyRing_box. }
  split; [exact Escan |].
  split.
  { unfold extentX. cbn [minX maxX Num.sub Num.neg Num.add Num.lt].
    apply Rltb_true. lra. }
  split.
  { unfold extentY. cbn [minY maxY Num.sub Num.neg Num.add Num.lt].
    apply Rltb_true. lra. }
  split.
  { unfold buildGeoProjection. rewrite Escan. reflexivity. }
  exact Epy.
Qed.
